(** * The W2Dynamics solver interface of TRIQS: [Solver.solve]

    A shallow embedding of [python/w2dyn_cthyb/solver.py].

    Part I holds the model:
    - [NdArray]: numpy arrays as a shape with row-major data, with the
      indexing, reshaping and axis operations [solve] uses;
    - [Py]: Python exceptions, the values stored in the configuration,
      and the arithmetic [solve] performs on them;
    - [Solver]: [solve] itself, phase by phase, with its nested function
      [bs_diagflat], in a monad that threads the trace of prints and
      engine calls, the mutable configuration and the attributes of
      [self].

    Part II holds the facts proved about the model.

    Everything outside the file under study (TRIQS, W2Dynamics, scipy,
    numpy's reductions, MPI and the converters of this package) is a field
    of the record [Solver.externals]. *)

From Stdlib Require Import ZArith ArithRing Floats Lia.
From stdpp Require Import base option list strings gmap sorting.

(** * Part I: the model *)

(** ** numpy arrays *)

Module NdArray.
Section Arrays.
Context {V : Type}.

Record ndarray := mk_ndarray { shape : list nat; data : list V }.

Definition size (sh : list nat) : nat := foldr Nat.mul 1 sh.

(** numpy only builds arrays with as many entries as the shape asks for. *)
Definition wf (a : ndarray) : Prop := length (data a) = size (shape a).

(** Row-major position of a full index; [None] when the index has the
    wrong rank or leaves the bounds (numpy's IndexError). *)
Fixpoint ravel (sh idx : list nat) : option nat :=
  match sh, idx with
  | [], [] => Some 0
  | d :: sh', i :: idx' =>
      if decide (i < d) then p ← ravel sh' idx'; Some (i * size sh' + p) else None
  | _, _ => None
  end.

Fixpoint unravel (sh : list nat) (p : nat) : list nat :=
  match sh with
  | [] => []
  | _ :: sh' => p / size sh' :: unravel sh' (p mod size sh')
  end.

(** [a[idx]] for a full index. *)
Definition get (a : ndarray) (idx : list nat) : option V :=
  p ← ravel (shape a) idx; data a !! p.

(** [a[pre, ...]]: the block of trailing axes under a leading index. *)
Definition get_slab (a : ndarray) (pre : list nat) : option (list V) :=
  let R := size (drop (length pre) (shape a)) in
  p ← ravel (take (length pre) (shape a)) pre;
  Some (take R (drop (p * R) (data a))).

(** [a[pre, ...] = slab], the block given in row-major order. *)
Definition set_slab (a : ndarray) (pre : list nat) (slab : list V) : option ndarray :=
  let R := size (drop (length pre) (shape a)) in
  p ← ravel (take (length pre) (shape a)) pre;
  if decide (length slab = R)
  then Some (mk_ndarray (shape a)
               (take (p * R) (data a) ++ slab ++ drop (p * R + R) (data a)))
  else None.

(** [np.zeros(sh)], the zero of the dtype given. *)
Definition zeros (z : V) (sh : list nat) : ndarray :=
  mk_ndarray sh (replicate (size sh) z).

(** [a.reshape(sh)]; [None] is numpy's ValueError on a size mismatch. *)
Definition reshape (a : ndarray) (sh : list nat) : option ndarray :=
  if decide (size sh = length (data a)) then Some (mk_ndarray sh (data a)) else None.

(** The array of shape [sh] whose entry at [idx] is [a[f idx]]. *)
Definition remap (sh : list nat) (f : list nat → list nat) (a : ndarray) : option ndarray :=
  mk_ndarray sh <$> mapM (λ p, get a (f (unravel sh p))) (seq 0 (size sh)).

Definition is_perm (perm : list nat) (n : nat) : bool :=
  bool_decide (length perm = n) && forallb (λ j, bool_decide (j ∈ perm)) (seq 0 n).

Definition index_of (j : nat) (perm : list nat) : nat :=
  default 0 (fst <$> list_find (λ x, x = j) perm).

(** [a.transpose(perm)]: axis [k] of the result is axis [perm[k]] of [a]. *)
Definition transpose (perm : list nat) (a : ndarray) : option ndarray :=
  if is_perm perm (length (shape a))
  then remap ((λ j, shape a !!! j) <$> perm)
             (λ idx, (λ j, idx !!! index_of j perm) <$> seq 0 (length perm)) a
  else None.

(** [a[::-1, ...]]: the leading axis reversed. *)
Definition flip0 (a : ndarray) : option ndarray :=
  match shape a with
  | [] => None
  | n :: _ => remap (shape a)
                (λ idx, match idx with [] => [] | i :: r => (n - 1 - i) :: r end) a
  end.

End Arrays.
Arguments ndarray : clear implicits.

(** Elementwise application, as in [-a] or [np.real(a)]. *)
Definition map {A B} (f : A → B) (a : ndarray A) : ndarray B :=
  mk_ndarray (shape a) (f <$> data a).

End NdArray.

(** ** Python values *)

Module Py.

Inductive exn :=
  | KeyError (key : string)
  | IndexError
  | ValueError
  | TypeError
  | NameError (name : string)
  | ZeroDivisionError
  | OverflowError
  | AssertionError (msg : string)
  | NotImplementedError
  | SystemExit
  | EngineError.

(** How a call ends: it returns or it raises.  What it raises its
    caller can catch, [SystemExit] included. *)
Inductive outcome (A : Type) :=
  | Ok (a : A)
  | Raise (e : exn).
Arguments Ok {A} a.
Arguments Raise {A} e.

(** An entry of [cfg["QMC"]["WormComponents"]]: a compound index or a
    band-spin tuple. *)
Inductive wormcomp :=
  | CompInt (c : Z)
  | CompBS (bs : list Z).

(** The values [solve] stores in and reads from the configuration. *)
Inductive cfgval :=
  | VInt (z : Z)
  | VFloat (x : float)
  | VList (l : list wormcomp).

Definition float_of_Z (z : Z) : float :=
  if (z <? 0)%Z then PrimFloat.opp (PrimFloat.of_uint63 (Uint63.of_Z (- z)))
  else PrimFloat.of_uint63 (Uint63.of_Z z).

(** [v == n] for an int literal [n]. *)
Definition py_eq_int (v : cfgval) (n : Z) : bool :=
  match v with
  | VInt z => (z =? n)%Z
  | VFloat x => PrimFloat.eqb x (float_of_Z n)
  | VList _ => false
  end.

(** [int(x)] on a float: truncation toward zero. *)
Definition py_int_of_float (x : float) : exn + Z :=
  match Prim2SF x with
  | S754_zero _ => inr 0%Z
  | S754_infinity _ => inl OverflowError
  | S754_nan => inl ValueError
  | S754_finite s m e =>
      let a := if (0 <=? e)%Z then (Z.pos m * 2 ^ e)%Z else (Z.pos m / 2 ^ (- e))%Z in
      inr (if s then (- a)%Z else a)
  end.

(** [float(z)] on an int, also the conversion of an int operand of [/]:
    the nearest binary64, ties to even, and an OverflowError when that
    is beyond the largest one. *)
Definition py_float_of_int (z : Z) : exn + float :=
  match binary_normalize prec emax z 0 false with
  | S754_infinity _ => inl OverflowError
  | x => inr (SF2Prim x)
  end.

(** [x / y] on floats. *)
Definition py_float_div (x y : float) : exn + float :=
  if PrimFloat.eqb y 0 then inl ZeroDivisionError else inr (PrimFloat.div x y).

(** [int(v / float(c))] for a length [c]: [float(c)] first, then the
    division, before which an int [v] is converted to binary64, then the
    truncation of the binary64 quotient. *)
Definition py_int_div (v : cfgval) (c : nat) : exn + Z :=
  match py_float_of_int (Z.of_nat c) with
  | inl e => inl e
  | inr y =>
      let q := match v with
               | VInt z =>
                   match py_float_of_int z with
                   | inl e => inl e
                   | inr x => py_float_div x y
                   end
               | VFloat x => py_float_div x y
               | VList _ => inl TypeError
               end in
      match q with
      | inl e => inl e
      | inr q => py_int_of_float q
      end
  end.

(** [pat in s] on strings. *)
Definition contains (pat s : string) : bool :=
  match String.index 0 pat s with Some _ => true | None => false end.

(** [d[k]] on a dict kept in insertion order. *)
Fixpoint dict_get {A} (k : string) (d : list (string * A)) : option A :=
  match d with
  | [] => None
  | (k', v) :: d' => if decide (k' = k) then Some v else dict_get k d'
  end.

(** [d[k] = v]: an existing key keeps its place, a new one goes last. *)
Fixpoint dict_set {A} (k : string) (v : A) (d : list (string * A)) : list (string * A) :=
  match d with
  | [] => [(k, v)]
  | (k', v') :: d' => if decide (k' = k) then (k, v) :: d' else (k', v') :: dict_set k v d'
  end.

End Py.

(** ** The solver *)

Module Solver.
Import NdArray Py.

(** The scalars of the arrays of a run (numpy's float64 or complex128),
    with the operations [solve] applies to them. *)
Class NumpyScalar (V : Type) := {
  np_zero : V;                      (* an entry of np.zeros *)
  np_neg : V → V;                   (* -x *)
  np_real : V → V;                  (* np.real(x) *)
  np_abs_gt : V → float → bool;     (* np.abs(x) > t *)
  np_abs_le : V → float → bool      (* np.abs(x) <= t *)
}.

#[export] Instance float_scalar : NumpyScalar float := {|
  np_zero := 0%float;
  np_neg := PrimFloat.opp;
  np_real := id;
  np_abs_gt x t := PrimFloat.ltb t (PrimFloat.abs x);
  np_abs_le x t := PrimFloat.leb (PrimFloat.abs x) t
|}.

Section Model.
Context {V : Type} `{!NumpyScalar V}.

(** A block Green's function: its blocks in iteration order, each with
    the data array of axes (time or frequency, row, column). *)
Definition BlockGf : Type := list (string * ndarray V).

(** What the engine returns: the dict [result.other]. *)
Record result := mk_result { other : list (string * ndarray V) }.

(** The arguments of [impurity.ImpurityProblem] that [solve] computes.
    The interaction object taken from [config.atomlist_from_cfg], the two
    [None]s, the empty [symmetry_moves] and [paramag = False] are the same
    in every call and are left out. *)
Record ImpurityProblem := mk_problem {
  ip_beta : float;
  ip_g0inviw : ndarray V;
  ip_fiw : ndarray V;
  ip_fmom : ndarray V;
  ip_ftau : ndarray V;
  ip_muimp : ndarray V
}.

(** The local variable [gtau]: an array of the engine, or an array
    wrapped by [stat.DistributedSample(_, mpi_comm, ntotal=mpi.size)]. *)
Inductive gtau_t :=
  | GtauArray (a : ndarray V)
  | GtauSample (a : ndarray V) (ntotal : nat).

(** Code that [solve] calls and that is not in the file under study.
    The engine is a state machine: [solve] keeps one solver object, whose
    methods see the configuration object it was built from as it is at
    the time of the call. *)
Record externals := {
  mpi_rank : nat;
  mpi_size : nat;
  (* w2dyn.auxiliaries.config.get_cfg on the parameter file written for
     [Nd = norb]: the sections General and QMC *)
  get_cfg : nat → gmap string cfgval * gmap string cfgval;
  worm_get_sector_index : gmap string cfgval → Z;
  (* w2dyn.auxiliaries.compound_index: the triple (bs, b, s) *)
  index2component_general : nat → nat → Z → list nat * list nat * list nat;
  componentBS2index_general : nat → nat → list Z → Z;
  (* w2dyn.dmft.impurity.CtHybSolver *)
  engine : Type;
  CtHybSolver : gmap string cfgval → gmap string cfgval → Z → engine;
  set_problem : engine → ImpurityProblem → option cfgval → engine;
  set_umatrix : engine → ndarray V → engine;
  solver_solve : engine → gmap string cfgval → option Z → engine * option result;
  solve_component : engine → gmap string cfgval → Z → Z → Z → engine * option result;
  solve_comp_stats : engine → gmap string cfgval → Z → Z → Z → engine * option result;
  (* scipy.linalg.block_diag, np.mean(_, axis=0), DistributedSample.mean
     and .stderr *)
  block_diag : list (ndarray V) → ndarray V;
  np_mean_axis0 : ndarray V → ndarray V;
  ds_mean : ndarray V → nat → ndarray V;
  ds_stderr : ndarray V → nat → ndarray V;
  (* .converters of this package *)
  triqs_gf_to_w2dyn_ndarray_g_tosos_beta_ntau : BlockGf → ndarray V
}.

(** What a call does that the outside can see: prints (by their text,
    without the values interpolated into it) and calls into the engine,
    each with the configuration the engine can read at that moment. *)
Inductive event :=
  | EvPrint (text : string)
  | EvCtHybSolver (qmc : gmap string cfgval) (seed : Z)
  | EvSetProblem (p : ImpurityProblem) (fourpnt : option cfgval)
  | EvSetUmatrix (U : ndarray V)
  | EvSolve (qmc : gmap string cfgval) (iter_no : option Z)
  | EvSolveComponent (qmc : gmap string cfgval) (iter_no sector comp : Z)
  | EvSolveCompStats (qmc : gmap string cfgval) (iter_no sector comp : Z).

(** [**params_kw].  An operator argument is represented by the matrix
    that TRIQS extracts from it: [h_int] by
    [dict_to_matrix(extract_U_dict4(h_int), gf_struct)] and [h_0] by
    [dict_to_matrix(extract_h_dict(h_0), gf_struct)]. *)
Record kwargs := {
  kw_n_cycles : option Z;
  kw_n_warmup_cycles : option Z;
  kw_max_time : option Z;
  kw_worm : option bool;
  kw_PercentageWormInsert : option float;
  kw_PercentageWormReplace : option float;
  kw_worm_components : option (list Z);
  kw_length_cycle : option Z;
  kw_h_int : option (ndarray V);
  kw_h_0 : option (ndarray V);
  kw_random_seed : option Z;
  kw_move_double : option bool;
  kw_measure_G_l : option bool;
  kw_measure_G_tau : option bool;
  kw_measure_pert_order : option bool;
  kw_statesampling : option bool;
  kw_flavourchange_moves : option bool;
  kw_flavomove_global_prob : option float;
  kw_measure_G2_iw_ph : option bool;
  kw_measure_G2_n_fermionic : option Z;
  kw_measure_G2_n_bosonic : option Z;
  kw_cfg_qmc : option (list (string * cfgval))
}.

(** [self] as [__init__] leaves it.  [G0_iw] is represented by what
    [extract_deltaiw_and_tij_from_G0] and [Fourier] make of it: the
    hybridization in imaginary time and the list [t_ij_lst]. *)
Record Self := {
  beta : float;
  n_iw : nat;
  n_tau : nat;
  n_l : nat;
  delta_interface : bool;
  complex : bool;
  Delta_tau : BlockGf;
  G0_Delta_tau : BlockGf;
  G0_t_ij_lst : list (ndarray V)
}.

Variable X : externals.

(** The mutable store of a call: the trace, the configuration object
    [cfg], the solver object and the attributes of [self] that [solve]
    writes. *)
Record state := mk_state {
  trace : list event;
  cfg_General : gmap string cfgval;
  cfg_QMC : gmap string cfgval;
  solver : option (engine X);
  self_norb : option nat;
  self_Delta_tau : BlockGf;
  self_Delta_infty : option (list (ndarray V));
  self_G2_worm_components : list (Z * ndarray V * ndarray V);
  self_GF_worm_components : list (Z * ndarray V * ndarray V);
  self_G2_iw_ph : option (list (string * ndarray V));
  self_G_tau : option gtau_t;
  self_hist : option (ndarray V);
  self_G_l : option (ndarray V)
}.

Definition init_state (self : Self) : state :=
  mk_state [] ∅ ∅ None None (Delta_tau self) None [] [] None None None None.

Definition set_trace (f : list event → list event) (s : state) : state :=
  mk_state (f (trace s)) (cfg_General s) (cfg_QMC s) (solver s) (self_norb s)
    (self_Delta_tau s) (self_Delta_infty s) (self_G2_worm_components s)
    (self_GF_worm_components s) (self_G2_iw_ph s) (self_G_tau s) (self_hist s) (self_G_l s).

Definition set_cfg_General (f : gmap string cfgval → gmap string cfgval) (s : state) : state :=
  mk_state (trace s) (f (cfg_General s)) (cfg_QMC s) (solver s) (self_norb s)
    (self_Delta_tau s) (self_Delta_infty s) (self_G2_worm_components s)
    (self_GF_worm_components s) (self_G2_iw_ph s) (self_G_tau s) (self_hist s) (self_G_l s).

Definition set_cfg_QMC (f : gmap string cfgval → gmap string cfgval) (s : state) : state :=
  mk_state (trace s) (cfg_General s) (f (cfg_QMC s)) (solver s) (self_norb s)
    (self_Delta_tau s) (self_Delta_infty s) (self_G2_worm_components s)
    (self_GF_worm_components s) (self_G2_iw_ph s) (self_G_tau s) (self_hist s) (self_G_l s).

Definition set_solver (e : engine X) (s : state) : state :=
  mk_state (trace s) (cfg_General s) (cfg_QMC s) (Some e) (self_norb s)
    (self_Delta_tau s) (self_Delta_infty s) (self_G2_worm_components s)
    (self_GF_worm_components s) (self_G2_iw_ph s) (self_G_tau s) (self_hist s) (self_G_l s).

Definition set_self_norb (n : nat) (s : state) : state :=
  mk_state (trace s) (cfg_General s) (cfg_QMC s) (solver s) (Some n)
    (self_Delta_tau s) (self_Delta_infty s) (self_G2_worm_components s)
    (self_GF_worm_components s) (self_G2_iw_ph s) (self_G_tau s) (self_hist s) (self_G_l s).

Definition set_self_Delta_tau (d : BlockGf) (s : state) : state :=
  mk_state (trace s) (cfg_General s) (cfg_QMC s) (solver s) (self_norb s)
    d (self_Delta_infty s) (self_G2_worm_components s)
    (self_GF_worm_components s) (self_G2_iw_ph s) (self_G_tau s) (self_hist s) (self_G_l s).

Definition set_self_Delta_infty (l : list (ndarray V)) (s : state) : state :=
  mk_state (trace s) (cfg_General s) (cfg_QMC s) (solver s) (self_norb s)
    (self_Delta_tau s) (Some l) (self_G2_worm_components s)
    (self_GF_worm_components s) (self_G2_iw_ph s) (self_G_tau s) (self_hist s) (self_G_l s).

Definition set_self_G2_worm_components
    (f : list (Z * ndarray V * ndarray V) → list (Z * ndarray V * ndarray V)) (s : state) : state :=
  mk_state (trace s) (cfg_General s) (cfg_QMC s) (solver s) (self_norb s)
    (self_Delta_tau s) (self_Delta_infty s) (f (self_G2_worm_components s))
    (self_GF_worm_components s) (self_G2_iw_ph s) (self_G_tau s) (self_hist s) (self_G_l s).

Definition set_self_GF_worm_components
    (f : list (Z * ndarray V * ndarray V) → list (Z * ndarray V * ndarray V)) (s : state) : state :=
  mk_state (trace s) (cfg_General s) (cfg_QMC s) (solver s) (self_norb s)
    (self_Delta_tau s) (self_Delta_infty s) (self_G2_worm_components s)
    (f (self_GF_worm_components s)) (self_G2_iw_ph s) (self_G_tau s) (self_hist s) (self_G_l s).

Definition set_self_G2_iw_ph (g : list (string * ndarray V)) (s : state) : state :=
  mk_state (trace s) (cfg_General s) (cfg_QMC s) (solver s) (self_norb s)
    (self_Delta_tau s) (self_Delta_infty s) (self_G2_worm_components s)
    (self_GF_worm_components s) (Some g) (self_G_tau s) (self_hist s) (self_G_l s).

Definition set_self_G_tau (g : gtau_t) (s : state) : state :=
  mk_state (trace s) (cfg_General s) (cfg_QMC s) (solver s) (self_norb s)
    (self_Delta_tau s) (self_Delta_infty s) (self_G2_worm_components s)
    (self_GF_worm_components s) (self_G2_iw_ph s) (Some g) (self_hist s) (self_G_l s).

Definition set_self_hist (h : ndarray V) (s : state) : state :=
  mk_state (trace s) (cfg_General s) (cfg_QMC s) (solver s) (self_norb s)
    (self_Delta_tau s) (self_Delta_infty s) (self_G2_worm_components s)
    (self_GF_worm_components s) (self_G2_iw_ph s) (self_G_tau s) (Some h) (self_G_l s).

Definition set_self_G_l (g : ndarray V) (s : state) : state :=
  mk_state (trace s) (cfg_General s) (cfg_QMC s) (solver s) (self_norb s)
    (self_Delta_tau s) (self_Delta_infty s) (self_G2_worm_components s)
    (self_GF_worm_components s) (self_G2_iw_ph s) (self_G_tau s) (self_hist s) (Some g).

(** *** The monad of a call *)

Definition M (A : Type) : Type := state → state * outcome A.

#[export] Instance M_ret : MRet M := λ A a s, (s, Ok a).

#[export] Instance M_bind : MBind M := λ A B f m s,
  match m s with
  | (s', Ok a) => f a s'
  | (s', Raise e) => (s', Raise e)
  end.

Definition raise {A} (e : exn) : M A := λ s, (s, Raise e).

(** [exit()]: the builtin of the site module raises [SystemExit], which
    ends the interpreter unless a caller catches it. *)
Definition exit {A} : M A := raise SystemExit.
Definition gets {A} (f : state → A) : M A := λ s, (s, Ok (f s)).
Definition modify (f : state → state) : M unit := λ s, (f s, Ok tt).
Definition emit (e : event) : M unit := modify (set_trace (λ t, t ++ [e])).

Definition lift_opt {A} (e : exn) (o : option A) : M A :=
  match o with Some a => mret a | None => raise e end.

Definition lift_res {A} (r : exn + A) : M A :=
  match r with inr a => mret a | inl e => raise e end.

Definition assert_ (b : bool) (msg : string) : M unit :=
  if b then mret tt else raise (AssertionError msg).

Definition print (text : string) : M unit := emit (EvPrint text).

(** [if mpi.rank == 0: print(text)] *)
Definition print_rank0 (text : string) : M unit :=
  if decide (mpi_rank X = 0) then print text else mret tt.

(** [params_kw.pop(key)] without a default. *)
Definition pop_required {A} (key : string) (o : option A) : M A :=
  lift_opt (KeyError key) o.

(** [cfg["QMC"][key]] and [cfg["QMC"][key] = v]. *)
Definition qmc_get (key : string) : M cfgval :=
  q ← gets cfg_QMC; lift_opt (KeyError key) (q !! key).
Definition qmc_set (key : string) (v : cfgval) : M unit :=
  modify (set_cfg_QMC (<[key := v]>)).

Fixpoint for_each {A} (l : list A) (body : A → M unit) : M unit :=
  match l with
  | [] => mret tt
  | x :: l' => body x;; for_each l' body
  end.

(** *** Calls into the engine *)

Definition the_solver : M (engine X) :=
  o ← gets solver; lift_opt (NameError "solver") o.

(** [solver = impurity.CtHybSolver(cfg, Nseed, 0,0,0, False, mpi_comm)] *)
Definition call_CtHybSolver (seed : Z) : M unit :=
  g ← gets cfg_General; q ← gets cfg_QMC;
  emit (EvCtHybSolver q seed);;
  modify (set_solver (CtHybSolver X g q seed)).

(** [solver.set_problem(imp_problem)], with [cfg["QMC"]["FourPnt"]] as a
    second argument where [fourpnt] is given. *)
Definition call_set_problem (p : ImpurityProblem) (fourpnt : option cfgval) : M unit :=
  emit (EvSetProblem p fourpnt);;
  e ← the_solver; modify (set_solver (set_problem X e p fourpnt)).

(** [solver.umatrix = U_ijkl] *)
Definition call_set_umatrix (U : ndarray V) : M unit :=
  emit (EvSetUmatrix U);;
  e ← the_solver; modify (set_solver (set_umatrix X e U)).

Definition engine_return (r : engine X * option result) : M result :=
  modify (set_solver r.1);; lift_opt EngineError r.2.

(** [solver.solve(iter_no, mccfgcontainer)], or without [iter_no]. *)
Definition call_solve (iter_no : option Z) : M result :=
  q ← gets cfg_QMC; emit (EvSolve q iter_no);;
  e ← the_solver; engine_return (solver_solve X e q iter_no).

(** [solver.solve_component(iter_no, sector, comp, mccfgcontainer)];
    of the pair returned only the second part is used. *)
Definition call_solve_component (iter_no sector comp : Z) : M result :=
  q ← gets cfg_QMC; emit (EvSolveComponent q iter_no sector comp);;
  e ← the_solver; engine_return (solve_component X e q iter_no sector comp).

(** [solver.solve_comp_stats(iter_no, sector, comp, mccfgcontainer)] *)
Definition call_solve_comp_stats (iter_no sector comp : Z) : M result :=
  q ← gets cfg_QMC; emit (EvSolveCompStats q iter_no sector comp);;
  e ← the_solver; engine_return (solve_comp_stats X e q iter_no sector comp).

(** *** Lines 108-215: arguments, tensors and the configuration object *)

(** The local variables of [solve] that later phases read. *)
Record locals := {
  n_cycles : Z;
  n_warmup_cycles : Z;
  max_time : Z;
  worm : bool;
  percentageworminsert : float;
  percentagewormreplace : float;
  wormcomponents : option (list Z);
  length_cycle : Z;
  random_seed : Z;
  move_double : bool;
  measure_G_l : bool;
  measure_G_tau : bool;
  measure_pert_order : bool;
  statesampling : bool;
  flavourchange_moves : bool;
  move_global_prob : float;
  measure_g4iw_ph : bool;
  n4iwf : Z;
  n4iwb : Z;
  cfg_qmc : option (list (string * cfgval));
  norb : nat;
  U_ijkl : ndarray V;
  t_osos_tensor : ndarray V;
  ftau : ndarray V
}.

(** Lines 146-149: [norb] is half the flavour dimension; the tensor is
    viewed with axes (2, norb) four times over, each pair of axes is
    swapped, and the result is flattened to four flavour axes again. *)
Definition transform_U (norb : nat) (U : ndarray V) : option (ndarray V) :=
  U ← reshape U [2; norb; 2; norb; 2; norb; 2; norb];
  U ← transpose [1; 0; 3; 2; 5; 4; 7; 6] U;
  reshape U [norb * 2; norb * 2; norb * 2; norb * 2].

(** Line 167, on one block: [data[:] = -data[::-1, ...]].  The right-hand
    side is a new array, so the assignment reads no entry it has already
    written. *)
Definition flip_block (a : ndarray V) : option (ndarray V) :=
  NdArray.map np_neg <$> flip0 a.

(** Lines 166-167 over all blocks. *)
Definition flip_Delta (blocks : BlockGf) : option BlockGf :=
  mapM (λ b, pair b.1 <$> flip_block b.2) blocks.

(** Lines 175-176: the hopping matrix from (f, f) to (o, s, o, s). *)
Definition transform_t (norb : nat) (t : ndarray V) : option (ndarray V) :=
  t ← reshape t [2; norb; 2; norb];
  transpose [1; 0; 3; 2] t.

(** Lines 204-210: the largest last axis over the blocks. *)
Definition max_blocksize (blocks : BlockGf) : option nat :=
  foldl Nat.max 0 <$> mapM (λ b, last (shape b.2)) blocks.

Definition translate (self : Self) (kw : kwargs) : M locals :=
  (* 108-135 *)
  n_cycles ← pop_required "n_cycles" (kw_n_cycles kw);
  h_int ← pop_required "h_int" (kw_h_int kw);
  h_0 ← (if delta_interface self
         then h ← pop_required "h_0" (kw_h_0 kw); mret (Some h)
         else mret None);
  (* 143-149 *)
  d ← lift_opt IndexError (head (shape h_int));
  let norb := d / 2 in
  modify (set_self_norb norb);;
  U ← lift_opt ValueError (transform_U norb h_int);
  (* 151-163 *)
  t_ij_matrix ←
    match h_0 with
    | Some t => mret t
    | None =>
        modify (set_self_Delta_tau (G0_Delta_tau self));;
        modify (set_self_Delta_infty (G0_t_ij_lst self));;
        mret (block_diag X (G0_t_ij_lst self))
    end;
  (* 165-167; a block of rank 0, which TRIQS never builds, raises *)
  blocks ← gets self_Delta_tau;
  blocks ← lift_opt IndexError (flip_Delta blocks);
  modify (set_self_Delta_tau blocks);;
  (* 169: every entry times -1 *)
  let t_ij_matrix := NdArray.map np_neg t_ij_matrix in
  (* 173 *)
  r ← lift_opt IndexError (head (shape t_ij_matrix));
  assert_ (bool_decide (r / 2 = norb))
    "number of orbitals of U_ijkl and t_ij does not match";;
  (* 175-178 *)
  t_osos ← lift_opt ValueError (transform_t norb t_ij_matrix);
  let ftau := triqs_gf_to_w2dyn_ndarray_g_tosos_beta_ntau X blocks in
  (* 183-200 *)
  modify (set_cfg_General (λ _, (get_cfg X norb).1));;
  modify (set_cfg_QMC (λ _, (get_cfg X norb).2));;
  (* 204-215 *)
  m ← lift_opt IndexError (max_blocksize blocks);
  qmc_set "offdiag" (VInt (if decide (m = 1) then 0 else 1));;
  mret {|
    n_cycles := n_cycles;
    n_warmup_cycles := default 5000%Z (kw_n_warmup_cycles kw);
    max_time := default (-1)%Z (kw_max_time kw);
    worm := default false (kw_worm kw);
    percentageworminsert := default 0x1.999999999999ap-3%float (kw_PercentageWormInsert kw);
    percentagewormreplace := default 0x1.999999999999ap-3%float (kw_PercentageWormReplace kw);
    wormcomponents := kw_worm_components kw;
    length_cycle := default 50%Z (kw_length_cycle kw);
    random_seed := default 1%Z (kw_random_seed kw);
    move_double := default true (kw_move_double kw);
    measure_G_l := default false (kw_measure_G_l kw);
    measure_G_tau := default true (kw_measure_G_tau kw);
    measure_pert_order := default false (kw_measure_pert_order kw);
    statesampling := default false (kw_statesampling kw);
    flavourchange_moves := default false (kw_flavourchange_moves kw);
    move_global_prob := default 0x1.47ae147ae147bp-8%float (kw_flavomove_global_prob kw);
    measure_g4iw_ph := default false (kw_measure_G2_iw_ph kw);
    n4iwf := default 30%Z (kw_measure_G2_n_fermionic kw);
    n4iwb := (default 30%Z (kw_measure_G2_n_bosonic kw) - 1)%Z;
    cfg_qmc := kw_cfg_qmc kw;
    norb := norb;
    U_ijkl := U;
    t_osos_tensor := t_osos;
    ftau := ftau
  |}.

(** *** Lines 217-220 *)

Definition check_complex_worm (self : Self) (l : locals) : M unit :=
  if complex self && worm l
  then print "complex and worm together not yet implemented";; exit
  else mret tt.

(** *** Lines 222-307: the configuration *)

Definition flag (b : bool) : cfgval := VInt (if b then 1 else 0).

(** Lines 222-268: complex mode, moves, grids and sampling budget. *)
Definition configure_sampling (self : Self) (l : locals) : M unit :=
  (* 222-228 *)
  (if complex self then
     qmc_set "complex" (VInt 1);;
     qmc_set "use_phase" (VInt 1);;
     offdiag ← qmc_get "offdiag";
     assert_ (negb (py_eq_int offdiag 0))
       "Complex does not make sense for diagonal Delta_tau!"
   else mret tt);;
  (* 231-241 *)
  qmc_set "Percentage4OperatorMove"
    (if move_double l then VFloat 0x1.47ae147ae147bp-8 else VInt 0);;
  qmc_set "PercentageGlobalMove" (VFloat (move_global_prob l));;
  qmc_set "flavourchange_moves" (flag (flavourchange_moves l));;
  (* 249-268 *)
  modify (set_cfg_General (<["beta" := VFloat (beta self)]>));;
  qmc_set "Niw" (VInt (Z.of_nat (n_iw self)));;
  qmc_set "Ntau" (VInt (Z.of_nat (n_tau self * 2)));;
  qmc_set "NLegMax" (VInt (if measure_G_l l then Z.of_nat (n_l self) else 1));;
  qmc_set "NLegOrder" (VInt (if measure_G_l l then Z.of_nat (n_l self) else 1));;
  qmc_set "Nwarmups" (VInt (length_cycle l * n_warmup_cycles l));;
  qmc_set "Nmeas" (VInt (n_cycles l));;
  qmc_set "measurement_time" (VInt (max_time l));;
  qmc_set "Ncorr" (VInt (length_cycle l));;
  qmc_set "statesampling" (flag (statesampling l)).

(** Lines 279-286, for one of the two probabilities. *)
Definition worm_probability (p : float) : cfgval :=
  VFloat (if PrimFloat.eqb p 0 then 0x1.999999999999ap-3%float else p).

(** Lines 270-286: worm mode. *)
Definition configure_worm (l : locals) : M unit :=
  if worm l then
    (if cfg_qmc l is None then
       qmc_set "WormMeasGiw" (VInt 1);;
       qmc_set "WormMeasGtau" (VInt 1);;
       qmc_set "WormSearchEta" (VInt 1)
     else mret tt);;
    qmc_set "PercentageWormInsert" (worm_probability (percentageworminsert l));;
    qmc_set "PercentageWormReplace" (worm_probability (percentagewormreplace l))
  else mret tt.

(** Lines 288-292: the mapping [cfg_qmc], applied last. *)
Definition configure_manual (l : locals) : M unit :=
  for_each (default [] (cfg_qmc l))
    (λ kv, qmc_set kv.1 kv.2;; print_rank0 "cfg[QMC][{key}] = {value}").

(** Lines 294-307: the echo; the loop over every section and key is
    taken as one print. *)
Definition configure_echo : M unit :=
  print_rank0 " ";;
  print_rank0 "specifications for w2dyn:";;
  print_rank0 "cfg[QMC][offdiag] ";;
  print_rank0 "cfg[QMC][Percentage4OperatorMove] ";;
  print_rank0 "cfg[QMC][flavourchange_moves] ";;
  print_rank0 "cfg[QMC][statesampling] ";;
  print_rank0 "cfg[{header}][{key}] = {value}".

Definition configure (self : Self) (l : locals) : M unit :=
  configure_sampling self l;;
  configure_worm l;;
  configure_manual l;;
  configure_echo.

(** *** Lines 309-355: the solver object and the impurity problem *)

Definition build (self : Self) (l : locals) : M (ImpurityProblem * ndarray V) :=
  (* 310-314 *)
  call_CtHybSolver (random_seed l + Z.of_nat (mpi_rank X));;
  (* 317-335 *)
  let dummy n := zeros np_zero [n; norb l; 2; norb l; 2] in
  let cast a := if complex self then a else NdArray.map np_real a in
  let imp_problem :=
    mk_problem (beta self)
      (cast (dummy (2 * n_iw self))) (cast (dummy (2 * n_iw self))) (cast (dummy 2))
      (cast (ftau l)) (cast (t_osos_tensor l)) in
  (* 343 *)
  print "........................................";;
  (* 355 *)
  call_set_problem imp_problem None;;
  mret (imp_problem, cast (U_ijkl l)).

(** *** Lines 357-605: the dispatcher *)

(** Lines 362-373: one standard invocation. *)
Definition standard (imp_problem : ImpurityProblem) (U : ndarray V) (iter_no : option Z)
    : M (option result * option gtau_t) :=
  call_set_problem imp_problem None;;
  call_set_umatrix U;;
  result ← call_solve iter_no;
  gtau ← lift_opt (KeyError "gtau-full") (dict_get "gtau-full" (other result));
  mret (Some result, Some (GtauArray gtau)).

(** Lines 385-395 and 422-432: the flavour position (b1, s1, b2, s2) of
    a compound index. *)
Definition position (norb : nat) (comp_ind : Z) : option (list nat) :=
  let tmp := index2component_general X norb 2 comp_ind in
  let bands := tmp.1.2 in
  let spins := tmp.2 in
  b1 ← bands !! 0; b2 ← bands !! 1; s1 ← spins !! 0; s2 ← spins !! 1;
  Some [b1; s1; b2; s2].

(** [ftau[:, b1, s1, b2, s2]] for an array of five axes. *)
Definition column (ftau : ndarray V) (pos : list nat) : option (list V) :=
  _ ← ravel (tail (shape ftau)) pos;
  mapM (λ t, get ftau (t :: pos)) (seq 0 (default 0 (head (shape ftau)))).

(** The literal [1e-5]. *)
Definition threshold : float := 0x1.4f8b588e368f1p-17.

(** Line 397: [not np.any(np.abs(col) > 1e-5)]. *)
Definition all_zeros (col : list V) : bool :=
  negb (existsb (λ x, np_abs_gt x threshold) col).

(** Lines 381-400.  [np.append] keeps the indices as float64, which
    holds them exactly; they are kept as integers here. *)
Fixpoint enumerate (norb : nat) (ftau : ndarray V) (range : list Z) (components : list Z)
    : option (list Z) :=
  match range with
  | [] => Some components
  | comp_ind :: range' =>
      pos ← position norb comp_ind;
      col ← column ftau pos;
      enumerate norb ftau range'
        (if all_zeros col then components else components ++ [comp_ind])
  end.

(** Lines 405-409. *)
Definition apportion (max_time : Z) (ncomp : nat) : M unit :=
  if bool_decide (max_time ≤ 0)%Z then
    Nmeas ← qmc_get "Nmeas";
    n ← lift_res (py_int_div Nmeas ncomp);
    qmc_set "Nmeas" (VInt n)
  else
    n ← lift_res (py_int_div (VInt max_time) ncomp);
    qmc_set "measurement_time" (VInt n).

(** Lines 417-420: the last key of the dict that contains [pat]; without
    one the variable keeps what it held. *)
Definition last_key (pat : string) (d : list (string * ndarray V)) (old : option string)
    : option string :=
  foldl (λ acc kv, if contains pat kv.1 then Some kv.1 else acc) old d.

Fixpoint strip_ones (sh : list nat) : list nat :=
  match sh with
  | 1 :: sh' => strip_ones sh'
  | _ => sh
  end.

(** The value assigned to a slice of [L] entries, by numpy's
    broadcasting: leading axes of length one are dropped, then the
    source has [L] entries or a single one; [None] is a ValueError. *)
Definition broadcast_row (L : nat) (src : ndarray V) : option (list V) :=
  match strip_ones (shape src) with
  | [] => match data src with [x] => Some (replicate L x) | _ => None end
  | [d] => if decide (d = L) then Some (data src) else None
  | _ => None
  end.

(** Lines 411-437.  The accumulator holds the locals [result] and
    [gtau_name], unbound before the first pass, and the array [gtau]. *)
Fixpoint run_components (norb L : nat) (imp_problem : ImpurityProblem) (U : ndarray V)
    (components : list Z) (acc : option result * option string * ndarray V)
    : M (option result * option string * ndarray V) :=
  match components with
  | [] => mret acc
  | comp_ind :: rest =>
      call_set_problem imp_problem None;;
      call_set_umatrix U;;
      result ← call_solve_component 1 2 comp_ind;
      let gtau_name := last_key "gtau-worm" (other result) acc.1.2 in
      pos ← lift_opt IndexError (position norb comp_ind);
      name ← lift_opt (NameError "gtau_name") gtau_name;
      src ← lift_opt (KeyError name) (dict_get name (other result));
      row ← lift_opt ValueError (broadcast_row L src);
      gtau ← lift_opt IndexError (set_slab acc.2 (0 :: pos) row);
      run_components norb L imp_problem U rest (Some result, gtau_name, gtau)
  end.

(** Lines 375-439: the two-operator worm sector. *)
Definition worm_two_operator (self : Self) (l : locals)
    (imp_problem : ImpurityProblem) (U : ndarray V) : M (option result * option gtau_t) :=
  let gtau := zeros np_zero [1; norb l; 2; norb l; 2; 2 * n_tau self] in
  components ← lift_opt IndexError
    (enumerate (norb l) (ip_ftau imp_problem)
       (seqZ 1 (Z.of_nat ((2 * norb l) ^ 2))) []);
  print_rank0 "worm components to measure: ";;
  apportion (max_time l) (length components);;
  r ← run_components (norb l) (2 * n_tau self) imp_problem U components (None, None, gtau);
  mret (r.1.1, Some (GtauSample r.2 (mpi_size X))).

(** Lines 466-478 and 560-572: the compound indices of
    [cfg["QMC"]["WormComponents"]]. *)
Definition component_indices (norb : nat) (v : cfgval) : M (list Z) :=
  match v with
  | VList cs =>
      mret (cs ≫= λ c,
            match c with
            | CompInt c => if bool_decide (0 < c)%Z then [c] else []
            | CompBS bs => [componentBS2index_general X norb 4 bs]
            end)
  | _ => raise TypeError
  end.

Definition banner (text : string) : M unit :=
  print_rank0 "========================================================================";;
  print_rank0 "========================================================================";;
  print_rank0 text;;
  print_rank0 "========================================================================";;
  print_rank0 "========================================================================".

(** The only key of [result_comp.other] that contains [pat]
    ([assert(len(keys) == 1)]) and the mean of its local samples. *)
Definition single_entry (pat : string) (r : result) : M (ndarray V) :=
  match filter (λ kv, contains pat kv.1 = true) (other r) with
  | [kv] => mret (np_mean_axis0 X kv.2)
  | _ => raise (AssertionError "")
  end.

Definition worm_warning (l : locals) : M unit :=
  if wormcomponents l is Some _ then
    print "WARNING: worm_components parameter not used, set cfg_qmc[WormComponents] instead."
  else mret tt.

(** Lines 441-510: the four-operator worm sector.  Of the TRIQS meshes
    only the look-ups of the configuration they need are kept; the
    sample of a component is stored without its leading axis of length
    one. *)
Definition worm_four_operator (self : Self) (l : locals)
    (imp_problem : ImpurityProblem) (U : ndarray V) : M (option result * option gtau_t) :=
  worm_warning l;;
  _ ← qmc_get "N4iwf";
  _ ← qmc_get "N4iwb";
  modify (set_self_G2_worm_components (λ _, []));;
  let gtau := GtauSample (zeros np_zero [1; norb l; 2; norb l; 2; 2 * n_tau self]) (mpi_size X) in
  q ← gets cfg_QMC;
  let worm_sector := worm_get_sector_index X q in
  wc ← qmc_get "WormComponents";
  components ← component_indices (norb l) wc;
  print_rank0 "WormComponents = ";;
  print_rank0 "WormComponentIndices = ";;
  for_each components (λ component,
    banner "worm sampling four point component: ";;
    FourPnt ← qmc_get "FourPnt";
    call_set_problem imp_problem (Some FourPnt);;
    call_set_umatrix U;;
    result_comp ← call_solve_comp_stats 0 worm_sector component;
    g4iw ← single_entry "g4iw-worm" result_comp;
    modify (set_self_G2_worm_components
              (λ acc, acc ++ [(component, ds_mean X g4iw (mpi_size X),
                               ds_stderr X g4iw (mpi_size X))])));;
  mret (None, Some gtau).

(** [a == 1 or b == 1 or c == 1] over three keys of [cfg["QMC"]], read
    left to right until one holds. *)
Definition any_reduced_flag : M bool :=
  P3 ← qmc_get "WormMeasP3iwPH";
  if py_eq_int P3 1 then mret true else
  P2iw ← qmc_get "WormMeasP2iwPH";
  if py_eq_int P2iw 1 then mret true else
  P2tau ← qmc_get "WormMeasP2tauPH";
  mret (py_eq_int P2tau 1).

(** Lines 529-546: the key of the result, after the look-ups of the mesh
    sizes. *)
Definition reduced_result_key : M string :=
  P3 ← qmc_get "WormMeasP3iwPH";
  if py_eq_int P3 1 then
    _ ← qmc_get "N3iwf"; _ ← qmc_get "N3iwb"; mret "p3iw-worm"
  else
  P2iw ← qmc_get "WormMeasP2iwPH";
  if py_eq_int P2iw 1 then
    _ ← qmc_get "N2iwb"; mret "p2iw-worm"
  else
  P2tau ← qmc_get "WormMeasP2tauPH";
  if py_eq_int P2tau 1 then mret "p2tau-worm"
  else raise NotImplementedError.

(** Lines 514-605: the reduced two-particle worm sectors. *)
Definition worm_reduced (self : Self) (l : locals)
    (imp_problem : ImpurityProblem) (U : ndarray V) : M (option result * option gtau_t) :=
  worm_warning l;;
  print_rank0 "worm sector index = ";;
  print_rank0 "--> WormMeasP3iwPH / WormMeasP2iwPH";;
  result_key ← reduced_result_key;
  modify (set_self_GF_worm_components (λ _, []));;
  let gtau := GtauSample (zeros np_zero [1; norb l; 2; norb l; 2; 2 * n_tau self]) (mpi_size X) in
  q ← gets cfg_QMC;
  let worm_sector := worm_get_sector_index X q in
  wc ← qmc_get "WormComponents";
  components ← component_indices (norb l) wc;
  print_rank0 "WormComponents = ";;
  print_rank0 "WormComponentIndices = ";;
  for_each components (λ component,
    banner "worm sampling four point component: ";;
    call_set_problem imp_problem None;;
    call_set_umatrix U;;
    result_comp ← call_solve_comp_stats 0 worm_sector component;
    gf ← single_entry result_key result_comp;
    modify (set_self_GF_worm_components
              (λ acc, acc ++ [(component, ds_mean X gf (mpi_size X),
                               ds_stderr X gf (mpi_size X))])));;
  mret (None, Some gtau).

(** Lines 357-605.  The result holds the locals [result] and [gtau],
    [None] while unbound. *)
Definition dispatch (self : Self) (l : locals)
    (imp_problem : ImpurityProblem) (U : ndarray V) : M (option result * option gtau_t) :=
  if measure_G_tau l || measure_G_l l || measure_pert_order l then
    if complex self then standard imp_problem U None
    else if negb (worm l) then standard imp_problem U (Some 1%Z)
    else
      q ← gets cfg_QMC;
      if bool_decide (worm_get_sector_index X q = 2%Z) then
        worm_two_operator self l imp_problem U
      else
        FourPnt ← qmc_get "FourPnt";
        if py_eq_int FourPnt 8 then worm_four_operator self l imp_problem U
        else
          b ← any_reduced_flag;
          if (b : bool) then worm_reduced self l imp_problem U
          else mret (None, None)
  else mret (None, None).

(** *** Lines 608-663: the automatic two-particle sampling *)

Inductive retval :=
  | RetNone
  | RetResult (r : result)
  | RetG4iw (g4iw : list (string * ndarray V)).

Fixpoint sample_g4iw (imp_problem : ImpurityProblem) (U : ndarray V)
    (components : list Z) (g4iw : list (string * ndarray V))
    : M (list (string * ndarray V)) :=
  match components with
  | [] => mret g4iw
  | icomponent :: rest =>
      print_rank0 "Sampling worm component {}";;
      FourPnt ← qmc_get "FourPnt";
      call_set_problem imp_problem (Some FourPnt);;
      call_set_umatrix U;;
      res_g4comp ← call_solve_comp_stats 1 4 icomponent;
      sample_g4iw imp_problem U rest
        (foldl (λ g kv, if contains "g4iw-worm" kv.1 then dict_set kv.1 kv.2 g else g)
               g4iw (other res_g4comp))
  end.

(** Lines 611-663; [Some] is the value returned at line 663.  The two
    converted containers are represented by the mapping they are made
    from. *)
Definition two_particle (l : locals)
    (imp_problem : ImpurityProblem) (U : ndarray V) : M (option retval) :=
  if measure_g4iw_ph l && bool_decide (length (default [] (cfg_qmc l)) = 0) then
    qmc_set "FourPnt" (VInt 8);;
    qmc_set "N4iwf" (VInt (n4iwf l));;
    qmc_set "N4iwb" (VInt (n4iwb l));;
    qmc_set "PercentageWormInsert" (VFloat (percentageworminsert l));;
    qmc_set "PercentageWormReplace" (VFloat (percentagewormreplace l));;
    qmc_set "WormMeasG4iw" (VInt 1);;
    qmc_set "WormSearchEta" (VInt 1);;
    call_CtHybSolver (random_seed l + Z.of_nat (mpi_rank X));;
    g4iw ← sample_g4iw imp_problem U
      (default (seqZ 1 (Z.of_nat ((2 * norb l) ^ 4))) (wormcomponents l)) [];
    modify (set_self_G2_iw_ph g4iw);;
    mret (Some (RetG4iw g4iw))
  else mret None.

(** *** Lines 666-726: conversion of the results *)

(** Lines 675-677 for one [b]: the inner loop. *)
Definition diagflat_row (bs_array : ndarray V) (ns b : nat) (bsbs_array : ndarray V)
    : option (ndarray V) :=
  foldl (λ acc s, a ← acc; slab ← get_slab bs_array [b; s]; set_slab a [b; s; b; s] slab)
        (Some bsbs_array) (seq 0 ns).

(** Lines 666-678. *)
Definition bs_diagflat (bs_array : ndarray V) : exn + ndarray V :=
  match shape bs_array with
  | [] => inl IndexError
  | [nb] => if decide (nb = 0) then inr (zeros np_zero [0; 0]) else inl IndexError
  | nb :: ns :: rest =>
      let bsbs_array := zeros np_zero (nb :: ns :: nb :: ns :: rest) in
      match foldl (λ acc b, a ← acc; diagflat_row bs_array ns b a)
                  (Some bsbs_array) (seq 0 nb) with
      | Some a => inr a
      | None => inl IndexError
      end
  end.

Definition the_result (r : option result) : M result :=
  lift_opt (NameError "result") r.

(** [FourPnt == 8 or P3 == 1 or P2iw == 1 or P2tau == 1], lines 712-715. *)
Definition any_worm_flag : M bool :=
  FourPnt ← qmc_get "FourPnt";
  if py_eq_int FourPnt 8 then mret true else any_reduced_flag.

(** Lines 682-726.  The containers built from [gtau] by the converters
    and the Fourier transform are represented by [gtau] itself.
    [result_gen] and [result_aux] are never attributes of [self], so
    both [hasattr] tests fail. *)
Definition convert (l : locals) (res : option result) (gtau : option gtau_t) : M retval :=
  (if measure_G_tau l then
     offdiag ← qmc_get "offdiag";
     gtau ← (if py_eq_int offdiag 0 && negb (worm l) then
               r ← the_result res;
               g ← lift_opt (KeyError "gtau") (dict_get "gtau" (other r));
               g ← lift_res (bs_diagflat g);
               mret (Some (GtauArray g))
             else mret gtau);
     g ← lift_opt (NameError "gtau") gtau;
     modify (set_self_G_tau g)
   else mret tt);;
  (if measure_pert_order l then
     r ← the_result res;
     h ← lift_opt (KeyError "hist") (dict_get "hist" (other r));
     modify (set_self_hist h)
   else mret tt);;
  (if measure_G_l l then
     r ← the_result res;
     g ← lift_opt (KeyError "gleg-full") (dict_get "gleg-full" (other r));
     modify (set_self_G_l g)
   else mret tt);;
  b ← any_worm_flag;
  if (b : bool) then mret RetNone
  else if measure_G_tau l then r ← the_result res; mret (RetResult r)
  else mret RetNone.

(** *** [Solver.solve] *)

Definition solve (self : Self) (kw : kwargs) : M retval :=
  l ← translate self kw;
  check_complex_worm self l;;
  configure self l;;
  pu ← build self l;
  rg ← dispatch self l pu.1 pu.2;
  ret ← two_particle l pu.1 pu.2;
  match ret with
  | Some v => mret v
  | None => convert l rg.1 rg.2
  end.

(** A call on a solver object as [__init__] leaves it. *)
Definition run_solve (self : Self) (kw : kwargs) : state * outcome retval :=
  solve self kw (init_state self).

End Model.

Arguments BlockGf : clear implicits.
Arguments result : clear implicits.
Arguments ImpurityProblem : clear implicits.
Arguments gtau_t : clear implicits.
Arguments externals : clear implicits.
Arguments event : clear implicits.
Arguments kwargs : clear implicits.
Arguments Self : clear implicits.
Arguments retval : clear implicits.
Arguments locals : clear implicits.

End Solver.

(** ** A concrete environment

    An instance of the externals on float64 arrays, small enough to run
    [solve] inside Rocq: the compound-index arithmetic of W2Dynamics, a
    converter for spin-diagonal blocks, and an engine that counts its
    calls and answers with arrays that name the component sampled. *)

Module Example.
Import NdArray Py Solver.

(** The [n] digits of [x] in base [base], most significant first. *)
Fixpoint digits (base n x : nat) : list nat :=
  match n with
  | 0 => []
  | S n' => x / base ^ n' :: digits base n' (x mod base ^ n')
  end.

(** W2Dynamics' [index2component_general]: the flavours [bs] of the
    index, each split into band [bs // 2] and spin [bs % 2]. *)
Definition index2component (norb noper : nat) (ind : Z) : list nat * list nat * list nat :=
  let bs := digits (2 * norb) noper (Z.to_nat (ind - 1)) in
  (bs, (λ x, x / 2) <$> bs, (λ x, x mod 2) <$> bs).

(** W2Dynamics' [componentBS2index_general] on (b1, s1, ..., bN, sN). *)
Fixpoint componentBS2index_from (norb : nat) (bs : list Z) (acc : Z) : Z :=
  match bs with
  | b :: s :: rest => componentBS2index_from norb rest (acc * Z.of_nat (2 * norb) + 2 * b + s)
  | _ => acc + 1
  end.

Definition componentBS2index (norb noper : nat) (bs : list Z) : Z :=
  componentBS2index_from norb bs 0.

(** The sector of the worm estimators switched on. *)
Definition sector_index (qmc : gmap string cfgval) : Z :=
  let on key := match qmc !! key with Some v => negb (py_eq_int v 0) | None => false end in
  if on "WormMeasGiw" || on "WormMeasGtau" then 2
  else if on "WormMeasG4iw" then 4
  else if on "WormMeasP2iwPH" || on "WormMeasP2tauPH" then 6
  else if on "WormMeasP3iwPH" then 8
  else 1.

(** The defaults of the keys [solve] reads without writing them. *)
Definition default_cfg (norb : nat) : gmap string cfgval * gmap string cfgval :=
  ({[ "beta" := VFloat 1 ]},
   list_to_map
     [ ("FourPnt", VInt 0); ("WormMeasGiw", VInt 0); ("WormMeasGtau", VInt 0);
       ("WormMeasG4iw", VInt 0); ("WormMeasP2iwPH", VInt 0); ("WormMeasP2tauPH", VInt 0);
       ("WormMeasP3iwPH", VInt 0); ("WormComponents", VList []);
       ("N4iwf", VInt 1); ("N4iwb", VInt 0) ]).

(** Spin blocks of [norb] by [norb] matrices laid out as
    (time, band, spin, band, spin); entries between different spins are
    zero. *)
Definition blocks_to_tosos (blocks : BlockGf float) : ndarray float :=
  let ntau := default 0 (b ← head blocks; head (shape b.2)) in
  let norb := default 0 (b ← head blocks; last (shape b.2)) in
  let sh := [ntau; norb; 2; norb; 2] in
  mk_ndarray sh
    ((λ p, match unravel sh p with
           | [t; b1; s1; b2; s2] =>
               if decide (s1 = s2)
               then default 0%float (b ← blocks !! s1; get b.2 [t; b1; b2])
               else 0%float
           | _ => 0%float
           end) <$> seq 0 (size sh)).

(** [block_diag] on square blocks. *)
Definition block_diag_square (ms : list (ndarray float)) : ndarray float :=
  let dims := (λ m, default 0 (head (shape m))) <$> ms in
  let n := foldr Nat.add 0 dims in
  mk_ndarray [n; n]
    ((λ p, let i := p / n in let j := p mod n in
           (fix find (ms : list (ndarray float)) (off : nat) : float :=
              match ms with
              | [] => 0%float
              | m :: ms' =>
                  let d := default 0 (head (shape m)) in
                  if decide (i < off + d) then
                    (if decide (off ≤ j ∧ j < off + d)
                     then default 0%float (get m [i - off; j - off]) else 0%float)
                  else find ms' (off + d)
              end) ms 0) <$> seq 0 (n * n)).

(** The engine: it remembers how many sampling calls it has served. *)
Definition row_length (qmc : gmap string cfgval) : nat :=
  match qmc !! "Ntau" with Some (VInt n) => Z.to_nat n | _ => 0 end.

Definition answer (qmc : gmap string cfgval) (comp : Z) : result float :=
  let x := float_of_Z comp in
  mk_result
    [ ("gtau-worm/" , mk_ndarray [row_length qmc] (replicate (row_length qmc) x));
      ("g4iw-worm/" , mk_ndarray [1; 1] [x]);
      ("gtau-full", mk_ndarray [1] [x]);
      ("gtau", mk_ndarray [1; 2; 1] [x; x]);
      ("hist", mk_ndarray [1] [x]);
      ("gleg-full", mk_ndarray [1] [x]) ].

Definition ext : externals float := {|
  mpi_rank := 0;
  mpi_size := 1;
  get_cfg := default_cfg;
  worm_get_sector_index := sector_index;
  index2component_general := index2component;
  componentBS2index_general := componentBS2index;
  engine := nat;
  CtHybSolver := λ _ _ _, 0;
  set_problem := λ e _ _, e;
  set_umatrix := λ e _, e;
  solver_solve := λ e qmc _, (S e, Some (answer qmc 0));
  solve_component := λ e qmc _ _ comp, (S e, Some (answer qmc comp));
  solve_comp_stats := λ e qmc _ _ comp, (S e, Some (answer qmc comp));
  block_diag := block_diag_square;
  np_mean_axis0 := id;
  ds_mean := λ a _, a;
  ds_stderr := λ a _, NdArray.map (λ _, 0%float) a;
  triqs_gf_to_w2dyn_ndarray_g_tosos_beta_ntau := blocks_to_tosos
|}.

(** No keyword argument given. *)
Definition no_kwargs : kwargs float := {|
  kw_n_cycles := None; kw_n_warmup_cycles := None; kw_max_time := None;
  kw_worm := None; kw_PercentageWormInsert := None; kw_PercentageWormReplace := None;
  kw_worm_components := None; kw_length_cycle := None; kw_h_int := None; kw_h_0 := None;
  kw_random_seed := None; kw_move_double := None; kw_measure_G_l := None;
  kw_measure_G_tau := None; kw_measure_pert_order := None; kw_statesampling := None;
  kw_flavourchange_moves := None; kw_flavomove_global_prob := None;
  kw_measure_G2_iw_ph := None; kw_measure_G2_n_fermionic := None;
  kw_measure_G2_n_bosonic := None; kw_cfg_qmc := None
|}.

(** One orbital: an interaction tensor over two flavours, here with
    entries 0 to 15 in row-major order, and a 2 by 2 hopping matrix. *)
Definition U1 : ndarray float :=
  mk_ndarray [2; 2; 2; 2] (float_of_Z <$> seqZ 0 16).

Definition t1 : ndarray float := mk_ndarray [2; 2] [1; 0; 0; 1]%float.

(** A hybridization on two time points, one 1 by 1 block per spin. *)
Definition Delta1 (up0 up1 dn0 dn1 : float) : BlockGf float :=
  [ ("up", mk_ndarray [2; 1; 1] [up0; up1]); ("dn", mk_ndarray [2; 1; 1] [dn0; dn1]) ].

Definition solver1 (cplx : bool) (Delta : BlockGf float) : Self float := {|
  beta := 10; n_iw := 1; n_tau := 1; n_l := 1;
  delta_interface := true; complex := cplx;
  Delta_tau := Delta; G0_Delta_tau := []; G0_t_ij_lst := []
|}.

(** [n_cycles], [h_int], [h_0] and the worm switch. *)
Definition kwargs1 (ncyc : Z) (U t : ndarray float) (w : bool) : kwargs float := {|
  kw_n_cycles := Some ncyc; kw_n_warmup_cycles := None; kw_max_time := None;
  kw_worm := Some w; kw_PercentageWormInsert := None; kw_PercentageWormReplace := None;
  kw_worm_components := None; kw_length_cycle := None; kw_h_int := Some U; kw_h_0 := Some t;
  kw_random_seed := None; kw_move_double := None; kw_measure_G_l := None;
  kw_measure_G_tau := None; kw_measure_pert_order := None; kw_statesampling := None;
  kw_flavourchange_moves := None; kw_flavomove_global_prob := None;
  kw_measure_G2_iw_ph := None; kw_measure_G2_n_fermionic := None;
  kw_measure_G2_n_bosonic := None; kw_cfg_qmc := None
|}.

End Example.

(** * Part II: facts *)

(** ** Indexing *)

Module NdArrayFacts.
Import NdArray.

Section Facts.
Context {V : Type}.
Implicit Types (a : ndarray V) (sh idx pre suf : list nat).

Lemma ravel_lt sh : ∀ idx p, ravel sh idx = Some p → p < size sh.
Proof.
  induction sh as [|d sh IH]; intros [|i idx] p H; simplify_eq/=; [lia|].
  case_decide; [|done].
  destruct (ravel sh idx) as [q|] eqn:E; simplify_eq/=.
  specialize (IH _ _ E). nia.
Qed.

Lemma ravel_length sh : ∀ idx p, ravel sh idx = Some p → length idx = length sh.
Proof.
  induction sh as [|d sh IH]; intros [|i idx] p H; simplify_eq/=; [done|].
  case_decide; [|done].
  destruct (ravel sh idx) as [q|] eqn:E; simplify_eq/=. f_equal. eauto.
Qed.

Lemma unravel_ravel sh : ∀ idx p, ravel sh idx = Some p → unravel sh p = idx.
Proof.
  induction sh as [|d sh IH]; intros [|i idx] p H; simplify_eq/=; [done|].
  case_decide; [|done].
  destruct (ravel sh idx) as [q|] eqn:E; simplify_eq/=.
  pose proof (ravel_lt _ _ _ E) as Hq.
  rewrite Nat.div_add_l by lia. rewrite (Nat.div_small q) by done.
  rewrite Nat.add_0_r. f_equal.
  rewrite Nat.add_comm, Nat.Div0.mod_add, Nat.mod_small by done. eauto.
Qed.

Lemma ravel_unravel sh : ∀ p, p < size sh → ravel sh (unravel sh p) = Some p.
Proof.
  induction sh as [|d sh IH]; intros p Hp; simpl in *.
  - f_equal. lia.
  - assert (0 < size sh) by (destruct (size sh); lia).
    assert (p / size sh < d) by (apply Nat.Div0.div_lt_upper_bound; lia).
    rewrite decide_True by done.
    rewrite IH by (apply Nat.mod_upper_bound; lia). simpl. f_equal.
    pose proof (Nat.div_mod_eq p (size sh)). lia.
Qed.

Lemma ravel_inj sh idx idx' p :
  ravel sh idx = Some p → ravel sh idx' = Some p → idx = idx'.
Proof. intros H H'. by rewrite <-(unravel_ravel _ _ _ H), <-(unravel_ravel _ _ _ H'). Qed.

Lemma size_app sh1 sh2 : size (sh1 ++ sh2) = size sh1 * size sh2.
Proof. induction sh1 as [|d sh1 IH]; simpl; [lia|]. rewrite IH. lia. Qed.

Lemma ravel_app sh1 sh2 : ∀ i1 i2 p1 p2,
  ravel sh1 i1 = Some p1 → ravel sh2 i2 = Some p2 →
  ravel (sh1 ++ sh2) (i1 ++ i2) = Some (p1 * size sh2 + p2).
Proof.
  induction sh1 as [|d sh1 IH]; intros [|i i1] i2 p1 p2 H1 H2; simplify_eq/=; [done|].
  case_decide; [|done].
  destruct (ravel sh1 i1) as [q|] eqn:E; simplify_eq/=.
  rewrite (IH _ _ _ _ E H2). simpl. f_equal. rewrite size_app. lia.
Qed.

Lemma zeros_wf (z : V) sh : wf (zeros z sh).
Proof. unfold wf; simpl. by rewrite length_replicate. Qed.

Lemma get_zeros (z : V) sh idx p : ravel sh idx = Some p → get (zeros z sh) idx = Some z.
Proof.
  intros H. unfold get; simpl. rewrite H; simpl.
  apply lookup_replicate_2. eauto using ravel_lt.
Qed.

Lemma reshape_wf a sh a' : reshape a sh = Some a' → wf a'.
Proof. unfold reshape. case_decide; intros; simplify_eq. by unfold wf. Qed.

Lemma remap_shape sh f a a' : remap sh f a = Some a' → shape a' = sh.
Proof. unfold remap. destruct (mapM _ _); intros; by simplify_eq/=. Qed.

Lemma remap_wf sh f a a' : remap sh f a = Some a' → wf a'.
Proof.
  unfold remap. destruct (mapM _ _) as [l|] eqn:E; intros; simplify_eq/=.
  apply mapM_Some_1, Forall2_length in E. unfold wf; simpl.
  by rewrite <-E, length_seq.
Qed.

Lemma get_remap sh f a a' idx p :
  remap sh f a = Some a' → ravel sh idx = Some p → get a' idx = get a (f idx).
Proof.
  unfold remap. destruct (mapM _ _) as [l|] eqn:E; intros ? Hp; simplify_eq/=.
  apply mapM_Some_1 in E. unfold get at 1; simpl. rewrite Hp; simpl.
  pose proof (ravel_lt _ _ _ Hp) as Hlt.
  assert (seq 0 (size sh) !! p = Some p) as Hs by (by apply lookup_seq).
  destruct (Forall2_lookup_l _ _ _ _ _ E Hs) as (y & -> & Hy).
  by rewrite <-Hy, (unravel_ravel _ _ _ Hp).
Qed.

Lemma remap_is_Some sh f a :
  (∀ p, p < size sh → is_Some (get a (f (unravel sh p)))) → is_Some (remap sh f a).
Proof.
  intros H. unfold remap. apply fmap_is_Some, mapM_is_Some_2, Forall_forall.
  intros p [_ Hp]%elem_of_seq. apply H. simpl in Hp. lia.
Qed.

(** An array is determined by its shape and its entries. *)
Lemma ndarray_eq a b :
  wf a → wf b → shape a = shape b →
  (∀ idx p, ravel (shape a) idx = Some p → get a idx = get b idx) → a = b.
Proof.
  destruct a as [sh da], b as [sh' db]; unfold wf, get; simpl.
  intros Ha Hb <- H. f_equal. apply list_eq; intros p.
  destruct (decide (p < size sh)) as [Hp|Hp].
  - specialize (H _ _ (ravel_unravel _ _ Hp)).
    by rewrite (ravel_unravel _ _ Hp) in H.
  - by rewrite !(proj2 (lookup_ge_None _ _)) by lia.
Qed.

Lemma get_is_Some a idx p : wf a → ravel (shape a) idx = Some p → is_Some (get a idx).
Proof.
  intros Hwf Hp. unfold get. rewrite Hp; simpl.
  apply lookup_lt_is_Some. rewrite Hwf. eauto using ravel_lt.
Qed.

Lemma get_app_slab a pre suf p q :
  ravel (take (length pre) (shape a)) pre = Some p →
  ravel (drop (length pre) (shape a)) suf = Some q →
  get a (pre ++ suf) = data a !! (p * size (drop (length pre) (shape a)) + q).
Proof.
  intros Hp Hq. unfold get.
  rewrite <-(take_drop (length pre) (shape a)) at 1.
  by rewrite (ravel_app _ _ _ _ _ _ Hp Hq).
Qed.

Lemma get_slab_lookup a pre suf slab q :
  get_slab a pre = Some slab →
  ravel (drop (length pre) (shape a)) suf = Some q →
  get a (pre ++ suf) = slab !! q.
Proof.
  unfold get_slab. intros H Hq.
  destruct (ravel (take _ _) pre) as [p|] eqn:Hp; simplify_eq/=.
  rewrite (get_app_slab _ _ _ _ _ Hp Hq).
  rewrite lookup_take_lt by eauto using ravel_lt. by rewrite lookup_drop.
Qed.

Lemma set_slab_shape a pre slab a' : set_slab a pre slab = Some a' → shape a' = shape a.
Proof.
  unfold set_slab. destruct (ravel _ pre); simpl; [|done].
  case_decide; intros; by simplify_eq/=.
Qed.

Lemma prefix_bound a pre p :
  wf a → ravel (take (length pre) (shape a)) pre = Some p →
  p * size (drop (length pre) (shape a)) + size (drop (length pre) (shape a))
    ≤ length (data a).
Proof.
  intros Hwf Hp. apply ravel_lt in Hp. rewrite Hwf.
  rewrite <-(take_drop (length pre) (shape a)) at 3. rewrite size_app. nia.
Qed.

Lemma get_slab_length a pre slab :
  wf a → get_slab a pre = Some slab →
  length slab = size (drop (length pre) (shape a)).
Proof.
  unfold get_slab. intros Hwf H.
  destruct (ravel (take _ _) pre) as [p|] eqn:Hp; simplify_eq/=.
  pose proof (prefix_bound _ _ _ Hwf Hp).
  rewrite length_take, length_drop. lia.
Qed.

Lemma set_slab_wf a pre slab a' : wf a → set_slab a pre slab = Some a' → wf a'.
Proof.
  unfold set_slab. intros Hwf.
  destruct (ravel _ pre) as [p|] eqn:Hp; simpl; [|done].
  case_decide as Hl; intros; simplify_eq/=.
  pose proof (prefix_bound _ _ _ Hwf Hp).
  unfold wf in *; simpl. rewrite !length_app, length_take, length_drop. lia.
Qed.

Lemma set_slab_is_Some a pre slab p :
  ravel (take (length pre) (shape a)) pre = Some p →
  length slab = size (drop (length pre) (shape a)) →
  is_Some (set_slab a pre slab).
Proof. intros Hp Hl. unfold set_slab. rewrite Hp; simpl. by rewrite decide_True. Qed.

Lemma get_slab_set_slab a pre slab a' :
  wf a → set_slab a pre slab = Some a' → get_slab a' pre = Some slab.
Proof.
  unfold set_slab, get_slab. intros Hwf.
  destruct (ravel _ pre) as [p|] eqn:Hp; simpl; [|done].
  case_decide as Hl; intros; simplify_eq/=. rewrite Hp; simpl. f_equal.
  pose proof (prefix_bound _ _ _ Hwf Hp).
  rewrite drop_app_length' by (rewrite length_take; lia).
  by rewrite take_app_length' by done.
Qed.

Lemma get_slab_set_slab_ne a pre slab a' pre' :
  wf a → set_slab a pre slab = Some a' →
  length pre' = length pre → pre' ≠ pre →
  get_slab a' pre' = get_slab a pre'.
Proof.
  unfold set_slab, get_slab. intros Hwf H Hlen Hne.
  destruct (ravel _ pre) as [p|] eqn:Hp; simpl in *; [|done].
  case_decide as Hl; simplify_eq/=. rewrite Hlen.
  destruct (ravel _ pre') as [p'|] eqn:Hp'; simpl; [|done]. f_equal.
  assert (p' ≠ p) by (intros ->; eauto using ravel_inj).
  pose proof (prefix_bound _ _ _ Hwf Hp).
  set (R := size (drop (length pre) (shape a))) in *.
  apply list_eq; intros i.
  destruct (decide (i < R)) as [Hi|Hi];
    [|by rewrite !lookup_take_ge by lia].
  rewrite !lookup_take_lt, !lookup_drop by done.
  destruct (decide (p' < p)).
  - rewrite lookup_app_l by (rewrite length_take; nia).
    rewrite lookup_take_lt by nia. done.
  - rewrite lookup_app_r by (rewrite length_take; nia).
    rewrite lookup_app_r by (rewrite length_take; nia).
    rewrite lookup_drop, length_take. f_equal. nia.
Qed.

Lemma get_slab_zeros (z : V) sh pre p :
  ravel (take (length pre) sh) pre = Some p →
  get_slab (zeros z sh) pre = Some (replicate (size (drop (length pre) sh)) z).
Proof.
  intros Hp. unfold get_slab; simpl. rewrite Hp; simpl. f_equal.
  pose proof (prefix_bound (zeros z sh) pre p (zeros_wf z sh) Hp) as Hb; simpl in Hb.
  rewrite length_replicate in Hb.
  rewrite drop_replicate, take_replicate. f_equal. lia.
Qed.

End Facts.

Lemma get_map {A B} (f : A → B) (a : ndarray A) idx :
  get (NdArray.map f a) idx = f <$> get a idx.
Proof.
  unfold get; simpl. destruct (ravel _ _); simpl; [|done]. apply list_lookup_fmap.
Qed.

Lemma map_wf {A B} (f : A → B) (a : ndarray A) : wf a → wf (NdArray.map f a).
Proof. unfold wf; simpl. by rewrite length_fmap. Qed.

End NdArrayFacts.

(** ** The tensor conventions: lines 146-149, 166-167 and 666-678 *)

Module TensorFacts.
Import NdArray Py Solver NdArrayFacts.

Section Facts.
Context {V : Type} `{!NumpyScalar V}.
Implicit Types (a U : ndarray V).

(** The position of an index that is known to be in range. *)
Fixpoint offset (sh idx : list nat) : nat :=
  match sh, idx with
  | _ :: sh', i :: idx' => i * size sh' + offset sh' idx'
  | _, _ => 0
  end.

Lemma ravel_in_range sh : ∀ idx,
  Forall2 (λ i d, i < d) idx sh → ravel sh idx = Some (offset sh idx).
Proof.
  induction sh as [|d sh IH]; intros idx Hr; inversion Hr; simplify_eq/=; [done|].
  rewrite decide_True by done. by rewrite IH.
Qed.

Lemma ravel_Some_range sh : ∀ idx p,
  ravel sh idx = Some p → Forall2 (λ i d, i < d) idx sh.
Proof.
  induction sh as [|d sh IH]; intros [|i idx] p H; simplify_eq/=; [constructor|].
  case_decide; [|done].
  destruct (ravel sh idx) as [q|] eqn:E; simplify_eq/=. constructor; eauto.
Qed.

Ltac in_range :=
  repeat match goal with |- Forall2 _ _ _ => constructor end; simpl; (done || nia).

Lemma unravel_range sh p : p < size sh → Forall2 (λ i d, i < d) (unravel sh p) sh.
Proof. intros Hp. eapply ravel_Some_range, ravel_unravel, Hp. Qed.

Lemma remap_eq_Some sh f a b :
  wf b → shape b = sh →
  (∀ idx p, ravel sh idx = Some p → get a (f idx) = get b idx) →
  remap sh f a = Some b.
Proof.
  intros Hwf Hsh H. unfold remap.
  assert (mapM (λ p, get a (f (unravel sh p))) (seq 0 (size sh)) = Some (data b)) as ->.
  { apply mapM_Some_2, Forall2_same_length_lookup_2.
    - by rewrite length_seq, Hwf, Hsh.
    - intros i p y [-> Hp]%lookup_seq Hy; simpl.
      rewrite (H _ _ (ravel_unravel _ _ Hp)). unfold get.
      by rewrite Hsh, (ravel_unravel _ _ Hp). }
  simpl. destruct b; simpl in *. by subst.
Qed.

(** *** [transform_U] *)

Lemma transform_U_entries norb U :
  wf U → shape U = [2 * norb; 2 * norb; 2 * norb; 2 * norb] →
  ∃ U', transform_U norb U = Some U' ∧
    wf U' ∧
    shape U' = [norb * 2; norb * 2; norb * 2; norb * 2] ∧
    ∀ o1 s1 o2 s2 o3 s3 o4 s4,
      o1 < norb → s1 < 2 → o2 < norb → s2 < 2 →
      o3 < norb → s3 < 2 → o4 < norb → s4 < 2 →
      get U' [o1 * 2 + s1; o2 * 2 + s2; o3 * 2 + s3; o4 * 2 + s4]
      = get U [s1 * norb + o1; s2 * norb + o2; s3 * norb + o3; s4 * norb + o4].
Proof.
  intros Hwf Hsh. unfold transform_U.
  assert (length (data U) = size [2; norb; 2; norb; 2; norb; 2; norb]) as Hlen.
  { rewrite Hwf, Hsh. simpl. lia. }
  unfold reshape at 2. rewrite decide_True by done. simpl.
  set (U1 := mk_ndarray [2; norb; 2; norb; 2; norb; 2; norb] (data U)).
  assert (wf U1) as Hwf1 by done.
  set (sh8 := [norb; 2; norb; 2; norb; 2; norb; 2]).
  set (f := λ idx : list nat,
         (λ j, idx !!! index_of j [1; 0; 3; 2; 5; 4; 7; 6]) <$> seq 0 8).
  assert (transpose [1; 0; 3; 2; 5; 4; 7; 6] U1 = remap sh8 f U1) as -> by done.
  assert (∀ o1 s1 o2 s2 o3 s3 o4 s4,
            f [o1; s1; o2; s2; o3; s3; o4; s4] = [s1; o1; s2; o2; s3; o3; s4; o4])
    as Hf by done.
  destruct (remap_is_Some sh8 f U1) as [U2 HU2].
  { intros p Hp. apply unravel_range in Hp.
    destruct (unravel sh8 p) as [|o1 [|s1 [|o2 [|s2 [|o3 [|s3 [|o4 [|s4 [|]]]]]]]]];
      try (by repeat (inversion Hp as [|???? ? Hp']; clear Hp; rename Hp' into Hp)).
    rewrite Hf.
    repeat (let H := fresh in inversion Hp as [|???? H Hp']; clear Hp;
            rename Hp' into Hp; simplify_eq).
    eapply get_is_Some; [done|]. apply ravel_in_range. simpl. in_range. }
  rewrite HU2; simpl.
  pose proof (remap_wf _ _ _ _ HU2) as Hwf2.
  pose proof (remap_shape _ _ _ _ HU2) as Hsh2.
  unfold reshape. rewrite decide_True by (rewrite Hwf2, Hsh2; simpl; lia).
  eexists; split; [done|]. split; [|split; [done|]].
  { unfold wf; simpl. rewrite Hwf2, Hsh2. simpl. lia. }
  intros o1 s1 o2 s2 o3 s3 o4 s4 ? ? ? ? ? ? ? ?.
  assert (get U2 [o1; s1; o2; s2; o3; s3; o4; s4]
          = get U1 [s1; o1; s2; o2; s3; o3; s4; o4]) as Hg.
  { rewrite <-(Hf o1 s1 o2 s2 o3 s3 o4 s4).
    eapply get_remap; [done|]. apply ravel_in_range. in_range. }
  unfold get in *; simpl shape in *; simpl data in *.
  rewrite Hsh2, Hsh in *.
  rewrite (ravel_in_range [norb * 2; _; _; _]) by in_range.
  rewrite (ravel_in_range [2 * norb; _; _; _]) by in_range.
  rewrite (ravel_in_range sh8) in Hg by in_range.
  rewrite (ravel_in_range [2; norb; _; _; _; _; _; _]) in Hg by in_range.
  simpl in *.
  match goal with
  | |- data U2 !! ?x = data U !! ?y =>
      match type of Hg with
      | data U2 !! ?x' = data U !! ?y' =>
          replace x with x' by ring; replace y with y' by ring
      end
  end.
  done.
Qed.

(** *** [flip_block] and [flip_Delta] *)

Lemma flip_block_entries a n rest :
  wf a → shape a = n :: rest →
  ∃ a', flip_block a = Some a' ∧ wf a' ∧ shape a' = shape a ∧
    ∀ i idx p, i < n → ravel rest idx = Some p →
      get a' (i :: idx) = np_neg <$> get a ((n - 1 - i) :: idx).
Proof.
  intros Hwf Hsh. unfold flip_block, flip0. rewrite Hsh.
  set (f := λ idx : list nat, match idx with [] => [] | i :: r => (n - 1 - i) :: r end).
  destruct (remap_is_Some (n :: rest) f a) as [a1 Ha1].
  { intros p Hp. apply unravel_range in Hp.
    destruct (unravel (n :: rest) p) as [|i r]; inversion Hp; simplify_eq/=.
    eapply get_is_Some; [done|]. rewrite Hsh. apply ravel_in_range.
    constructor; [lia|done]. }
  rewrite Ha1; simpl. eexists; split; [done|].
  pose proof (remap_wf _ _ _ _ Ha1). pose proof (remap_shape _ _ _ _ Ha1) as Hs1.
  split; [by apply map_wf|]. split; [simpl; congruence|].
  intros i idx p Hi Hp. rewrite get_map. f_equal.
  apply ravel_Some_range in Hp.
  assert (ravel (n :: rest) (i :: idx) = Some (offset (n :: rest) (i :: idx))) as Hr
    by (apply ravel_in_range; by constructor).
  by rewrite (get_remap _ _ _ _ _ _ Ha1 Hr).
Qed.

Lemma flip_Delta_blocks (blocks : BlockGf V) :
  Forall (λ b, wf b.2 ∧ shape b.2 ≠ []) blocks →
  ∃ blocks', flip_Delta blocks = Some blocks' ∧
    Forall2 (λ b b',
      b'.1 = b.1 ∧ wf b'.2 ∧ shape b'.2 = shape b.2 ∧
      ∀ Ntau rest i idx p,
        shape b.2 = Ntau :: rest → i < Ntau → ravel rest idx = Some p →
        get b'.2 (i :: idx) = np_neg <$> get b.2 ((Ntau - 1 - i) :: idx))
      blocks blocks'.
Proof.
  unfold flip_Delta. induction 1 as [|[name a] blocks [Hwf Hsh] _ IH]; simpl.
  { eexists; split; [done|constructor]. }
  destruct IH as (blocks' & -> & IH). simpl in *.
  destruct (shape a) as [|n rest] eqn:Ha; [done|].
  destruct (flip_block_entries a n rest Hwf Ha) as (a' & -> & Hwf' & Hsh' & Hget).
  simpl. eexists; split; [done|]. constructor; [|done]. simpl.
  split; [done|]. split; [done|]. split; [congruence|].
  intros Ntau rest' i idx p Hs ? ?. simpl in Hs. rewrite Ha in Hs. simplify_eq. eauto.
Qed.

(** *** [bs_diagflat] *)

(** The diagonal of an array of axes (band, spin, band, spin, ...): the
    entries at [b, s, b, s, ...], as an array of axes (band, spin, ...). *)
Definition bs_diagonal (a : ndarray V) : option (ndarray V) :=
  match shape a with
  | nb :: ns :: _ :: _ :: rest =>
      remap (nb :: ns :: rest)
        (λ idx, match idx with b :: s :: r => b :: s :: b :: s :: r | _ => idx end) a
  | _ => None
  end.

Definition diag_step (bs_array : ndarray V) (acc : option (ndarray V)) (bs : nat * nat)
    : option (ndarray V) :=
  a ← acc; slab ← get_slab bs_array [bs.1; bs.2]; set_slab a [bs.1; bs.2; bs.1; bs.2] slab.

Lemma diag_step_None bs_array l : foldl (diag_step bs_array) None l = None.
Proof. by induction l. Qed.

Lemma diagflat_row_flat bs_array ns b acc :
  (a ← acc; diagflat_row bs_array ns b a)
  = foldl (diag_step bs_array) acc (pair b <$> seq 0 ns).
Proof.
  destruct acc as [a|]; simpl; [|by rewrite diag_step_None].
  unfold diagflat_row. generalize (Some a). generalize (seq 0 ns).
  induction l as [|s l IH]; intros acc; simpl; [done|]. by rewrite IH.
Qed.

Lemma diagflat_flat bs_array nb ns acc :
  foldl (λ acc b, a ← acc; diagflat_row bs_array ns b a) acc (seq 0 nb)
  = foldl (diag_step bs_array) acc (b ← seq 0 nb; pair b <$> seq 0 ns).
Proof.
  generalize (seq 0 nb). intros l. revert acc.
  induction l as [|b l IH]; intros acc; simpl; [done|].
  by rewrite foldl_app, IH, diagflat_row_flat.
Qed.

Lemma diag_fill bs_array nb ns rest l : ∀ a0,
  wf bs_array → shape bs_array = nb :: ns :: rest →
  wf a0 → shape a0 = nb :: ns :: nb :: ns :: rest →
  Forall (λ bs, bs.1 < nb ∧ bs.2 < ns) l →
  ∃ a1, foldl (diag_step bs_array) (Some a0) l = Some a1 ∧
    wf a1 ∧ shape a1 = shape a0 ∧
    (∀ b s, (b, s) ∈ l → get_slab a1 [b; s; b; s] = get_slab bs_array [b; s]) ∧
    (∀ pre, length pre = 4 → (∀ b s, (b, s) ∈ l → pre ≠ [b; s; b; s]) →
       get_slab a1 pre = get_slab a0 pre).
Proof.
  induction l as [|[b s] l IH]; intros a0 Hwf Hsh Hwf0 Hsh0 Hl; simpl.
  { eexists; split; [done|]. split; [done|]. split; [done|].
    split; [intros ?? []%elem_of_nil|done]. }
  apply Forall_cons in Hl as [[Hb Hs] Hl]; simpl in *.
  assert (∃ slab, get_slab bs_array [b; s] = Some slab) as [slab Hslab].
  { unfold get_slab. rewrite Hsh; simpl.
    rewrite !decide_True by done. simpl. eauto. }
  pose proof (get_slab_length _ _ _ Hwf Hslab) as Hlen.
  rewrite Hsh in Hlen; simpl in Hlen.
  destruct (set_slab_is_Some a0 [b; s; b; s] slab (offset [nb; ns; nb; ns] [b; s; b; s]))
    as [a0' Ha0'].
  { rewrite Hsh0. apply ravel_in_range. in_range. }
  { by rewrite Hsh0. }
  rewrite Hslab; simpl. rewrite Ha0'.
  pose proof (set_slab_wf _ _ _ _ Hwf0 Ha0') as Hwf0'.
  pose proof (set_slab_shape _ _ _ _ Ha0') as Hsh0'.
  destruct (IH a0' Hwf Hsh Hwf0' ltac:(congruence) Hl)
    as (a1 & -> & Hwf1 & Hsh1 & Hin & Hout).
  eexists; split; [done|]. split; [done|]. split; [congruence|]. split.
  - intros b' s' Hel. destruct (decide ((b', s') ∈ l)) as [|Hnl]; [by apply Hin|].
    apply elem_of_cons in Hel as [?|?]; [simplify_eq|done].
    rewrite Hout; [|done|].
    + rewrite Hslab. apply (get_slab_set_slab _ _ _ _ Hwf0 Ha0').
    + intros b' s' ? ?. simplify_eq. done.
  - intros pre Hpre Hne. rewrite Hout; [|done|].
    + apply (get_slab_set_slab_ne _ _ _ _ _ Hwf0 Ha0' Hpre). apply Hne. by left.
    + intros b' s' ?. apply Hne. by right.
Qed.

Lemma bs_diagflat_slabs bs_array nb ns rest :
  wf bs_array → shape bs_array = nb :: ns :: rest →
  ∃ bsbs_array, bs_diagflat bs_array = inr bsbs_array ∧
    wf bsbs_array ∧
    shape bsbs_array = nb :: ns :: nb :: ns :: rest ∧
    ∀ b s b' s', b < nb → s < ns → b' < nb → s' < ns →
      get_slab bsbs_array [b; s; b'; s']
      = if decide (b = b' ∧ s = s') then get_slab bs_array [b; s]
        else Some (replicate (size rest) np_zero).
Proof.
  intros Hwf Hsh. unfold bs_diagflat. rewrite Hsh.
  rewrite diagflat_flat.
  set (z := zeros np_zero (nb :: ns :: nb :: ns :: rest)).
  destruct (diag_fill bs_array nb ns rest (b ← seq 0 nb; pair b <$> seq 0 ns) z)
    as (a1 & -> & Hwf1 & Hsh1 & Hin & Hout); [done|done|apply zeros_wf|done| |].
  { apply Forall_forall. intros [b s] (b' & Hs & Hb)%list_elem_of_bind.
    apply list_elem_of_fmap in Hs as (s' & ? & Hs); simplify_eq/=.
    apply elem_of_seq in Hs, Hb. lia. }
  eexists; split; [done|]. split; [done|]. split; [done|].
  intros b s b' s' Hb Hs Hb' Hs'. case_decide as Hd.
  - destruct Hd as [<- <-]. apply Hin.
    apply list_elem_of_bind. exists b. split; [|apply elem_of_seq; lia].
    apply list_elem_of_fmap. exists s. split; [done|]. apply elem_of_seq; lia.
  - rewrite Hout; [|done|].
    + unfold z. erewrite get_slab_zeros; [done|]. apply ravel_in_range. in_range.
    + intros b0 s0 _ ?. simplify_eq. tauto.
Qed.

Lemma bs_diagflat_entries bs_array nb ns rest :
  wf bs_array → shape bs_array = nb :: ns :: rest →
  ∃ bsbs_array, bs_diagflat bs_array = inr bsbs_array ∧
    wf bsbs_array ∧
    shape bsbs_array = nb :: ns :: nb :: ns :: rest ∧
    ∀ b s b' s' idx p,
      b < nb → s < ns → b' < nb → s' < ns → ravel rest idx = Some p →
      get bsbs_array (b :: s :: b' :: s' :: idx)
      = if decide (b = b' ∧ s = s') then get bs_array (b :: s :: idx)
        else Some np_zero.
Proof.
  intros Hwf Hsh.
  destruct (bs_diagflat_slabs bs_array nb ns rest Hwf Hsh)
    as (r & Hr & Hwfr & Hshr & Hslabs).
  exists r. split; [done|]. split; [done|]. split; [done|].
  intros b s b' s' idx p Hb Hs Hb' Hs' Hp.
  specialize (Hslabs b s b' s' Hb Hs Hb' Hs').
  case_decide as Hd.
  - destruct Hd as [<- <-].
    assert (∃ slab, get_slab bs_array [b; s] = Some slab) as [slab Hslab].
    { unfold get_slab. rewrite Hsh; simpl. rewrite !decide_True by done. simpl. eauto. }
    rewrite Hslab in Hslabs.
    change (b :: s :: b :: s :: idx) with ([b; s; b; s] ++ idx).
    change (b :: s :: idx) with ([b; s] ++ idx).
    rewrite (get_slab_lookup r [b; s; b; s] idx slab p Hslabs) by (by rewrite Hshr).
    by rewrite (get_slab_lookup bs_array [b; s] idx slab p Hslab) by (by rewrite Hsh).
  - change (b :: s :: b' :: s' :: idx) with ([b; s; b'; s'] ++ idx).
    rewrite (get_slab_lookup r [b; s; b'; s'] idx _ p Hslabs) by (by rewrite Hshr).
    apply lookup_replicate_2. eauto using ravel_lt.
Qed.

Lemma bs_diagonal_diagflat bs_array nb ns rest bsbs_array :
  wf bs_array → shape bs_array = nb :: ns :: rest →
  bs_diagflat bs_array = inr bsbs_array →
  bs_diagonal bsbs_array = Some bs_array.
Proof.
  intros Hwf Hsh Hr.
  destruct (bs_diagflat_entries bs_array nb ns rest Hwf Hsh)
    as (r & Hr' & Hwfr & Hshr & Hget).
  rewrite Hr in Hr'. simplify_eq.
  unfold bs_diagonal. rewrite Hshr.
  apply remap_eq_Some; [done|done|].
  intros idx p Hp. pose proof (ravel_Some_range _ _ _ Hp) as Hrange.
  destruct idx as [|b [|s idx]];
    try (by repeat (inversion Hrange as [|???? ? Hr']; clear Hrange; rename Hr' into Hrange)).
  inversion Hrange as [|???? Hb Hr1]; simplify_eq.
  inversion Hr1 as [|???? Hs Hr2]; simplify_eq.
  rewrite (Hget b s b s idx (offset rest idx)); [|done..|by apply ravel_in_range].
  by rewrite decide_True.
Qed.

End Facts.
End TensorFacts.

(** ** Reasoning about a call *)

Module CallFacts.
Import NdArray Py Solver NdArrayFacts.

(** How a computation can fail to return: what it raises. *)
Definition failure_of {A} (o : outcome A) : option exn :=
  match o with
  | Ok _ => None
  | Raise e => Some e
  end.

Section Facts.
Context {V : Type} `{!NumpyScalar V} (X : externals V).
#[local] Abbreviation M := (M X).
#[local] Abbreviation state := (state X).

Lemma bind_run {A B} (m : M A) (f : A → M B) s :
  (m ≫= f) s
  = match m s with
    | (s', Ok a) => f a s'
    | (s', Raise e) => (s', Raise e)
    end.
Proof. done. Qed.

Lemma bind_Ok {A B} (m : M A) (f : A → M B) s s' b :
  (m ≫= f) s = (s', Ok b) → ∃ s1 a, m s = (s1, Ok a) ∧ f a s1 = (s', Ok b).
Proof. rewrite bind_run. destruct (m s) as [s1 [a|e]]; naive_solver. Qed.

Lemma run_Ok {A} (m : M A) s a : (m s).2 = Ok a → m s = ((m s).1, Ok a).
Proof. destruct (m s) as [s' o]. simpl. by intros ->. Qed.

(** [m] moves the store along [R], and fails only in the ways [F]. *)
Definition preserves {A} (R : relation state) (F : exn → Prop) (m : M A) : Prop :=
  ∀ s s' o, m s = (s', o) → R s s' ∧ ∀ f, failure_of o = Some f → F f.

(** [a] is a value that [m] can return. *)
Definition returned {A} (m : M A) (a : A) : Prop := ∃ s s', m s = (s', Ok a).

(** The trace grows by events that satisfy [P], and of [cfg["QMC"]]
    only keys that satisfy [K] change. *)
Definition moves (P : event V → Prop) (K : string → Prop) : relation state :=
  λ s s', (∃ t, trace X s' = trace X s ++ t ∧ Forall P t)
          ∧ ∀ k, ¬ K k → cfg_QMC X s' !! k = cfg_QMC X s !! k.

#[export] Instance moves_preorder P K : PreOrder (moves P K).
Proof.
  split.
  - intros s. split; [|done]. exists []. by rewrite app_nil_r.
  - intros s1 s2 s3 [(t1 & H1 & ?) Hk1] [(t2 & H2 & ?) Hk2]. split.
    + exists (t1 ++ t2).
      split; [by rewrite H2, H1, app_assoc|by apply Forall_app].
    + intros k Hk. by rewrite Hk2, Hk1.
Qed.

Lemma moves_mono (P Q : event V → Prop) (K L : string → Prop) s s' :
  (∀ e, P e → Q e) → (∀ k, K k → L k) → moves P K s s' → moves Q L s s'.
Proof.
  intros HPQ HKL [(t & ? & Ht) Hk]. split.
  - exists t. split; [done|]. eapply Forall_impl; eauto.
  - intros k Hn. apply Hk. eauto.
Qed.

Lemma moves_trace P K s s' t :
  moves P K s s' → trace X s = t → ∃ t', trace X s' = t ++ t' ∧ Forall P t'.
Proof. intros [(t' & ? & ?) _] <-. eauto. Qed.

Lemma moves_quiet K s s' : moves (λ _, False) K s s' → trace X s' = trace X s.
Proof.
  intros [([|e t] & -> & Ht) _]; [by rewrite app_nil_r|].
  by apply Forall_cons in Ht as [[] _].
Qed.

Lemma moves_key P K s s' k : moves P K s s' → ¬ K k → cfg_QMC X s' !! k = cfg_QMC X s !! k.
Proof. intros [_ H]. apply H. Qed.

Lemma preserves_mono {A} (R R' : relation state) (F F' : exn → Prop) (m : M A) :
  (∀ s s', R s s' → R' s s') → (∀ f, F f → F' f) →
  preserves R F m → preserves R' F' m.
Proof. intros HR HF H s s' o Hm. destruct (H _ _ _ Hm). split; eauto. Qed.

Section Rules.
Context (R : relation state) `{!PreOrder R} (F : exn → Prop).

Lemma preserves_ret {A} (a : A) : preserves R F (mret a : M A).
Proof. intros s s' o [= <- <-]. split; [done|]. by intros f [=]. Qed.

Lemma preserves_raise {A} e : F e → preserves R F (raise X e : M A).
Proof. intros H s s' o [= <- <-]. split; [done|]. by intros f [= <-]. Qed.

Lemma preserves_exit {A} : F SystemExit → preserves R F (exit X : M A).
Proof. intros H s s' o [= <- <-]. split; [done|]. by intros f [= <-]. Qed.

Lemma preserves_gets {A} (f : state → A) : preserves R F (gets X f).
Proof. intros s s' o [= <- <-]. split; [done|]. by intros ? [=]. Qed.

Lemma preserves_modify f : (∀ s, R s (f s)) → preserves R F (modify X f).
Proof. intros H s s' o [= <- <-]. split; [done|]. by intros ? [=]. Qed.

Lemma preserves_bind {A B} (m : M A) (f : A → M B) :
  preserves R F m → (∀ a, returned m a → preserves R F (f a)) →
  preserves R F (m ≫= f).
Proof.
  intros Hm Hf s s' o. rewrite bind_run.
  destruct (m s) as [s1 [a|e]] eqn:E; destruct (Hm _ _ _ E) as [HR HF].
  - intros H. destruct (Hf a (ex_intro _ s (ex_intro _ s1 E)) _ _ _ H).
    split; [by etrans|done].
  - by intros [= <- <-].
Qed.

Lemma preserves_lift_opt {A} e (o : option A) :
  (o = None → F e) → preserves R F (lift_opt X e o).
Proof. destruct o; [intros; apply preserves_ret|intros; apply preserves_raise; auto]. Qed.

Lemma preserves_lift_res {A} (r : exn + A) :
  (∀ e, r = inl e → F e) → preserves R F (lift_res X r).
Proof. destruct r; [intros; apply preserves_raise; auto|intros; apply preserves_ret]. Qed.

Lemma preserves_assert b msg :
  (b = false → F ((AssertionError msg))) → preserves R F (assert_ X b msg).
Proof. destruct b; [intros; apply preserves_ret|intros; apply preserves_raise; auto]. Qed.

Lemma preserves_for_each {A} (l : list A) body :
  (∀ x, x ∈ l → preserves R F (body x)) → preserves R F (for_each X l body).
Proof.
  intros H. induction l as [|x l IH]; simpl; [apply preserves_ret|].
  apply preserves_bind; [apply H; by left|intros _ _].
  apply IH. intros y Hy. apply H. by right.
Qed.

Lemma preserves_pop_required {A} key (o : option A) :
  (o = None → F ((KeyError key))) → preserves R F (pop_required X key o).
Proof. apply preserves_lift_opt. Qed.

Lemma preserves_qmc_get key : F ((KeyError key)) → preserves R F (qmc_get X key).
Proof.
  intros. apply preserves_bind; [apply preserves_gets|intros ? _].
  apply preserves_lift_opt; auto.
Qed.

Lemma preserves_the_solver : F ((NameError "solver")) → preserves R F (the_solver X).
Proof.
  intros. apply preserves_bind; [apply preserves_gets|intros ? _].
  apply preserves_lift_opt; auto.
Qed.

End Rules.

Lemma returned_lift_opt {A} e (o : option A) a : returned (lift_opt X e o) a → o = Some a.
Proof. intros (s & s' & H). destruct o; cbv in H; by simplify_eq. Qed.

Lemma returned_lift_res {A} (r : exn + A) a : returned (lift_res X r) a → r = inr a.
Proof. intros (s & s' & H). destruct r; cbv in H; by simplify_eq. Qed.

Lemma returned_ret {A} (x a : A) : returned (mret x : M A) a → a = x.
Proof. intros (s & s' & H). cbv in H. by simplify_eq. Qed.

Lemma moves_same P K s s' :
  trace X s' = trace X s → cfg_QMC X s' = cfg_QMC X s → moves P K s s'.
Proof. intros Ht Hq. split; [|by rewrite Hq]. exists []. by rewrite app_nil_r. Qed.

Lemma moves_emit P K (e : event V) s : P e → moves P K s (set_trace X (λ t, t ++ [e]) s).
Proof. intros H. split; [|done]. exists [e]. split; [done|]. by constructor. Qed.

Lemma moves_qmc_set P (K : string → Prop) key v s :
  K key → moves P K s (set_cfg_QMC X (<[key := v]>) s).
Proof.
  intros H. split; [exists []; by rewrite app_nil_r|].
  intros k Hk. simpl. apply lookup_insert_ne. by intros ->.
Qed.

Lemma moves_qmc_any P s s' :
  trace X s' = trace X s → moves P (λ _, True) s s'.
Proof. intros Ht. split; [|tauto]. exists []. by rewrite app_nil_r. Qed.

Section Primitives.
Context (P : event V → Prop) (K : string → Prop) (F : exn → Prop).

Lemma preserves_emit e : P e → preserves (moves P K) F (emit X e).
Proof. intros H. apply preserves_modify. intros s. by apply moves_emit. Qed.

Lemma preserves_print text : P (EvPrint text) → preserves (moves P K) F (print X text).
Proof. apply preserves_emit. Qed.

Lemma preserves_print_rank0 text :
  P (EvPrint text) → preserves (moves P K) F (print_rank0 X text).
Proof.
  intros H. unfold print_rank0. case_decide; [by apply preserves_print|].
  apply preserves_ret, _.
Qed.

Lemma preserves_qmc_set key v : K key → preserves (moves P K) F (qmc_set X key v).
Proof. intros H. apply preserves_modify. intros s. by apply moves_qmc_set. Qed.

Lemma preserves_set_solver e : preserves (moves P K) F (modify X (set_solver X e)).
Proof. apply preserves_modify. intros s. by apply moves_same. Qed.

Lemma preserves_engine_return r :
  F EngineError → preserves (moves P K) F (engine_return X r).
Proof.
  intros. apply preserves_bind; [apply _|apply preserves_set_solver|intros ? _].
  apply preserves_lift_opt; auto using moves_preorder.
Qed.

Lemma preserves_call_CtHybSolver seed :
  (∀ q, P (EvCtHybSolver q seed)) → preserves (moves P K) F (call_CtHybSolver X seed).
Proof.
  intros H. unfold call_CtHybSolver.
  apply preserves_bind; [apply _|apply preserves_gets, _|intros ? _].
  apply preserves_bind; [apply _|apply preserves_gets, _|intros ? _].
  apply preserves_bind; [apply _|by apply preserves_emit|intros ? _].
  apply preserves_set_solver.
Qed.

Context (HF : F ((NameError "solver"))).

Lemma preserves_call_set_problem p fp :
  P (EvSetProblem p fp) → preserves (moves P K) F (call_set_problem X p fp).
Proof.
  intros H. unfold call_set_problem.
  apply preserves_bind; [apply _|by apply preserves_emit|intros ? _].
  apply preserves_bind; [apply _|by apply preserves_the_solver; [apply _|]|intros ? _].
  apply preserves_set_solver.
Qed.

Lemma preserves_call_set_umatrix U :
  P (EvSetUmatrix U) → preserves (moves P K) F (call_set_umatrix X U).
Proof.
  intros H. unfold call_set_umatrix.
  apply preserves_bind; [apply _|by apply preserves_emit|intros ? _].
  apply preserves_bind; [apply _|by apply preserves_the_solver; [apply _|]|intros ? _].
  apply preserves_set_solver.
Qed.

Context (HE : F EngineError).

Lemma preserves_call_solve iter_no :
  (∀ q, P (EvSolve q iter_no)) → preserves (moves P K) F (call_solve X iter_no).
Proof.
  intros H. unfold call_solve.
  apply preserves_bind; [apply _|apply preserves_gets, _|intros ? _].
  apply preserves_bind; [apply _|by apply preserves_emit|intros ? _].
  apply preserves_bind; [apply _|by apply preserves_the_solver; [apply _|]|intros ? _].
  by apply preserves_engine_return.
Qed.

Lemma preserves_call_solve_component iter_no sector comp :
  (∀ q, P (EvSolveComponent q iter_no sector comp)) →
  preserves (moves P K) F (call_solve_component X iter_no sector comp).
Proof.
  intros H. unfold call_solve_component.
  apply preserves_bind; [apply _|apply preserves_gets, _|intros ? _].
  apply preserves_bind; [apply _|by apply preserves_emit|intros ? _].
  apply preserves_bind; [apply _|by apply preserves_the_solver; [apply _|]|intros ? _].
  by apply preserves_engine_return.
Qed.

Lemma preserves_call_solve_comp_stats iter_no sector comp :
  (∀ q, P (EvSolveCompStats q iter_no sector comp)) →
  preserves (moves P K) F (call_solve_comp_stats X iter_no sector comp).
Proof.
  intros H. unfold call_solve_comp_stats.
  apply preserves_bind; [apply _|apply preserves_gets, _|intros ? _].
  apply preserves_bind; [apply _|by apply preserves_emit|intros ? _].
  apply preserves_bind; [apply _|by apply preserves_the_solver; [apply _|]|intros ? _].
  by apply preserves_engine_return.
Qed.

End Primitives.
End Facts.

(** What is known about a value bound by a step that returned. *)
Ltac use_returned H :=
  first
    [ apply returned_lift_opt in H
    | apply returned_lift_res in H
    | apply returned_ret in H
    | clear H ].

(** One step through the structure of a computation.  What is left
    are the conditions on the events emitted and the failures raised. *)
Ltac preserves_step :=
  lazymatch goal with
  | |- preserves _ _ _ (mbind _ _) =>
      apply preserves_bind; [apply _| |let a := fresh "a" in let H := fresh "Hret" in
                                       intros a H; use_returned H]
  | |- preserves _ _ _ (mret _) => apply preserves_ret; apply _
  | |- preserves _ _ _ (raise _ _) => apply preserves_raise; [apply _|]
  | |- preserves _ _ _ (exit _) => apply preserves_exit; [apply _|]
  | |- preserves _ _ _ (gets _ _) => apply preserves_gets; apply _
  | |- preserves _ _ _ (lift_opt _ _ _) =>
      apply preserves_lift_opt; [apply _|let H := fresh "Hnone" in intros H]
  | |- preserves _ _ _ (lift_res _ _) =>
      apply preserves_lift_res; [apply _|let H := fresh "Hinl" in intros ? H]
  | |- preserves _ _ _ (assert_ _ _ _) =>
      apply preserves_assert; [apply _|let H := fresh "Hfalse" in intros H]
  | |- preserves _ _ _ (pop_required _ _ _) =>
      apply preserves_pop_required; [apply _|let H := fresh "Hnone" in intros H]
  | |- preserves _ _ _ (qmc_get _ _) => apply preserves_qmc_get; [apply _|]
  | |- preserves _ _ _ (the_solver _) => apply preserves_the_solver; [apply _|]
  | |- preserves _ _ _ (for_each _ _ _) =>
      apply preserves_for_each; [apply _|let H := fresh "Hin" in intros ? H]
  | |- preserves _ (moves _ _ _) _ (emit _ _) => apply preserves_emit
  | |- preserves _ (moves _ _ _) _ (print _ _) => apply preserves_print
  | |- preserves _ (moves _ _ _) _ (print_rank0 _ _) => apply preserves_print_rank0
  | |- preserves _ (moves _ _ _) _ (qmc_set _ _ _) => apply preserves_qmc_set
  | |- preserves _ (moves _ _ _) _ (call_CtHybSolver _ _) =>
      apply preserves_call_CtHybSolver; intros ?
  | |- preserves _ (moves _ _ _) _ (call_set_problem _ _ _) =>
      apply preserves_call_set_problem
  | |- preserves _ (moves _ _ _) _ (call_set_umatrix _ _) =>
      apply preserves_call_set_umatrix
  | |- preserves _ (moves _ _ _) _ (call_solve _ _) =>
      apply preserves_call_solve; [| |intros ?]
  | |- preserves _ (moves _ _ _) _ (call_solve_component _ _ _ _) =>
      apply preserves_call_solve_component; [| |intros ?]
  | |- preserves _ (moves _ _ _) _ (call_solve_comp_stats _ _ _ _) =>
      apply preserves_call_solve_comp_stats; [| |intros ?]
  | |- preserves _ (moves _ _ _) _ (modify _ _) =>
      apply preserves_modify; intros ?;
      first [by apply moves_same | by apply moves_qmc_any]
  | |- preserves _ _ _ (if ?b then _ else _) => destruct b eqn:?
  | |- preserves _ _ _ (match ?x with _ => _ end) => destruct x eqn:?
  end.

End CallFacts.

(** ** binary64: the quotient of two ints *)

Module FloatFacts.
Import Py.

#[local] Open Scope Z_scope.

Lemma digits2_size p : digits2_pos p = Pos.size p.
Proof. induction p; simpl; congruence. Qed.

Lemma Zdigits2_log2 z : 0 < z → Zdigits2 z = Z.log2 z + 1.
Proof.
  destruct z as [|p|p]; [lia| |lia]. intros _. simpl.
  rewrite digits2_size. destruct p; simpl; lia.
Qed.

Lemma Zdigits2_bounds z : 0 < z → 2 ^ (Zdigits2 z - 1) ≤ z < 2 ^ Zdigits2 z.
Proof.
  intros Hz. rewrite Zdigits2_log2 by done.
  replace (Z.log2 z + 1 - 1) with (Z.log2 z) by lia.
  apply Z.log2_spec in Hz. replace (Z.log2 z + 1) with (Z.succ (Z.log2 z)) by lia. lia.
Qed.

Lemma Zdigits2_unique z d : 0 < d → 2 ^ (d - 1) ≤ z < 2 ^ d → Zdigits2 z = d.
Proof.
  intros Hd Hz. assert (0 < z) by (pose proof (Z.pow_pos_nonneg 2 (d - 1)); lia).
  rewrite Zdigits2_log2 by done.
  rewrite (Z.log2_unique z (d - 1)); [lia|lia|].
  replace (Z.succ (d - 1)) with d by lia. exact Hz.
Qed.

Lemma Zdigits2_pos z : 0 < z → 0 < Zdigits2 z.
Proof. intros Hz. rewrite Zdigits2_log2 by done. pose proof (Z.log2_nonneg z). lia. Qed.

Lemma iter_xO m d : Zpos (Pos.iter xO m d) = Zpos m * 2 ^ Zpos d.
Proof.
  revert m. induction d using Pos.peano_ind; intros m.
  - simpl. lia.
  - rewrite Pos.iter_succ. rewrite Pos2Z.inj_xO, IHd, Pos2Z.inj_succ, Z.pow_succ_r by lia. lia.
Qed.

(** [fexp] on the exponents of normal numbers. *)
Lemma fexp_normal d : -1021 ≤ d → fexp prec emax d = d - 53.
Proof. intros H. unfold fexp, emin, prec, emax. lia. Qed.

(** A mantissa of 53 bits with its exponent is a float as it stands. *)
Lemma round_aligned s m e :
  Zdigits2 (Zpos m) = 53 → -1074 ≤ e ≤ 971 →
  binary_round_aux prec emax s (Zpos m) e loc_Exact = S754_finite s m e.
Proof.
  intros Hd He. unfold binary_round_aux, shr_fexp.
  rewrite Hd, fexp_normal by lia.
  replace (53 + e - 53 - e) with 0 by lia. simpl.
  change (Z.pos (digits2_pos m)) with (Zdigits2 (Z.pos m)).
  rewrite Hd, fexp_normal by lia.
  replace (53 + e - 53 - e) with 0 by lia. simpl.
  replace (e <=? emax - prec) with true; [done|].
  symmetry. apply Z.leb_le. unfold emax, prec. lia.
Qed.

(** The float of a positive integer below 2^53: the integer itself,
    shifted to 53 bits. *)
Lemma normalize_small (a : positive) :
  Zpos a < 2 ^ 53 →
  ∃ m, binary_normalize prec emax (Zpos a) 0 false
       = S754_finite false m (Zdigits2 (Zpos a) - 53)
    ∧ Zpos m = Zpos a * 2 ^ (53 - Zdigits2 (Zpos a))
    ∧ Zdigits2 (Zpos m) = 53.
Proof.
  intros Ha.
  pose proof (Zdigits2_bounds (Zpos a) ltac:(lia)) as Hb.
  pose proof (Zdigits2_pos (Zpos a) ltac:(lia)) as Hp.
  assert (Zdigits2 (Zpos a) ≤ 53) as Hle.
  { destruct (Z_le_gt_dec (Zdigits2 (Zpos a)) 53) as [|Hgt]; [done|].
    assert (2 ^ 53 ≤ 2 ^ (Zdigits2 (Zpos a) - 1)) by (apply Z.pow_le_mono_r; lia). lia. }
  unfold binary_normalize, binary_round, shl_align.
  change (Zpos (digits2_pos a)) with (Zdigits2 (Zpos a)).
  rewrite Z.add_0_r, fexp_normal by lia. rewrite Z.sub_0_r.
  destruct (Zdigits2 (Zpos a) - 53) as [|d|d] eqn:Hd; [|lia|].
  - exists a. rewrite round_aligned by lia.
    replace (53 - Zdigits2 (Zpos a)) with 0 by lia. split; [done|]. split; [lia|lia].
  - assert (Zpos (Pos.iter xO a d) = Zpos a * 2 ^ (53 - Zdigits2 (Zpos a))) as Hm.
    { rewrite iter_xO. f_equal. f_equal. lia. }
    assert (Zdigits2 (Zpos (Pos.iter xO a d)) = 53) as Hd53.
    { apply Zdigits2_unique; [lia|]. rewrite Hm.
      replace (2 ^ (53 - 1)) with (2 ^ (Zdigits2 (Zpos a) - 1) * 2 ^ (53 - Zdigits2 (Zpos a))).
      2:{ rewrite <-Z.pow_add_r by lia. f_equal. lia. }
      replace (2 ^ 53) with (2 ^ Zdigits2 (Zpos a) * 2 ^ (53 - Zdigits2 (Zpos a))).
      2:{ rewrite <-Z.pow_add_r by lia. f_equal. lia. }
      pose proof (Z.pow_pos_nonneg 2 (53 - Zdigits2 (Zpos a))). nia. }
    exists (Pos.iter xO a d). rewrite round_aligned by lia. done.
Qed.

(** The last step of [binary_round_aux] on a rounded mantissa. *)
Definition finish (s : bool) (mr e : Z) : spec_float :=
  let '(mrs'', e'') := shr_fexp prec emax mr e loc_Exact in
  match shr_m mrs'' with
  | Z0 => S754_zero s
  | Zpos m => if e'' <=? emax - prec then S754_finite s m e'' else S754_infinity s
  | _ => S754_nan
  end.

Lemma round_aux_finish s mx ex lx :
  binary_round_aux prec emax s mx ex lx
  = finish s (round_nearest_even (shr_m (shr_fexp prec emax mx ex lx).1)
                (loc_of_shr_record (shr_fexp prec emax mx ex lx).1))
      (shr_fexp prec emax mx ex lx).2.
Proof. unfold binary_round_aux, finish. by destruct (shr_fexp prec emax mx ex lx). Qed.

Lemma finish_spec s mr e :
  2 ^ 52 ≤ mr ≤ 2 ^ 53 → -1074 ≤ e ≤ 970 →
  ∃ m e', finish s mr e = S754_finite s m e'
          ∧ e ≤ e' ≤ e + 1 ∧ Zpos m * 2 ^ (e' - e) = mr.
Proof.
  intros Hm He. destruct (Z.eq_dec mr (2 ^ 53)) as [->|Hne].
  - exists (2 ^ 52)%positive, (e + 1). unfold finish, shr_fexp.
    change (Zdigits2 (2 ^ 53)) with 54. rewrite fexp_normal by lia.
    replace (54 + e - 53 - e) with 1 by lia. simpl.
    replace (e + 1 <=? emax - prec) with true
      by (symmetry; apply Z.leb_le; unfold emax, prec; lia).
    split; [done|]. split; [lia|]. replace (e + 1 - e) with 1 by lia. done.
  - destruct mr as [|m|m]; [lia| |lia]. exists m, e.
    assert (Zdigits2 (Zpos m) = 53) as Hd by (apply Zdigits2_unique; lia).
    unfold finish, shr_fexp. rewrite Hd, fexp_normal by lia.
    replace (53 + e - 53 - e) with 0 by lia. simpl.
    replace (e <=? emax - prec) with true
      by (symmetry; apply Z.leb_le; unfold emax, prec; lia).
    split; [done|]. split; [lia|]. rewrite Z.sub_diag. lia.
Qed.

(** What rounding makes of a quotient of 53 or 54 bits, whatever the
    remainder: the quotient, its successor, or for an odd quotient its
    predecessor. *)
Lemma round_quotient q e l :
  2 ^ 52 ≤ q < 2 ^ 54 → -1074 ≤ e ≤ 969 →
  ∃ m e', binary_round_aux prec emax false q e l = S754_finite false m e'
    ∧ e ≤ e' ≤ e + 2
    ∧ (Zpos m * 2 ^ (e' - e) = q ∨ Zpos m * 2 ^ (e' - e) = q + 1
       ∨ (Zpos m * 2 ^ (e' - e) = q - 1 ∧ Z.odd q = true)).
Proof.
  intros Hq He. rewrite round_aux_finish.
  destruct (Z_lt_le_dec q (2 ^ 53)) as [Hlt|Hge].
  - assert (Zdigits2 q = 53) as Hd by (apply Zdigits2_unique; lia).
    unfold shr_fexp at 1 2 3. rewrite Hd, fexp_normal by lia.
    replace (53 + e - 53 - e) with 0 by lia. cbn [shr fst snd].
    assert (loc_of_shr_record (shr_record_of_loc q l) = l) as -> by (by destruct l as [|[]]).
    assert (shr_m (shr_record_of_loc q l) = q) as -> by (by destruct l as [|[]]).
    assert (round_nearest_even q l = q ∨ round_nearest_even q l = q + 1) as Hr.
    { destruct l as [|[]]; simpl;
        [by left|destruct (Z.even q); [by left|by right]|by left|by right]. }
    destruct (finish_spec false (round_nearest_even q l) e) as (m & e' & Hf & He' & Hm);
      [destruct Hr as [-> | ->]; lia|lia|].
    exists m, e'. split; [done|]. split; [lia|].
    destruct Hr as [Hr|Hr]; rewrite Hr in Hm; [by left|by right; left].
  - assert (Zdigits2 q = 54) as Hd by (apply Zdigits2_unique; lia).
    unfold shr_fexp at 1 2 3. rewrite Hd, fexp_normal by lia.
    replace (54 + e - 53 - e) with 1 by lia. cbn [shr fst snd SpecFloat.iter_pos].
    destruct q as [|p|p]; [lia| |lia].
    assert (∃ mr, round_nearest_even (shr_m (shr_1 (shr_record_of_loc (Zpos p) l)))
                    (loc_of_shr_record (shr_1 (shr_record_of_loc (Zpos p) l))) = mr
                  ∧ (2 * mr = Zpos p ∨ 2 * mr = Zpos p + 1
                     ∨ (2 * mr = Zpos p - 1 ∧ Z.odd (Zpos p) = true))) as (mr & -> & Hmr).
    { eexists. split; [reflexivity|].
      destruct p as [p|p|]; [| |lia]; destruct l as [|[]]; simpl;
        repeat case_match;
        first [left; lia|right; left; lia|right; right; split; [lia|reflexivity]]. }
    destruct (finish_spec false mr (e + 1)) as (m & e' & Hf & He' & Hm); [lia|lia|].
    exists m, e'. split; [done|]. split; [lia|].
    replace (e' - e) with (e' - (e + 1) + 1) by lia.
    rewrite Z.pow_add_r, Z.pow_1_r by lia.
    destruct Hmr as [H|[H|[H Ho]]];
      [left|right; left|right; right; split; [|done]]; lia.
Qed.

(** The quotient of an integer scaled up by 2^k, by a divisor below
    2^k: dividing it, its successor or, when it is odd, its predecessor
    by 2^k gives the integer quotient. *)
Lemma scaled_quotient a b k x :
  0 < a → 0 < b → 1 ≤ k → b < 2 ^ k →
  let q := a * 2 ^ k / b in
  x = q ∨ x = q + 1 ∨ (x = q - 1 ∧ Z.odd q = true) →
  x / 2 ^ k = a / b.
Proof.
  intros Ha Hb Hk Hbk q Hx.
  pose proof (Z.pow_pos_nonneg 2 k ltac:(lia) ltac:(lia)) as Hpow.
  assert (2 ^ k = 2 * 2 ^ (k - 1)) as Hk2.
  { replace k with (Z.succ (k - 1)) at 1 by lia. rewrite Z.pow_succ_r by lia. done. }
  pose proof (Z.pow_pos_nonneg 2 (k - 1) ltac:(lia) ltac:(lia)) as Hpow'.
  pose proof (Z.div_mod a b ltac:(lia)) as Hab.
  pose proof (Z.mod_pos_bound a b ltac:(lia)) as Hr.
  pose proof (Z.div_mod (a * 2 ^ k) b ltac:(lia)) as Hq. fold q in Hq.
  pose proof (Z.mod_pos_bound (a * 2 ^ k) b ltac:(lia)) as Hrq.
  set (n := a / b) in *. set (r := a `mod` b) in *. set (rq := (a * 2 ^ k) `mod` b) in *.
  assert (n * 2 ^ k ≤ q) as Hlow by nia.
  assert (q + 1 < (n + 1) * 2 ^ k) as Hup by nia.
  assert (n * 2 ^ k ≤ x < (n + 1) * 2 ^ k) as Hbound.
  { destruct Hx as [->|[->|[-> Hodd]]]; [lia|lia|].
    split; [|lia].
    assert (q ≠ n * 2 ^ k); [|lia].
    intros Heq. rewrite Heq, Hk2 in Hodd.
    replace (n * (2 * 2 ^ (k - 1))) with (2 * (n * 2 ^ (k - 1))) in Hodd by lia.
    by rewrite Z.odd_mul in Hodd. }
  symmetry. apply (Z.div_unique x (2 ^ k) n (x - n * 2 ^ k)); lia.
Qed.

Lemma div_eucl_div_mod a b : Z.div_eucl a b = (a / b, a `mod` b).
Proof. unfold Z.div, Z.modulo. by destruct (Z.div_eucl a b). Qed.

Lemma div_core m1 e1 m2 e2 :
  Zdigits2 (Zpos m1) = 53 → Zdigits2 (Zpos m2) = 53 →
  -52 ≤ e1 ≤ 0 → -52 ≤ e2 ≤ 0 →
  ∃ l, SFdiv_core_binary prec emax (Zpos m1) e1 (Zpos m2) e2
       = (Zpos m1 * 2 ^ 53 / Zpos m2, e1 - e2 - 53, l).
Proof.
  intros Hd1 Hd2 He1 He2. unfold SFdiv_core_binary. cbv zeta.
  rewrite Hd1, Hd2, fexp_normal by lia. rewrite Z.min_l by lia.
  replace (e1 - e2 - (53 + e1 - (53 + e2) - 53)) with 53 by lia.
  cbv iota. rewrite Z.shiftl_mul_pow2 by lia.
  change IntDef.Z.div_eucl with Z.div_eucl. rewrite div_eucl_div_mod.
  eexists. f_equal. f_equal. lia.
Qed.

(** [int(a / float(b))] on binary64 for positive integers below 2^53:
    the float of each is exact, and the rounded quotient truncates to
    the integer quotient. *)
Lemma div_small (a b : positive) :
  Zpos a < 2 ^ 53 → Zpos b < 2 ^ 53 →
  ∃ m e, SFdiv prec emax (binary_normalize prec emax (Zpos a) 0 false)
                         (binary_normalize prec emax (Zpos b) 0 false)
         = S754_finite false m e
    ∧ (if 0 <=? e then Zpos m * 2 ^ e else Zpos m / 2 ^ (- e)) = Zpos a / Zpos b.
Proof.
  intros Ha Hb.
  destruct (normalize_small a Ha) as (m1 & -> & Hm1 & Hd1).
  destruct (normalize_small b Hb) as (m2 & -> & Hm2 & Hd2).
  pose proof (Zdigits2_bounds (Zpos a) ltac:(lia)) as Hba.
  pose proof (Zdigits2_bounds (Zpos b) ltac:(lia)) as Hbb.
  pose proof (Zdigits2_pos (Zpos a) ltac:(lia)) as Hpa.
  pose proof (Zdigits2_pos (Zpos b) ltac:(lia)) as Hpb.
  pose proof (Zdigits2_bounds (Zpos m1) ltac:(lia)) as Hb1.
  pose proof (Zdigits2_bounds (Zpos m2) ltac:(lia)) as Hb2.
  rewrite Hd1 in Hb1. rewrite Hd2 in Hb2.
  set (da := Zdigits2 (Zpos a)) in *. set (db := Zdigits2 (Zpos b)) in *.
  assert (da ≤ 53) as Hda.
  { destruct (Z_le_gt_dec da 53) as [|Hgt]; [done|].
    assert (2 ^ 53 ≤ 2 ^ (da - 1)) by (apply Z.pow_le_mono_r; lia). lia. }
  assert (db ≤ 53) as Hdb.
  { destruct (Z_le_gt_dec db 53) as [|Hgt]; [done|].
    assert (2 ^ 53 ≤ 2 ^ (db - 1)) by (apply Z.pow_le_mono_r; lia). lia. }
  unfold SFdiv.
  destruct (div_core m1 (da - 53) m2 (db - 53)) as [l Hcore]; [done|done|lia|lia|].
  rewrite Hcore. cbv iota beta. simpl xorb.
  set (k := 53 + db - da).
  replace (da - 53 - (db - 53) - 53) with (- k) by lia.
  set (q := Zpos m1 * 2 ^ 53 / Zpos m2).
  assert (q = Zpos a * 2 ^ k / Zpos b) as Hq.
  { unfold q. rewrite Hm1, Hm2.
    replace (Zpos a * 2 ^ (53 - da) * 2 ^ 53) with (Zpos a * 2 ^ k * 2 ^ (53 - db)).
    2:{ rewrite <-!Z.mul_assoc, <-!Z.pow_add_r by lia. do 2 f_equal. lia. }
    apply Z.div_mul_cancel_r; [lia|].
    pose proof (Z.pow_pos_nonneg 2 (53 - db)). lia. }
  assert (2 ^ 52 ≤ q < 2 ^ 54) as Hqb.
  { unfold q. split.
    - apply Z.div_le_lower_bound; [lia|]. nia.
    - apply Z.div_lt_upper_bound; [lia|]. nia. }
  destruct (round_quotient q (- k) l) as (m & e' & -> & He' & Hx); [done|lia|].
  exists m, e'. split; [done|].
  assert (Zpos b < 2 ^ k) as Hbk.
  { apply Z.lt_le_trans with (2 ^ db); [lia|]. apply Z.pow_le_mono_r; lia. }
  rewrite Hq in Hx.
  pose proof (scaled_quotient (Zpos a) (Zpos b) k (Zpos m * 2 ^ (e' - - k))
                ltac:(lia) ltac:(lia) ltac:(lia) Hbk Hx) as Hdiv.
  rewrite <-Hdiv.
  pose proof (Z.pow_pos_nonneg 2 (e' - - k) ltac:(lia) ltac:(lia)) as Hp1.
  destruct (0 <=? e') eqn:Hsign.
  - apply Z.leb_le in Hsign.
    replace (e' - - k) with (e' + k) by lia. rewrite Z.pow_add_r by lia.
    rewrite Z.mul_assoc, Z.div_mul; [done|].
    pose proof (Z.pow_pos_nonneg 2 k). lia.
  - apply Z.leb_gt in Hsign.
    replace (2 ^ k) with (2 ^ (e' - - k) * 2 ^ (- e')).
    2:{ rewrite <-Z.pow_add_r by lia. f_equal. lia. }
    rewrite (Z.mul_comm (Zpos m)), Z.div_mul_cancel_l; [done| |lia].
    pose proof (Z.pow_pos_nonneg 2 (- e')). lia.
Qed.


(** *** [int(T / float(C))] below 2^53 *)

Lemma normalize_valid (a : positive) :
  Zpos a < 2 ^ 53 → valid_binary (binary_normalize prec emax (Zpos a) 0 false) = true.
Proof.
  intros Ha. destruct (normalize_small a Ha) as (m & -> & _ & Hd).
  pose proof (Zdigits2_pos (Zpos a) ltac:(lia)) as Hp.
  assert (Zdigits2 (Zpos a) ≤ 53) as Hle.
  { destruct (Z_le_gt_dec (Zdigits2 (Zpos a)) 53) as [|Hgt]; [done|].
    pose proof (Zdigits2_bounds (Zpos a) ltac:(lia)).
    assert (2 ^ 53 ≤ 2 ^ (Zdigits2 (Zpos a) - 1)) by (apply Z.pow_le_mono_r; lia). lia. }
  unfold valid_binary, SpecFloat.valid_binary, bounded, canonical_mantissa.
  change (Z.pos (digits2_pos m)) with (Zdigits2 (Z.pos m)). rewrite Hd.
  rewrite fexp_normal by lia.
  apply andb_true_intro. split; [apply Z.eqb_eq; lia|apply Z.leb_le; unfold emax, prec; lia].
Qed.

(** [float(z)] for a positive int below 2^53. *)
Lemma py_float_of_int_small (a : positive) :
  Zpos a < 2 ^ 53 →
  ∃ x, py_float_of_int (Zpos a) = inr x
       ∧ Prim2SF x = binary_normalize prec emax (Zpos a) 0 false
       ∧ PrimFloat.eqb x 0 = false.
Proof.
  intros Ha. pose proof (normalize_valid a Ha) as Hv.
  destruct (normalize_small a Ha) as (m & Hn & _ & _).
  unfold py_float_of_int. rewrite Hn in *.
  eexists. split; [done|]. rewrite (Prim2SF_SF2Prim _ Hv). split; [done|].
  by rewrite FloatAxioms.eqb_spec, (Prim2SF_SF2Prim _ Hv).
Qed.

Lemma py_float_of_int_zero : py_float_of_int 0 = inr 0%float.
Proof. reflexivity. Qed.

(** Below 2^53 the truncated binary64 quotient of two ints is their
    integer quotient. *)
Lemma py_int_div_small (T : Z) (c : nat) :
  0 ≤ T < 2 ^ 53 → 0 < Z.of_nat c < 2 ^ 53 →
  py_int_div (VInt T) c = inr (T / Z.of_nat c).
Proof.
  intros HT Hc. unfold py_int_div.
  destruct (Z.of_nat c) as [|b|b] eqn:Hb; [lia| |lia].
  destruct (py_float_of_int_small b ltac:(lia)) as (y & -> & Hy & Hy0).
  destruct T as [|a|a]; [| |lia].
  - rewrite py_float_of_int_zero. unfold py_float_div. rewrite Hy0.
    unfold py_int_of_float. rewrite div_spec, Hy.
    destruct (normalize_small b ltac:(lia)) as (m & -> & _). done.
  - destruct (py_float_of_int_small a ltac:(lia)) as (x & -> & Hx & _).
    unfold py_float_div. rewrite Hy0.
    unfold py_int_of_float. rewrite div_spec, Hx, Hy.
    destruct (div_small a b ltac:(lia) ltac:(lia)) as (m & e & Hdiv & Hq).
    unfold SF64div. rewrite Hdiv. by rewrite Hq.
Qed.

(** With no component the division is by [float(0)]. *)
Lemma py_int_div_zero_fails (v : cfgval) (n : Z) : py_int_div v 0 ≠ inr n.
Proof.
  unfold py_int_div.
  change (py_float_of_int (Z.of_nat 0)) with (inr 0%float : exn + float). cbv iota.
  destruct v as [z|x|l]; [|done..].
  by destruct (py_float_of_int z).
Qed.

Lemma py_int_div_zero (v : cfgval) :
  (∀ z, v = VInt z → ∃ x, py_float_of_int z = inr x) → (∀ l, v ≠ VList l) →
  py_int_div v 0 = inl ZeroDivisionError.
Proof.
  intros Hz Hl. unfold py_int_div.
  change (py_float_of_int (Z.of_nat 0)) with (inr 0%float : exn + float). cbv iota.
  destruct v as [z|x|l]; [|done|by destruct (Hl l)].
  by destruct (Hz z eq_refl) as [x ->].
Qed.

End FloatFacts.

(** ** The phases of [solve] *)

Module SolveFacts.
Import NdArray Py Solver NdArrayFacts CallFacts.

Section Facts.
Context {V : Type} `{!NumpyScalar V} (X : externals V).

Definition is_print (e : event V) : Prop :=
  match e with EvPrint _ => True | _ => False end.

(** A call into the engine: its constructor or a method of the solver
    object. *)
Definition is_engine_call (e : event V) : Prop :=
  match e with EvPrint _ => False | _ => True end.

(** The message of the assertion of line 173. *)
Definition orbital_mismatch : string :=
  "number of orbitals of U_ijkl and t_ij does not match".

(** The failures open to the code after line 215, but for the [exit()]
    of line 220. *)
Definition late_failure (f : exn) : Prop :=
  f ≠ SystemExit ∧ f ≠ AssertionError orbital_mismatch.

(** What the dispatcher shows to the engine: the impurity problem and
    interaction tensor it was given, sampling calls with [iter_no = 0]
    where they are component statistics, and no new solver object. *)
Definition dispatch_event (imp_problem : ImpurityProblem V) (U : ndarray V) (e : event V) : Prop :=
  match e with
  | EvPrint _ => True
  | EvCtHybSolver _ _ => False
  | EvSetProblem p _ => p = imp_problem
  | EvSetUmatrix U' => U' = U
  | EvSolve _ _ => True
  | EvSolveComponent _ iter_no sector _ => iter_no = 1%Z ∧ sector = 2%Z
  | EvSolveCompStats _ iter_no _ _ => iter_no = 0%Z
  end.

(** What the automatic two-particle sampling shows to the engine. *)
Definition two_particle_event (imp_problem : ImpurityProblem V) (U : ndarray V) (e : event V)
    : Prop :=
  match e with
  | EvPrint _ => True
  | EvCtHybSolver _ _ => True
  | EvSetProblem p fourpnt => p = imp_problem ∧ is_Some fourpnt
  | EvSetUmatrix U' => U' = U
  | EvSolveCompStats _ iter_no sector _ => iter_no = 1%Z ∧ sector = 4%Z
  | _ => False
  end.

(** The keys that lines 407 and 409 write. *)
Definition budget_key (k : string) : Prop := k = "Nmeas" ∨ k = "measurement_time".

(** The keys that lines 615-621 write. *)
Definition automatic_key (k : string) : Prop :=
  k ∈ ["FourPnt"; "N4iwf"; "N4iwb"; "PercentageWormInsert"; "PercentageWormReplace";
       "WormMeasG4iw"; "WormSearchEta"].

Definition any_key (k : string) : Prop := True.
Definition no_key (k : string) : Prop := False.
Definition no_event (e : event V) : Prop := False.

Lemma translate_quiet self kw :
  preserves X (moves X no_event any_key) (λ f, f ≠ SystemExit) (translate X self kw).
Proof. unfold translate. repeat preserves_step; done. Qed.

Lemma check_complex_worm_prints self l :
  preserves X (moves X is_print no_key) (λ f, f = SystemExit) (check_complex_worm X self l).
Proof. unfold check_complex_worm. repeat preserves_step; done. Qed.

Lemma configure_sampling_quiet self l :
  preserves X (moves X no_event any_key) late_failure (configure_sampling X self l).
Proof. unfold configure_sampling. repeat preserves_step; done. Qed.

Lemma configure_worm_quiet l :
  preserves X (moves X no_event any_key) late_failure (configure_worm X l).
Proof. unfold configure_worm. repeat preserves_step; done. Qed.

Lemma configure_manual_prints l :
  preserves X (moves X is_print (λ k, k ∈ (default [] (cfg_qmc l)).*1)) late_failure
    (configure_manual X l).
Proof.
  unfold configure_manual. repeat preserves_step; try done.
  apply list_elem_of_fmap. eauto.
Qed.

Lemma configure_echo_prints :
  preserves X (moves X is_print no_key) late_failure (configure_echo X).
Proof. unfold configure_echo. repeat preserves_step; done. Qed.

Lemma configure_prints self l :
  preserves X (moves X is_print any_key) late_failure (configure X self l).
Proof.
  unfold configure.
  apply preserves_bind; [apply _| |intros _ _].
  { eapply preserves_mono; [| |apply configure_sampling_quiet]; [|done].
    intros ??. by apply moves_mono. }
  apply preserves_bind; [apply _| |intros _ _].
  { eapply preserves_mono; [| |apply configure_worm_quiet]; [|done].
    intros ??. by apply moves_mono. }
  apply preserves_bind; [apply _| |intros _ _].
  { eapply preserves_mono; [| |apply configure_manual_prints]; [|done].
    intros ??. by apply moves_mono. }
  eapply preserves_mono; [| |apply configure_echo_prints]; [|done].
  intros ??. by apply moves_mono.
Qed.

Lemma py_int_div_failure v c e :
  py_int_div v c = inl e → late_failure e.
Proof.
  unfold py_int_div, py_float_of_int, py_float_div, py_int_of_float.
  repeat case_match; intros; by simplify_eq.
Qed.

Lemma bs_diagflat_failure (a : ndarray V) e :
  bs_diagflat a = inl e → late_failure e.
Proof. unfold bs_diagflat. repeat case_match; intros; by simplify_eq. Qed.

(** The impurity problem and the interaction tensor that lines 317-341
    build. *)
Definition cast (self : Self V) (a : ndarray V) : ndarray V :=
  if complex self then a else NdArray.map np_real a.

Definition problem_of (self : Self V) (l : locals V) : ImpurityProblem V :=
  mk_problem (beta self)
    (cast self (zeros np_zero [2 * n_iw self; norb l; 2; norb l; 2]))
    (cast self (zeros np_zero [2 * n_iw self; norb l; 2; norb l; 2]))
    (cast self (zeros np_zero [2; norb l; 2; norb l; 2]))
    (cast self (ftau l)) (cast self (t_osos_tensor l)).

Definition umatrix_of (self : Self V) (l : locals V) : ndarray V := cast self (U_ijkl l).

Definition seed_of (l : locals V) : Z := (random_seed l + Z.of_nat (mpi_rank X))%Z.

(** [build] never fails; it shows the engine the configuration as
    [configure] left it. *)
Lemma build_run self l s :
  ∃ s', build X self l s = (s', Ok (problem_of self l, umatrix_of self l)) ∧
    trace X s' = trace X s ++
      [EvCtHybSolver (cfg_QMC X s) (seed_of l);
       EvPrint "........................................";
       EvSetProblem (problem_of self l) None] ∧
    cfg_QMC X s' = cfg_QMC X s.
Proof.
  unfold build, call_CtHybSolver, call_set_problem, the_solver, print, emit.
  rewrite !bind_run. simpl.
  eexists. split; [reflexivity|]. simpl. split; [|done].
  by rewrite <-!app_assoc.
Qed.

Lemma run_components_events norb L imp_problem U components : ∀ acc,
  preserves X (moves X (dispatch_event imp_problem U) no_key) late_failure
    (run_components X norb L imp_problem U components acc).
Proof.
  induction components as [|c components IH]; intros acc; simpl.
  - preserves_step.
  - repeat preserves_step; first [done|apply IH].
Qed.

Lemma apportion_quiet max_time ncomp :
  preserves X (moves X no_event budget_key) late_failure (apportion X max_time ncomp).
Proof.
  unfold apportion, budget_key.
  repeat preserves_step; eauto using py_int_div_failure; done.
Qed.

Lemma single_entry_quiet pat r :
  preserves X (moves X no_event no_key) late_failure (single_entry X pat r).
Proof. unfold single_entry. repeat preserves_step; done. Qed.

Lemma component_indices_quiet norb v :
  preserves X (moves X no_event no_key) late_failure (component_indices X norb v).
Proof. unfold component_indices. repeat preserves_step; done. Qed.

Lemma any_reduced_flag_quiet :
  preserves X (moves X no_event no_key) late_failure (any_reduced_flag X).
Proof. unfold any_reduced_flag. repeat preserves_step; done. Qed.

Lemma reduced_result_key_quiet :
  preserves X (moves X no_event no_key) late_failure (reduced_result_key X).
Proof. unfold reduced_result_key. repeat preserves_step; done. Qed.

(** A computation known for a smaller relation. *)
Ltac by_mono lem :=
  eapply preserves_mono; [| |apply lem];
  [intros ??; apply moves_mono; unfold no_event, no_key; tauto|done].

Lemma dispatch_events self l imp_problem U :
  preserves X (moves X (dispatch_event imp_problem U) budget_key) late_failure
    (dispatch X self l imp_problem U).
Proof.
  unfold dispatch, standard, worm_two_operator, worm_four_operator, worm_reduced,
    worm_warning, banner.
  repeat first
    [ by_mono run_components_events | by_mono apportion_quiet
    | by_mono single_entry_quiet | by_mono component_indices_quiet
    | by_mono any_reduced_flag_quiet | by_mono reduced_result_key_quiet
    | preserves_step ];
    done.
Qed.

Lemma sample_g4iw_events imp_problem U components : ∀ g4iw,
  preserves X (moves X (two_particle_event imp_problem U) no_key) late_failure
    (sample_g4iw X imp_problem U components g4iw).
Proof.
  induction components as [|c components IH]; intros g4iw; simpl.
  - preserves_step.
  - repeat preserves_step; first [done|apply IH].
Qed.

Lemma two_particle_events l imp_problem U :
  preserves X (moves X (two_particle_event imp_problem U) automatic_key) late_failure
    (two_particle X l imp_problem U).
Proof.
  unfold two_particle, automatic_key.
  repeat first [ by_mono sample_g4iw_events | preserves_step ];
    first [done|set_solver].
Qed.

(** With [measure_G2_iw_ph] and a manual mapping, lines 611-663 do
    nothing. *)
Lemma two_particle_skip l imp_problem U s :
  default [] (cfg_qmc l) ≠ [] →
  two_particle X l imp_problem U s = (s, Ok None).
Proof.
  intros H. unfold two_particle.
  destruct (default [] (cfg_qmc l)); [done|].
  by rewrite andb_false_r.
Qed.

Lemma convert_quiet l res gtau :
  preserves X (moves X no_event no_key) late_failure (convert X l res gtau).
Proof.
  unfold convert, the_result, any_worm_flag, any_reduced_flag.
  repeat preserves_step; eauto using bs_diagflat_failure; done.
Qed.

(** *** What [translate] returns *)

(** The one-particle matrix of a call: [h_0] through the delta
    interface, else the block-diagonal matrix of [t_ij_lst]. *)
Definition hopping (self : Self V) (kw : kwargs V) : option (ndarray V) :=
  if delta_interface self then kw_h_0 kw else Some (block_diag X (G0_t_ij_lst self)).

(** The hybridization function of a call, before line 166. *)
Definition hybridization (self : Self V) : BlockGf V :=
  if delta_interface self then Delta_tau self else G0_Delta_tau self.

Lemma lift_opt_Ok {A} e (o : option A) s s' a :
  lift_opt X e o s = (s', Ok a) → o = Some a ∧ s' = s.
Proof. destruct o; cbv; intros; by simplify_eq. Qed.

Lemma assert_Ok b msg s s' u : assert_ X b msg s = (s', Ok u) → b = true ∧ s' = s.
Proof. destruct b; cbv; intros; by simplify_eq. Qed.

Lemma translate_Ok self kw s s' l :
  self_Delta_tau X s = Delta_tau self →
  translate X self kw s = (s', Ok l) →
  ∃ U t dU dt blocks,
    kw_h_int kw = Some U ∧ hopping self kw = Some t ∧
    head (shape U) = Some dU ∧ head (shape t) = Some dt ∧
    dt / 2 = dU / 2 ∧ norb l = dU / 2 ∧
    transform_U (dU / 2) U = Some (U_ijkl l) ∧
    flip_Delta (hybridization self) = Some blocks ∧
    self_Delta_tau X s' = blocks ∧
    ftau l = triqs_gf_to_w2dyn_ndarray_g_tosos_beta_ntau X blocks ∧
    transform_t (dU / 2) (NdArray.map np_neg t) = Some (t_osos_tensor l) ∧
    trace X s' = trace X s ∧
    worm l = default false (kw_worm kw) ∧
    cfg_qmc l = kw_cfg_qmc kw ∧
    measure_g4iw_ph l = default false (kw_measure_G2_iw_ph kw) ∧
    percentageworminsert l
      = default 0x1.999999999999ap-3%float (kw_PercentageWormInsert kw) ∧
    percentagewormreplace l
      = default 0x1.999999999999ap-3%float (kw_PercentageWormReplace kw).
Proof.
  intros Hs0 H. unfold translate in H.
  apply bind_Ok in H as (s1 & n_cycles & [Hn ->]%lift_opt_Ok & H).
  apply bind_Ok in H as (s1 & U & [HU ->]%lift_opt_Ok & H).
  apply bind_Ok in H as (s1 & h_0 & Hh0 & H).
  apply bind_Ok in H as (s2 & dU & [HdU ->]%lift_opt_Ok & H).
  apply bind_Ok in H as (s2 & [] & [= <-] & H).
  apply bind_Ok in H as (s2 & U' & [HU' ->]%lift_opt_Ok & H).
  apply bind_Ok in H as (s2 & t & Ht & H).
  apply bind_Ok in H as (s3 & blocks0 & [= <- <-] & H).
  apply bind_Ok in H as (s3 & blocks & [Hflip ->]%lift_opt_Ok & H).
  apply bind_Ok in H as (s3 & [] & [= <-] & H).
  apply bind_Ok in H as (s3 & dt & [Hdt ->]%lift_opt_Ok & H).
  apply bind_Ok in H as (s3 & [] & [Hassert ->]%assert_Ok & H).
  apply bind_Ok in H as (s3 & t_osos & [Htosos ->]%lift_opt_Ok & H).
  apply bind_Ok in H as (s3 & [] & [= <-] & H).
  apply bind_Ok in H as (s3 & [] & [= <-] & H).
  apply bind_Ok in H as (s3 & m & [Hm ->]%lift_opt_Ok & H).
  apply bind_Ok in H as (s3 & [] & [= <-] & H).
  injection H as <- <-.
  apply bool_decide_eq_true in Hassert. simpl in Hdt.
  assert (hopping self kw = Some t ∧ trace X s2 = trace X s
          ∧ self_Delta_tau X s2 = hybridization self) as (Hhop & Htr & Hhyb).
  { unfold hopping, hybridization. destruct (delta_interface self).
    - apply bind_Ok in Hh0 as (? & h & [Hh ->]%lift_opt_Ok & [= <- <-]).
      injection Ht as <- <-. done.
    - injection Hh0 as <- <-. injection Ht as <- <-. done. }
  exists U, t, dU, dt, blocks. simpl. rewrite <-Hhyb. done.
Qed.

Lemma bind_Raise {A B} (m : M X A) (f : A → M X B) s s' e :
  (m ≫= f) s = (s', Raise e) →
  m s = (s', Raise e) ∨ ∃ s1 a, m s = (s1, Ok a) ∧ f a s1 = (s', Raise e).
Proof. rewrite bind_run. destruct (m s) as [s1 [a|e']]; naive_solver. Qed.

Lemma lift_opt_Raise {A} e0 (o : option A) s s' e :
  lift_opt X e0 o s = (s', Raise e) → o = None ∧ e = e0.
Proof. destruct o; cbv; intros; by simplify_eq. Qed.

Lemma assert_Raise b msg s s' e :
  assert_ X b msg s = (s', Raise e) → b = false ∧ e = AssertionError msg.
Proof. destruct b; cbv; intros; by simplify_eq. Qed.

(** Where [translate] can raise: the assertion of line 173 exactly when
    the two orbital counts differ and the lines before it pass. *)
Lemma translate_Raise self kw s s' e U t dU dt :
  self_Delta_tau X s = Delta_tau self →
  translate X self kw s = (s', Raise e) →
  kw_h_int kw = Some U → hopping self kw = Some t →
  head (shape U) = Some dU → head (shape t) = Some dt →
  (e = AssertionError orbital_mismatch ∧ dU / 2 ≠ dt / 2)
  ∨ (e ≠ AssertionError orbital_mismatch
     ∧ (kw_n_cycles kw = None ∨ transform_U (dU / 2) U = None
        ∨ flip_Delta (hybridization self) = None ∨ dU / 2 = dt / 2)).
Proof.
  intros Hs0 H HU Ht HdU Hdt. unfold translate in H.
  apply bind_Raise in H as [[? ->]%lift_opt_Raise|(s1 & n & [_ ->]%lift_opt_Ok & H)];
    [right; split; [done|by left]|].
  apply bind_Raise in H as [[? ->]%lift_opt_Raise|(s1 & U0 & [HU0 ->]%lift_opt_Ok & H)];
    [congruence|].
  unfold pop_required in HU0. rewrite HU in HU0. simplify_eq.
  apply bind_Raise in H as [H|(s1 & h_0 & Hh0 & H)].
  { unfold hopping in Ht. destruct (delta_interface self); [|done].
    apply bind_Raise in H as [[? ->]%lift_opt_Raise|(? & ? & _ & [=])]. congruence. }
  apply bind_Raise in H as [[? ->]%lift_opt_Raise|(s2 & d & [Hd ->]%lift_opt_Ok & H)];
    [congruence|].
  rewrite HdU in Hd. simplify_eq.
  apply bind_Raise in H as [[=]|(s2 & [] & [= <-] & H)].
  apply bind_Raise in H as [[? ->]%lift_opt_Raise|(s2 & U' & [_ ->]%lift_opt_Ok & H)];
    [right; split; [done|by right; left]|].
  apply bind_Raise in H as [H|(s2 & t0 & Ht0 & H)].
  { destruct h_0; [done|]. by apply bind_Raise in H as [[=]|(? & ? & _ & [[=]|(? & ? & _ & [=])]%bind_Raise)]. }
  assert (t0 = t ∧ self_Delta_tau X s2 = hybridization self) as [-> Hhyb].
  { unfold hopping, hybridization in *. destruct (delta_interface self).
    - apply bind_Ok in Hh0 as (? & h & [Hh ->]%lift_opt_Ok & [= <- <-]).
      injection Ht0 as <- <-. unfold pop_required in Hh. split; [congruence|done].
    - injection Hh0 as <- <-. injection Ht0 as <- <-. split; [congruence|done]. }
  apply bind_Raise in H as [[=]|(s3 & blocks0 & [= <- <-] & H)].
  rewrite Hhyb in H.
  apply bind_Raise in H as [[? ->]%lift_opt_Raise|(s3 & blocks & [_ ->]%lift_opt_Ok & H)];
    [right; split; [done|by right; right; left]|].
  apply bind_Raise in H as [[=]|(s3 & [] & [= <-] & H)].
  apply bind_Raise in H as [[? ->]%lift_opt_Raise|(s3 & r & [Hr ->]%lift_opt_Ok & H)];
    [simpl in *; congruence|].
  simpl in Hr. rewrite Hdt in Hr. simplify_eq.
  apply bind_Raise in H as [[Hb ->]%assert_Raise|(s3 & [] & [Hb ->]%assert_Ok & H)].
  { apply bool_decide_eq_false in Hb. left. split; [done|congruence]. }
  apply bool_decide_eq_true in Hb. right. split; [|by right; right; right].
  apply bind_Raise in H as [[? ->]%lift_opt_Raise|(s3 & ? & [_ ->]%lift_opt_Ok & H)];
    [done|].
  apply bind_Raise in H as [[=]|(s3 & [] & [= <-] & H)].
  apply bind_Raise in H as [[=]|(s3 & [] & [= <-] & H)].
  apply bind_Raise in H as [[? ->]%lift_opt_Raise|(s3 & ? & [_ ->]%lift_opt_Ok & H)];
    [done|].
  by apply bind_Raise in H as [[=]|(s3 & [] & [= <-] & [=])].
Qed.

(** *** The call after [translate] *)

Definition after_dispatch (l : locals V) (imp_problem : ImpurityProblem V) (U : ndarray V)
    (rg : option (result V) * option (gtau_t V)) : M X (retval V) :=
  ret ← two_particle X l imp_problem U;
  match ret with
  | Some v => mret v
  | None => convert X l rg.1 rg.2
  end.

Definition after_configure (self : Self V) (l : locals V) : M X (retval V) :=
  pu ← build X self l;
  rg ← dispatch X self l pu.1 pu.2;
  after_dispatch l pu.1 pu.2 rg.

Definition after_translate (self : Self V) (l : locals V) : M X (retval V) :=
  check_complex_worm X self l;;
  configure X self l;;
  after_configure self l.

Lemma solve_unfold self kw :
  solve X self kw = translate X self kw ≫= after_translate self.
Proof. done. Qed.

(** Every problem and interaction tensor shown to the engine is the one
    built at lines 317-341. *)
Definition run_event (self : Self V) (l : locals V) (e : event V) : Prop :=
  match e with
  | EvSetProblem p _ => p = problem_of self l
  | EvSetUmatrix U => U = umatrix_of self l
  | _ => True
  end.

Definition not_orbital_mismatch (f : exn) : Prop :=
  f ≠ AssertionError orbital_mismatch.

Lemma build_events self l :
  preserves X (moves X (run_event self l) no_key) late_failure (build X self l).
Proof.
  intros s s' o Hb. destruct (build_run self l s) as (s1 & Hs1 & Ht & Hq).
  rewrite Hs1 in Hb. simplify_eq. split; [|by intros ? [=]].
  split; [|by rewrite Hq]. eexists; split; [done|].
  repeat constructor.
Qed.

Lemma returned_build self l pu :
  returned X (build X self l) pu → pu = (problem_of self l, umatrix_of self l).
Proof.
  intros (s & s' & Hb). destruct (build_run self l s) as (s1 & Hs1 & _).
  rewrite Hs1 in Hb. by simplify_eq.
Qed.

Lemma after_dispatch_events self l rg :
  preserves X (moves X (run_event self l) any_key) late_failure
    (after_dispatch l (problem_of self l) (umatrix_of self l) rg).
Proof.
  unfold after_dispatch.
  apply preserves_bind; [apply _| |intros [v|] _].
  - eapply preserves_mono; [| |apply two_particle_events]; [|done].
    intros ??. apply moves_mono; [|done].
    intros [] ?; simpl in *; tauto.
  - apply preserves_ret, _.
  - eapply preserves_mono; [| |apply convert_quiet]; [|done].
    intros ??. by apply moves_mono.
Qed.

Lemma after_configure_events self l :
  preserves X (moves X (run_event self l) any_key) late_failure (after_configure self l).
Proof.
  unfold after_configure.
  apply preserves_bind; [apply _| |intros pu ->%returned_build].
  { eapply preserves_mono; [| |apply build_events]; [|done].
    intros ??. by apply moves_mono. }
  apply preserves_bind; [apply _| |intros rg _].
  { eapply preserves_mono; [| |apply dispatch_events]; [|done].
    intros ??. apply moves_mono; [|done].
    intros [] ?; simpl in *; tauto. }
  apply after_dispatch_events.
Qed.

Lemma after_translate_events self l :
  preserves X (moves X (run_event self l) any_key) not_orbital_mismatch
    (after_translate self l).
Proof.
  unfold after_translate.
  apply preserves_bind; [apply _| |intros _ _].
  { eapply preserves_mono; [| |apply check_complex_worm_prints].
    - intros ??. apply moves_mono; [|done]. by intros [].
    - by intros ? ->. }
  apply preserves_bind; [apply _| |intros _ _].
  { eapply preserves_mono; [| |apply configure_prints].
    - intros ??. apply moves_mono; [|done]. by intros [].
    - by intros ? []. }
  eapply preserves_mono; [| |apply after_configure_events]; [done|by intros ? []].
Qed.

End Facts.
End SolveFacts.

(** ** The two-operator worm sector: lines 375-439 *)

Module SectorFacts.
Import NdArray Py Solver NdArrayFacts TensorFacts CallFacts FloatFacts SolveFacts.

Section Facts.
Context {V : Type} `{!NumpyScalar V} (X : externals V).

(** Line 397 for one compound index: the component is kept when some
    entry of its hybridization column exceeds the threshold. *)
Definition kept (norb : nat) (ftau : ndarray V) (comp_ind : Z) : bool :=
  match position X norb comp_ind with
  | Some pos =>
      match column ftau pos with
      | Some col => negb (all_zeros col)
      | None => false
      end
  | None => false
  end.

(** The compound indices the loop of line 411 passes to the engine. *)
Definition solve_component_calls (t : list (event V)) : list Z :=
  omap (λ e, match e with EvSolveComponent _ _ _ c => Some c | _ => None end) t.

(** The configuration each of those calls can read. *)
Definition solve_component_cfgs (t : list (event V)) : list (gmap string cfgval) :=
  omap (λ e, match e with EvSolveComponent q _ _ _ => Some q | _ => None end) t.

(** [cfg["QMC"]["Nmeas"]] as a call reads it, and the cycles that the
    calls of a trace are given in total. *)
Definition cycles (q : gmap string cfgval) : Z :=
  match q !! "Nmeas" with Some (VInt n) => n | _ => 0%Z end.

Definition total_cycles (t : list (event V)) : Z :=
  foldr Z.add 0%Z (cycles <$> solve_component_cfgs t).

Lemma enumerate_filter norb ftau range : ∀ components cs,
  enumerate X norb ftau range components = Some cs →
  cs = components ++ filter (λ c, kept norb ftau c = true) range.
Proof.
  induction range as [|c range IH]; intros components cs H; simpl in H.
  { simplify_eq. by rewrite app_nil_r. }
  unfold kept at 1.
  destruct (position X norb c) as [pos|] eqn:Hpos; simpl in H; [|done].
  destruct (column ftau pos) as [col|] eqn:Hcol; simpl in H; [|done].
  apply IH in H. rewrite H.
  destruct (all_zeros col) eqn:Hz.
  - rewrite filter_cons_False; [done|]. unfold kept. rewrite Hpos, Hcol, Hz. done.
  - rewrite filter_cons_True; [by rewrite <-app_assoc|].
    unfold kept. by rewrite Hpos, Hcol, Hz.
Qed.

Lemma filter_sorted {A} (R : relation A) (P : A → Prop) `{!∀ x, Decision (P x)} l :
  StronglySorted R l → StronglySorted R (filter P l).
Proof.
  induction 1 as [|x l Hl IH Hx]; [constructor|].
  rewrite filter_cons. case_decide; [|done]. constructor; [done|].
  apply Forall_forall. intros y [_ Hy]%list_elem_of_filter.
  by eapply Forall_forall in Hx.
Qed.

Lemma seqZ_sorted n : ∀ m, StronglySorted Z.lt (seqZ m (Z.of_nat n)).
Proof.
  induction n as [|n IH]; intros m.
  { rewrite seqZ_nil by lia. constructor. }
  rewrite seqZ_cons by lia. replace (Z.pred (Z.of_nat (S n))) with (Z.of_nat n) by lia.
  constructor; [apply IH|].
  apply Forall_forall. intros y Hy%elem_of_seqZ. lia.
Qed.

(** A kept component has an entry above the threshold. *)
Lemma kept_entry norb ftau c :
  kept norb ftau c = true →
  ∃ pos t x, position X norb c = Some pos ∧ get ftau (t :: pos) = Some x
             ∧ np_abs_gt x threshold = true.
Proof.
  unfold kept. destruct (position X norb c) as [pos|]; [|done].
  destruct (column ftau pos) as [col|] eqn:Hcol; [|done].
  unfold all_zeros. rewrite negb_involutive. intros Hex.
  apply existsb_exists in Hex as (x & Hx & Hgt).
  unfold column in Hcol. destruct (ravel _ pos); simplify_eq/=.
  apply mapM_Some_1 in Hcol.
  apply list_elem_of_In, list_elem_of_lookup in Hx as [i Hi].
  destruct (Forall2_lookup_r _ _ _ _ _ Hcol Hi) as (t & _ & Ht). eauto 10.
Qed.

(** The loop of lines 381-400 completes only if every index of the
    range has a position and a column. *)
Lemma enumerate_defined norb ftau range : ∀ components cs,
  enumerate X norb ftau range components = Some cs →
  ∀ c, c ∈ range → ∃ pos col, position X norb c = Some pos ∧ column ftau pos = Some col.
Proof.
  induction range as [|c0 range IH]; intros components cs H c Hc; [by inversion Hc|].
  simpl in H.
  destruct (position X norb c0) as [pos|] eqn:Hpos; simpl in H; [|done].
  destruct (column ftau pos) as [col|] eqn:Hcol; simpl in H; [|done].
  apply elem_of_cons in Hc as [->|Hc]; [eauto|].
  eapply IH; eauto.
Qed.

(** A component with an entry above the threshold is kept. *)
Lemma entry_kept norb ftau c pos col t x :
  position X norb c = Some pos → column ftau pos = Some col →
  get ftau (t :: pos) = Some x → np_abs_gt x threshold = true →
  kept norb ftau c = true.
Proof.
  intros Hpos Hcol Hget Hgt. unfold kept. rewrite Hpos, Hcol.
  unfold all_zeros. rewrite negb_involutive. apply existsb_exists.
  exists x. split; [|done]. apply list_elem_of_In, list_elem_of_lookup.
  unfold column in Hcol. destruct (ravel _ pos); simplify_eq/=.
  apply mapM_Some_1 in Hcol.
  assert (t < default 0 (head (shape ftau))) as Ht.
  { unfold get in Hget. destruct (shape ftau) as [|d sh]; simpl in *; [done|].
    by case_decide. }
  destruct (Forall2_lookup_l _ _ _ t t Hcol) as (y & Hy & Hty).
  { by apply lookup_seq. }
  exists t. congruence.
Qed.

(** When every index of the range is pruned, nothing is appended. *)
Lemma enumerate_all_pruned norb ftau range : ∀ components,
  (∀ c, c ∈ range →
     ∃ pos col, position X norb c = Some pos ∧ column ftau pos = Some col
                ∧ all_zeros col = true) →
  enumerate X norb ftau range components = Some components.
Proof.
  induction range as [|c range IH]; intros components H; [done|]. simpl.
  destruct (H c) as (pos & col & -> & Hcol & Hz); [by left|]. simpl.
  rewrite Hcol. simpl. rewrite Hz. apply IH. intros c' Hc'. apply H. by right.
Qed.

(** *** Lines 405-409 *)

Lemma apportion_Ok max_time ncomp s s' u :
  apportion X max_time ncomp s = (s', Ok u) →
  ncomp ≠ 0 ∧ trace X s' = trace X s
  ∧ ((max_time ≤ 0)%Z →
       ∃ v n, cfg_QMC X s !! "Nmeas" = Some v ∧ py_int_div v ncomp = inr n
              ∧ cfg_QMC X s' = <["Nmeas" := VInt n]> (cfg_QMC X s))
  ∧ ((0 < max_time)%Z →
       ∃ n, py_int_div (VInt max_time) ncomp = inr n
            ∧ cfg_QMC X s' = <["measurement_time" := VInt n]> (cfg_QMC X s)).
Proof.
  unfold apportion. case_bool_decide as Hm.
  - intros H.
    apply bind_Ok in H as (s1 & v & Hv & H).
    apply bind_Ok in Hv as (? & q & [= <- <-] & [Hv ->]%lift_opt_Ok).
    apply bind_Ok in H as (s1 & n & Hn & [= <-]).
    destruct (py_int_div v ncomp) as [e|n'] eqn:Hdiv; [done|].
    injection Hn as <- <-.
    split; [|split; [done|split; [eauto 10|lia]]].
    intros ->. by apply py_int_div_zero_fails in Hdiv.
  - intros H.
    apply bind_Ok in H as (s1 & n & Hn & [= <-]).
    destruct (py_int_div (VInt max_time) ncomp) as [e|n'] eqn:Hdiv; [done|].
    injection Hn as <- <-.
    split; [|split; [done|split; [lia|eauto]]].
    intros ->. by apply py_int_div_zero_fails in Hdiv.
Qed.

(** The operand of the division of line 407 or 409 is a float, or an
    int that binary64 can hold. *)
Definition budget_divisible (max_time : Z) (s : state X) : Prop :=
  if bool_decide (max_time ≤ 0)%Z then
    match cfg_QMC X s !! "Nmeas" with
    | Some (VInt z) => ∃ x, py_float_of_int z = inr x
    | Some (VFloat _) => True
    | _ => False
    end
  else ∃ x, py_float_of_int max_time = inr x.

Lemma apportion_no_component max_time s :
  budget_divisible max_time s →
  apportion X max_time 0 s = (s, Raise ZeroDivisionError).
Proof.
  unfold apportion, budget_divisible. case_bool_decide as Hm.
  - intros Hv. unfold qmc_get. rewrite !bind_run. simpl.
    destruct (cfg_QMC X s !! "Nmeas") as [[z|x|]|]; [| |done..]; simpl.
    + rewrite py_int_div_zero; [done| |done]. by intros ? [= <-].
    + done.
  - intros Hv. rewrite bind_run, py_int_div_zero; [done| |done]. by intros ? [= <-].
Qed.

(** *** Lines 411-437 *)

Definition component_events (imp_problem : ImpurityProblem V) (U : ndarray V)
    (qmc : gmap string cfgval) (components : list Z) : list (event V) :=
  components ≫= λ c,
    [EvSetProblem imp_problem None; EvSetUmatrix U; EvSolveComponent qmc 1 2 c].

Lemma run_components_Ok norb L imp_problem U components : ∀ acc s s' acc',
  run_components X norb L imp_problem U components acc s = (s', Ok acc') →
  wf acc.2 → shape acc.2 = [1; norb; 2; norb; 2; L] →
  cfg_QMC X s' = cfg_QMC X s
  ∧ trace X s' = trace X s ++ component_events imp_problem U (cfg_QMC X s) components
  ∧ wf acc'.2 ∧ shape acc'.2 = [1; norb; 2; norb; 2; L]
  ∧ ∀ pos, length pos = 4 →
      (∀ c, c ∈ components → position X norb c ≠ Some pos) →
      get_slab acc'.2 (0 :: pos) = get_slab acc.2 (0 :: pos).
Proof.
  induction components as [|c components IH]; intros acc s s' acc' H Hwf Hsh; simpl in H.
  { injection H as <- <-. unfold component_events. simpl.
    by rewrite app_nil_r. }
  apply bind_Ok in H as (s1 & [] & H1 & H).
  apply bind_Ok in H as (s2 & [] & H2 & H).
  apply bind_Ok in H as (s3 & res & H3 & H).
  apply bind_Ok in H as (? & pos & [Hpos ->]%lift_opt_Ok & H).
  apply bind_Ok in H as (? & name & [Hname ->]%lift_opt_Ok & H).
  apply bind_Ok in H as (? & src & [Hsrc ->]%lift_opt_Ok & H).
  apply bind_Ok in H as (? & row & [Hrow ->]%lift_opt_Ok & H).
  apply bind_Ok in H as (? & gtau & [Hset ->]%lift_opt_Ok & H).
  assert (cfg_QMC X s3 = cfg_QMC X s
          ∧ trace X s3 = trace X s ++
              [EvSetProblem imp_problem None; EvSetUmatrix U;
               EvSolveComponent (cfg_QMC X s) 1 2 c]) as [Hq3 Ht3].
  { unfold call_set_problem, call_set_umatrix, call_solve_component, the_solver,
      engine_return, emit in *.
    repeat match goal with
      | H : (_ ≫= _) _ = (_, Ok _) |- _ => apply bind_Ok in H as (? & ? & ? & H)
      | H : modify _ _ _ = (_, Ok _) |- _ => unfold modify in H; injection H as <-
      | H : gets _ _ _ = (_, Ok _) |- _ => unfold gets in H; injection H as <- <-
      | H : lift_opt _ _ _ _ = (_, Ok _) |- _ => apply lift_opt_Ok in H as [? ->]
      end.
    split; [done|]. simpl. by rewrite <-!app_assoc. }
  pose proof (set_slab_wf _ _ _ _ Hwf Hset) as Hwf'.
  pose proof (set_slab_shape _ _ _ _ Hset) as Hsh'.
  destruct (IH _ _ _ _ H Hwf' ltac:(simpl; congruence))
    as (Hq & Ht & Hwf'' & Hsh'' & Hslab).
  split; [congruence|]. split.
  { rewrite Ht, Ht3, Hq3. unfold component_events. simpl. by rewrite <-app_assoc. }
  split; [done|]. split; [done|].
  intros pos' Hlen Hne. rewrite Hslab; [|done|].
  - simpl. apply (get_slab_set_slab_ne _ _ _ _ _ Hwf Hset).
    + simpl. rewrite Hlen. unfold position in Hpos.
      repeat (destruct (_ !! _); simplify_eq/=). done.
    + intros [= ->]. by apply (Hne c); [left|].
  - intros c' Hc'. apply Hne. by right.
Qed.

Lemma component_events_calls imp_problem U qmc components :
  solve_component_calls (component_events imp_problem U qmc components) = components.
Proof.
  unfold solve_component_calls, component_events.
  induction components as [|c components IH]; [done|]. simpl. by f_equal.
Qed.

Lemma component_events_cfgs imp_problem U qmc components :
  solve_component_cfgs (component_events imp_problem U qmc components)
  = replicate (length components) qmc.
Proof.
  unfold solve_component_cfgs, component_events.
  induction components as [|c components IH]; [done|]. simpl. by f_equal.
Qed.

Lemma prints_no_calls (t : list (event V)) :
  Forall is_print t → solve_component_calls t = [] ∧ solve_component_cfgs t = [].
Proof.
  unfold solve_component_calls, solve_component_cfgs.
  induction 1 as [|[] t He _ [IH1 IH2]]; try done.
Qed.

Lemma total_cycles_replicate (t : list (event V)) n q :
  solve_component_cfgs t = replicate n q → total_cycles t = (Z.of_nat n * cycles q)%Z.
Proof.
  unfold total_cycles. intros ->. induction n as [|n IH]; [done|].
  simpl replicate. rewrite fmap_cons. simpl foldr. rewrite IH. lia.
Qed.

(** *** The sector as a whole *)

Lemma worm_two_operator_Ok self l imp_problem U s s' rg :
  worm_two_operator X self l imp_problem U s = (s', Ok rg) →
  ∃ components gtau prints s1,
    components
    = filter (λ c, kept (norb l) (ip_ftau imp_problem) c = true)
        (seqZ 1 (Z.of_nat ((2 * norb l) ^ 2)))
    ∧ rg.2 = Some (GtauSample gtau (mpi_size X))
    ∧ Forall is_print prints
    ∧ apportion X (max_time l) (length components)
        (set_trace X (λ t, t ++ prints) s) = (s1, Ok tt)
    ∧ trace X s'
      = trace X s ++ prints ++ component_events imp_problem U (cfg_QMC X s1) components
    ∧ cfg_QMC X s' = cfg_QMC X s1
    ∧ wf gtau ∧ shape gtau = [1; norb l; 2; norb l; 2; 2 * n_tau self]
    ∧ ∀ pos p,
        ravel [norb l; 2; norb l; 2] pos = Some p →
        (∀ c, c ∈ components → position X (norb l) c ≠ Some pos) →
        get_slab gtau (0 :: pos) = Some (replicate (2 * n_tau self) np_zero).
Proof.
  unfold worm_two_operator. intros H.
  apply bind_Ok in H as (? & components & [Henum ->]%lift_opt_Ok & H).
  apply enumerate_filter in Henum. rewrite app_nil_l in Henum.
  apply bind_Ok in H as (s0 & [] & Hprint & H).
  apply bind_Ok in H as (s1 & [] & Happ & H).
  apply bind_Ok in H as (s2 & r & Hrun & [= <- <-]).
  set (gtau0 := zeros np_zero [1; norb l; 2; norb l; 2; 2 * n_tau self]) in *.
  destruct (run_components_Ok _ _ _ _ _ _ _ _ _ Hrun (zeros_wf _ _) eq_refl)
    as (Hq & Ht & Hwf & Hsh & Hslab).
  destruct (apportion_Ok _ _ _ _ _ Happ) as (_ & Ht1 & _).
  assert (∃ prints, Forall is_print prints ∧ s0 = set_trace X (λ t, t ++ prints) s)
    as (prints & Hprints & ->).
  { unfold print_rank0 in Hprint. case_decide.
    - injection Hprint as <-. exists [EvPrint "worm components to measure: "].
      split; [by repeat constructor|done].
    - injection Hprint as <-. exists []. split; [constructor|].
      destruct s; unfold set_trace; simpl. by rewrite app_nil_r. }
  exists components, r.2, prints, s1. cbn [fst snd].
  split; [done|]. split; [done|]. split; [done|]. split; [done|].
  split; [by rewrite Ht, Ht1; simpl; rewrite <-app_assoc|].
  split; [done|]. split; [done|]. split; [done|].
  intros pos p Hp Hne.
  pose proof (ravel_length _ _ _ Hp) as Hlen; simpl in Hlen.
  rewrite Hslab; [|done|done].
  change ((None, None, gtau0).2) with gtau0. unfold gtau0.
  rewrite (get_slab_zeros _ _ (0 :: pos) p).
  - simpl length. rewrite Hlen. simpl. by rewrite Nat.mul_1_r.
  - simpl length. rewrite Hlen.
    change (take 5 [1; norb l; 2; norb l; 2; 2 * n_tau self])
      with (1 :: [norb l; 2; norb l; 2]).
    change (ravel (1 :: [norb l; 2; norb l; 2]) (0 :: pos))
      with (if decide (0 < 1)
            then p ← ravel [norb l; 2; norb l; 2] pos;
                 Some (0 * size [norb l; 2; norb l; 2] + p)
            else None).
    rewrite Hp. by case_decide; [|lia].
Qed.

(** *** Line 437: what the retained components leave in [gtau] *)

(** Lines 413-415 on the solver object [e]: the object they leave and
    the result of [solve_component(1, 2, c)]. *)
Definition component_call (qmc : gmap string cfgval) (imp_problem : ImpurityProblem V)
    (U : ndarray V) (e : engine X) (c : Z) : engine X * option (result V) :=
  solve_component X (set_umatrix X (set_problem X e imp_problem None) U) qmc 1 2 c.

(** The results of the passes of the loop, in order, from the solver
    object [e] on. *)
Fixpoint component_answers (qmc : gmap string cfgval) (imp_problem : ImpurityProblem V)
    (U : ndarray V) (e : engine X) (components : list Z) : list (option (result V)) :=
  match components with
  | [] => []
  | c :: rest =>
      (component_call qmc imp_problem U e c).2
      :: component_answers qmc imp_problem U (component_call qmc imp_problem U e c).1 rest
  end.

(** [gtau_name] in pass [i], from the results of the passes up to it:
    the last key that contains "gtau-worm" (lines 417-420). *)
Definition gtau_name_at (old : option string) (results : list (result V)) (i : nat)
    : option string :=
  foldl (λ name r, last_key "gtau-worm" (other r) name) old (take (S i) results).

Lemma apportion_solver max_time ncomp s s' u :
  apportion X max_time ncomp s = (s', Ok u) → solver X s' = solver X s.
Proof.
  unfold apportion. case_bool_decide as Hm.
  - intros H.
    apply bind_Ok in H as (s1 & v & Hv & H).
    apply bind_Ok in Hv as (? & q & [= <- <-] & [Hv ->]%lift_opt_Ok).
    apply bind_Ok in H as (s1 & n & Hn & [= <-]).
    destruct (py_int_div v ncomp) as [e|n'] eqn:Hdiv; [done|]. by injection Hn as <- <-.
  - intros H.
    apply bind_Ok in H as (s1 & n & Hn & [= <-]).
    destruct (py_int_div (VInt max_time) ncomp) as [e|n'] eqn:Hdiv; [done|].
    by injection Hn as <- <-.
Qed.

(** One pass up to line 415. *)
Lemma component_pass imp_problem U c s s1 s2 s3 res :
  call_set_problem X imp_problem None s = (s1, Ok ()) →
  call_set_umatrix X U s1 = (s2, Ok ()) →
  call_solve_component X 1 2 c s2 = (s3, Ok res) →
  ∃ e, solver X s = Some e
       ∧ solver X s3 = Some (component_call (cfg_QMC X s) imp_problem U e c).1
       ∧ (component_call (cfg_QMC X s) imp_problem U e c).2 = Some res
       ∧ cfg_QMC X s3 = cfg_QMC X s.
Proof.
  unfold call_set_problem, call_set_umatrix, call_solve_component, the_solver,
    engine_return, emit, modify, gets, component_call.
  rewrite !bind_run. simpl.
  destruct (solver X s) as [e|] eqn:He; simpl; [|done].
  intros [= <-]. simpl. intros [= <-]. simpl. rewrite ?bind_run. simpl.
  destruct (solve_component X _ _ 1%Z 2%Z c) as [e' [r|]] eqn:Hc; simpl; [|done].
  intros [= <- <-]. exists e. by rewrite Hc.
Qed.

Lemma run_components_slabs norb L imp_problem U components : ∀ acc s s' acc' e,
  run_components X norb L imp_problem U components acc s = (s', Ok acc') →
  wf acc.2 → shape acc.2 = [1; norb; 2; norb; 2; L] →
  solver X s = Some e →
  ∃ results,
    component_answers (cfg_QMC X s) imp_problem U e components = Some <$> results
    ∧ ∀ i c pos,
        components !! i = Some c → position X norb c = Some pos →
        (∀ j c', i < j → components !! j = Some c' → position X norb c' ≠ Some pos) →
        ∃ r name src row,
          results !! i = Some r
          ∧ gtau_name_at acc.1.2 results i = Some name
          ∧ dict_get name (other r) = Some src
          ∧ broadcast_row L src = Some row
          ∧ get_slab acc'.2 (0 :: pos) = Some row.
Proof.
  induction components as [|c components IH]; intros acc s s' acc' e H Hwf Hsh He; simpl in H.
  { exists []. split; [done|]. by intros i c pos [=]. }
  apply bind_Ok in H as (s1 & [] & H1 & H).
  apply bind_Ok in H as (s2 & [] & H2 & H).
  apply bind_Ok in H as (s3 & res & H3 & H).
  apply bind_Ok in H as (? & pos & [Hpos ->]%lift_opt_Ok & H).
  apply bind_Ok in H as (? & name & [Hname ->]%lift_opt_Ok & H).
  apply bind_Ok in H as (? & src & [Hsrc ->]%lift_opt_Ok & H).
  apply bind_Ok in H as (? & row & [Hrow ->]%lift_opt_Ok & H).
  apply bind_Ok in H as (? & gtau & [Hset ->]%lift_opt_Ok & H).
  destruct (component_pass _ _ _ _ _ _ _ _ H1 H2 H3) as (e0 & He0 & He3 & Hres & Hq3).
  rewrite He in He0. injection He0 as <-.
  pose proof (set_slab_wf _ _ _ _ Hwf Hset) as Hwf'.
  pose proof (set_slab_shape _ _ _ _ Hset) as Hsh'.
  destruct (IH _ _ _ _ _ H Hwf' ltac:(simpl; congruence) He3) as (results & Hans & Hslabs).
  destruct (run_components_Ok _ _ _ _ _ _ _ _ _ H Hwf' ltac:(simpl; congruence))
    as (_ & _ & _ & _ & Hkeep).
  exists (res :: results). split.
  { simpl. rewrite Hres. f_equal. rewrite Hq3 in Hans. exact Hans. }
  intros [|i] c' pos' Hc' Hpos' Hlater; simpl in Hc'.
  - injection Hc' as <-. rewrite Hpos in Hpos'. injection Hpos' as <-.
    exists res, name, src, row.
    split; [done|]. split; [done|]. split; [done|]. split; [done|].
    rewrite Hkeep.
    + simpl. by apply (get_slab_set_slab _ _ _ _ Hwf Hset).
    + unfold position in Hpos. repeat (destruct (_ !! _); simplify_eq/=). done.
    + intros c' [j Hj]%list_elem_of_lookup. apply (Hlater (S j) c'); [lia|done].
  - destruct (Hslabs i c' pos' Hc' Hpos') as (r & name' & src' & row' & ? & ? & ? & ? & ?).
    { intros j c'' Hj. apply (Hlater (S j) c''). lia. }
    by exists r, name', src', row'.
Qed.

(** Each retained component leaves in its slab of the array returned
    the entry of its result under [gtau_name], unless a later component
    has the same flavour position. *)
Lemma worm_two_operator_slabs self l imp_problem U s s' rg :
  worm_two_operator X self l imp_problem U s = (s', Ok rg) →
  ∃ e results gtau,
    solver X s = Some e
    ∧ rg.2 = Some (GtauSample gtau (mpi_size X))
    ∧ component_answers (cfg_QMC X s') imp_problem U e
        (filter (λ c, kept (norb l) (ip_ftau imp_problem) c = true)
           (seqZ 1 (Z.of_nat ((2 * norb l) ^ 2))))
      = Some <$> results
    ∧ ∀ i c pos,
        filter (λ c, kept (norb l) (ip_ftau imp_problem) c = true)
          (seqZ 1 (Z.of_nat ((2 * norb l) ^ 2))) !! i = Some c →
        position X (norb l) c = Some pos →
        (∀ j c', i < j →
           filter (λ c, kept (norb l) (ip_ftau imp_problem) c = true)
             (seqZ 1 (Z.of_nat ((2 * norb l) ^ 2))) !! j = Some c' →
           position X (norb l) c' ≠ Some pos) →
        ∃ r name src row,
          results !! i = Some r
          ∧ gtau_name_at None results i = Some name
          ∧ dict_get name (other r) = Some src
          ∧ broadcast_row (2 * n_tau self) src = Some row
          ∧ get_slab gtau (0 :: pos) = Some row.
Proof.
  unfold worm_two_operator. intros H.
  apply bind_Ok in H as (? & components & [Henum ->]%lift_opt_Ok & H).
  apply enumerate_filter in Henum. rewrite app_nil_l in Henum. rewrite <-Henum.
  apply bind_Ok in H as (s0 & [] & Hprint & H).
  apply bind_Ok in H as (s1 & [] & Happ & H).
  apply bind_Ok in H as (s2 & r & Hrun & [= <- <-]).
  destruct (apportion_Ok _ _ _ _ _ Happ) as (Hne & _).
  pose proof (apportion_solver _ _ _ _ _ Happ) as Hs1.
  assert (solver X s0 = solver X s) as Hs0.
  { unfold print_rank0 in Hprint. case_decide; by injection Hprint as <-. }
  destruct (run_components_Ok _ _ _ _ _ _ _ _ _ Hrun (zeros_wf _ _) eq_refl) as (Hq & _).
  assert (∃ e, solver X s1 = Some e) as [e He].
  { destruct components as [|c cs]; [done|].
    simpl in Hrun. apply bind_Ok in Hrun as (? & [] & H1 & Hrun).
    apply bind_Ok in Hrun as (? & [] & H2 & Hrun).
    apply bind_Ok in Hrun as (? & res & H3 & _).
    destruct (component_pass _ _ _ _ _ _ _ _ H1 H2 H3) as (e & He & _). eauto. }
  destruct (run_components_slabs _ _ _ _ _ _ _ _ _ e Hrun (zeros_wf _ _) eq_refl He)
    as (results & Hans & Hslabs).
  exists e, results, r.2. cbn [fst snd].
  split; [congruence|]. split; [done|]. split; [by rewrite Hq|]. exact Hslabs.
Qed.

(** Lines 375-409 with every component pruned: the division of line
    407 or 409 is by [float(0)]. *)
Lemma worm_two_operator_no_component self l imp_problem U s :
  (∀ c, (1 ≤ c ≤ Z.of_nat ((2 * norb l) ^ 2))%Z →
     ∃ pos col, position X (norb l) c = Some pos
                ∧ column (ip_ftau imp_problem) pos = Some col
                ∧ all_zeros col = true) →
  budget_divisible (max_time l) s →
  (worm_two_operator X self l imp_problem U s).2 = Raise ZeroDivisionError
  ∧ Forall is_print (drop (length (trace X s)) (trace X (worm_two_operator X self l imp_problem U s).1)).
Proof.
  intros Hall Hq. unfold worm_two_operator.
  rewrite bind_run.
  rewrite (enumerate_all_pruned (norb l) (ip_ftau imp_problem)).
  2:{ intros c Hc%elem_of_seqZ. apply Hall. lia. }
  simpl. rewrite bind_run.
  assert (∃ prints, Forall is_print prints
            ∧ print_rank0 X "worm components to measure: " s
              = (set_trace X (λ t, t ++ prints) s, Ok tt)) as (prints & Hp & ->).
  { unfold print_rank0. case_decide.
    - exists [EvPrint "worm components to measure: "]. split; [by repeat constructor|done].
    - exists []. split; [constructor|]. destruct s; unfold set_trace; simpl.
      by rewrite app_nil_r. }
  rewrite bind_run, apportion_no_component by done. simpl.
  split; [done|]. by rewrite drop_app_length.
Qed.

End Facts.

(** On float64, [np.abs(x) <= t] excludes [np.abs(x) > t]. *)
Lemma SFcompare_antisym x y :
  SFcompare x y = option_map CompOpp (SFcompare y x).
Proof.
  destruct x as [[]| [] | | [] mx ex], y as [[]| [] | | [] my ey]; simpl; try reflexivity.
  all: rewrite (Z.compare_antisym ex ey); destruct (ex ?= ey)%Z; simpl; try reflexivity.
  all: change (Pos.compare_cont Eq my mx) with (Pos.compare my mx);
       change (Pos.compare_cont Eq mx my) with (Pos.compare mx my);
       rewrite (Pos.compare_antisym mx my); destruct (mx ?= my)%positive; reflexivity.
Qed.

Lemma float_abs_le_gt (x t : float) : np_abs_le x t = true → np_abs_gt x t = false.
Proof.
  simpl. rewrite leb_spec, ltb_spec. unfold SFleb, SFltb.
  rewrite (SFcompare_antisym (Prim2SF t)).
  destruct (SFcompare (Prim2SF (PrimFloat.abs x)) (Prim2SF t)) as [[]|]; simpl; congruence.
Qed.

End SectorFacts.

(** ** The call as a whole *)

Module RunFacts.
Import NdArray Py Solver NdArrayFacts CallFacts SolveFacts.

Section Facts.
Context {V : Type} `{!NumpyScalar V} (X : externals V).

(** The configurations from which the call builds a solver object, in
    the order of the constructions. *)
Definition constructions (t : list (event V)) : list (gmap string cfgval) :=
  omap (λ e, match e with EvCtHybSolver q _ => Some q | _ => None end) t.

(** A sampling call as lines 648-650 make it. *)
Definition automatic_sampling (e : event V) : Prop :=
  match e with
  | EvSolveCompStats _ iter_no sector _ => iter_no = 1%Z ∧ sector = 4%Z
  | _ => False
  end.

(** The mapping [cfg_qmc] applied to a configuration, entry by entry. *)
Definition apply_manual (m : list (string * cfgval)) (q : gmap string cfgval)
    : gmap string cfgval :=
  foldl (λ q kv, <[kv.1 := kv.2]> q) q m.

Lemma constructions_app (t1 t2 : list (event V)) :
  constructions (t1 ++ t2) = constructions t1 ++ constructions t2.
Proof. apply omap_app. Qed.

Lemma constructions_none (P : event V → Prop) (t : list (event V)) :
  (∀ q seed, ¬ P (EvCtHybSolver q seed)) → Forall P t → constructions t = [].
Proof.
  intros HP. unfold constructions. induction 1 as [|e t He _ IH]; [done|].
  destruct e; simpl; try done. by destruct (HP _ _ He).
Qed.

Lemma constructions_prints (t : list (event V)) : Forall is_print t → constructions t = [].
Proof. apply constructions_none. by intros ?? []. Qed.

Lemma constructions_dispatch imp_problem U (t : list (event V)) :
  Forall (dispatch_event imp_problem U) t → constructions t = [].
Proof. apply constructions_none. by intros ?? []. Qed.

(** *** The configuration after [configure] *)

Lemma apply_manual_notin m : ∀ q k, k ∉ m.*1 → apply_manual m q !! k = q !! k.
Proof.
  induction m as [|[k' v'] m IH]; intros q k Hk; [done|].
  simpl in *. apply not_elem_of_cons in Hk as [Hne Hk].
  rewrite IH by done. by apply lookup_insert_ne.
Qed.

Lemma apply_manual_last m1 k v m2 q :
  k ∉ m2.*1 → apply_manual (m1 ++ (k, v) :: m2) q !! k = Some v.
Proof.
  intros Hk. unfold apply_manual. rewrite foldl_app. simpl.
  fold (apply_manual m1 q). fold (apply_manual m2 (<[k:=v]> (apply_manual m1 q))).
  rewrite apply_manual_notin by done. apply lookup_insert_eq.
Qed.

Lemma configure_manual_Ok l s s' u :
  configure_manual X l s = (s', Ok u) →
  cfg_QMC X s' = apply_manual (default [] (cfg_qmc l)) (cfg_QMC X s).
Proof.
  unfold configure_manual. generalize (default [] (cfg_qmc l)). intros m.
  revert s. induction m as [|[k v] m IH]; intros s H; simpl in H.
  { by injection H as <-. }
  apply bind_Ok in H as (s1 & [] & H1 & H).
  apply IH in H. rewrite H. simpl. f_equal.
  apply bind_Ok in H1 as (s0 & [] & [= <-] & Hp).
  unfold print_rank0 in Hp. case_decide; by injection Hp as <-.
Qed.

(** After lines 222-307 every entry of [cfg_qmc] holds, the last one
    where a key is given twice. *)
Lemma configure_manual_wins self l s s' u m1 k v m2 :
  configure X self l s = (s', Ok u) →
  default [] (cfg_qmc l) = m1 ++ (k, v) :: m2 → k ∉ m2.*1 →
  cfg_QMC X s' !! k = Some v.
Proof.
  intros H Hm Hk. unfold configure in H.
  apply bind_Ok in H as (sa & [] & _ & H).
  apply bind_Ok in H as (sb & [] & _ & H).
  apply bind_Ok in H as (sc & [] & Hman & H).
  destruct (configure_echo_prints X _ _ _ H) as [Hmv _].
  rewrite (moves_key X _ _ _ _ k Hmv) by (by intros []).
  rewrite (configure_manual_Ok _ _ _ _ Hman), Hm.
  by apply apply_manual_last.
Qed.

(** In worm mode lines 279-286 decide the two probabilities, unless
    [cfg_qmc] gives them. *)
Lemma configure_worm_probabilities self l s s' u :
  configure X self l s = (s', Ok u) → worm l = true →
  ("PercentageWormInsert" ∉ (default [] (cfg_qmc l)).*1 →
     cfg_QMC X s' !! "PercentageWormInsert"
     = Some (worm_probability (percentageworminsert l)))
  ∧ ("PercentageWormReplace" ∉ (default [] (cfg_qmc l)).*1 →
     cfg_QMC X s' !! "PercentageWormReplace"
     = Some (worm_probability (percentagewormreplace l))).
Proof.
  intros H Hw. unfold configure in H.
  apply bind_Ok in H as (sa & [] & _ & H).
  apply bind_Ok in H as (sb & [] & Hworm & H).
  apply bind_Ok in H as (sc & [] & Hman & H).
  destruct (configure_echo_prints X _ _ _ H) as [Hecho _].
  destruct (configure_manual_prints X l _ _ _ Hman) as [Hmanual _].
  assert (cfg_QMC X sb !! "PercentageWormInsert"
          = Some (worm_probability (percentageworminsert l))
          ∧ cfg_QMC X sb !! "PercentageWormReplace"
            = Some (worm_probability (percentagewormreplace l))) as [Hi Hr].
  { unfold configure_worm in Hworm. rewrite Hw in Hworm.
    apply bind_Ok in Hworm as (s0 & [] & _ & Hworm).
    apply bind_Ok in Hworm as (s1 & [] & [= <-] & [= <-]). simpl.
    split; [|apply lookup_insert_eq].
    rewrite lookup_insert_ne by done. apply lookup_insert_eq. }
  split; intros Hk.
  - rewrite (moves_key X _ _ _ _ _ Hecho) by (by intros []).
    by rewrite (moves_key X _ _ _ _ _ Hmanual).
  - rewrite (moves_key X _ _ _ _ _ Hecho) by (by intros []).
    by rewrite (moves_key X _ _ _ _ _ Hmanual).
Qed.

(** *** The phases of a call *)

(** A call either ends before line 314, having printed at most, or
    builds the solver object from the configuration that lines 222-307
    leave and goes on to the dispatcher. *)
Lemma run_solve_cases self kw :
  (Forall is_print (trace X (run_solve X self kw).1)
   ∧ ∀ v, (run_solve X self kw).2 ≠ Ok v)
  ∨ ∃ s1 l s2 s3,
      translate X self kw (init_state X self) = (s1, Ok l)
      ∧ configure X self l s1 = (s2, Ok tt)
      ∧ Forall is_print (trace X s2)
      ∧ trace X s3
        = trace X s2 ++ [EvCtHybSolver (cfg_QMC X s2) (seed_of X l);
                         EvPrint "........................................";
                         EvSetProblem (problem_of self l) None]
      ∧ cfg_QMC X s3 = cfg_QMC X s2
      ∧ run_solve X self kw
        = (dispatch X self l (problem_of self l) (umatrix_of self l)
             ≫= after_dispatch X l (problem_of self l) (umatrix_of self l)) s3.
Proof.
  unfold run_solve. rewrite solve_unfold, bind_run.
  destruct (translate X self kw (init_state X self)) as [s1 [l|e]] eqn:Ht;
    destruct (translate_quiet X self kw _ _ _ Ht) as [Hq%moves_quiet _];
    [|left; simpl; rewrite Hq; by split; [constructor|]..].
  simpl in Hq. unfold after_translate, check_complex_worm.
  destruct (complex self && worm l).
  { left. rewrite !bind_run. unfold print, emit, modify. simpl. rewrite Hq. simpl.
    split; [by repeat constructor|done]. }
  rewrite bind_run. change ((mret () : M X ()) s1) with (s1, Ok ()).
  cbn iota. rewrite bind_run.
  destruct (configure X self l s1) as [s2 [[]|e]] eqn:Hc;
    destruct (configure_prints X self l _ _ _ Hc) as [[(t & Htr & Hpr) _] _];
    rewrite Hq in Htr; simpl in Htr;
    [|left; simpl; rewrite Htr; by split..].
  right. unfold after_configure. rewrite bind_run.
  destruct (build_run X self l s2) as (s3 & Hb & Htr3 & Hq3). rewrite Hb.
  exists s1, l, s2, s3.
  split; [done|]. split; [done|]. split; [by rewrite Htr|].
  split; [done|]. split; [done|]. reflexivity.
Qed.

(** With a manual mapping the rest of the call, from the dispatcher
    on, shows the engine what the dispatcher shows it, and changes no
    key of the configuration but the two budgets. *)
Lemma manual_rest_events self l imp_problem U :
  default [] (cfg_qmc l) ≠ [] →
  preserves X (moves X (dispatch_event imp_problem U) budget_key) late_failure
    (dispatch X self l imp_problem U ≫= after_dispatch X l imp_problem U).
Proof.
  intros Hm. apply preserves_bind; [apply _|apply dispatch_events|intros rg _].
  unfold after_dispatch.
  intros s s' o. rewrite bind_run, (two_particle_skip X l imp_problem U s Hm).
  intros Hc. destruct (convert_quiet X l rg.1 rg.2 _ _ _ Hc) as [Hmv Hf].
  split; [|done]. eapply moves_mono; [| |exact Hmv]; [by intros ?|by intros ?].
Qed.

Lemma rest_events self l :
  preserves X (moves X (run_event self l) any_key) late_failure
    (dispatch X self l (problem_of self l) (umatrix_of self l)
       ≫= after_dispatch X l (problem_of self l) (umatrix_of self l)).
Proof.
  apply preserves_bind; [apply _| |intros rg _].
  { eapply preserves_mono; [| |apply dispatch_events]; [|done].
    intros ??. apply moves_mono; [|done].
    intros [] ?; simpl in *; tauto. }
  apply after_dispatch_events.
Qed.

(** What a computation returns when it returns. *)
Definition yields {A} (Q : A → Prop) (m : M X A) : Prop :=
  ∀ s s' a, m s = (s', Ok a) → Q a.

Lemma yields_bind {A B} (Q : B → Prop) (m : M X A) (f : A → M X B) :
  (∀ a, yields Q (f a)) → yields Q (m ≫= f).
Proof. intros H s s' b (s1 & a & _ & Hf)%bind_Ok. by eapply H. Qed.

Lemma yields_ret {A} (Q : A → Prop) (a : A) : Q a → yields Q (mret a : M X A).
Proof. by intros H s s' b [= <- <-]. Qed.

(** Lines 682-726 return nothing or [result], never the mapping of
    line 663. *)
Lemma convert_yields l res gtau :
  yields (λ v, ∀ g, v ≠ RetG4iw g) (convert X l res gtau).
Proof.
  unfold convert.
  apply yields_bind; intros _. apply yields_bind; intros _.
  apply yields_bind; intros _. apply yields_bind; intros b.
  destruct b; [by apply yields_ret|].
  destruct (measure_G_tau l); [|by apply yields_ret].
  apply yields_bind; intros r. by apply yields_ret.
Qed.

End Facts.
End RunFacts.

(** * The claims *)

Module Claims.
Import NdArray Py Solver NdArrayFacts TensorFacts CallFacts FloatFacts SolveFacts SectorFacts
  RunFacts Example.

Section Calls.
Context {V : Type} `{!NumpyScalar V} (X : externals V).


(** C4.  When the orbital count of the interaction tensor differs from
    that of the one-particle matrix, the call raises before any event,
    hence before any engine invocation; the error is the assertion of
    line 173 whenever the lines before it pass ([n_cycles] is given, the
    interaction tensor reshapes, the blocks of the hybridization have a
    time axis).  When the two counts agree, that assertion is never
    raised. *)
Theorem orbital_count_check (self : Self V) (kw : kwargs V) (U t : ndarray V) (dU dt : nat) :
  kw_h_int kw = Some U → hopping X self kw = Some t →
  head (shape U) = Some dU → head (shape t) = Some dt →
  (dU / 2 ≠ dt / 2 →
     trace X (run_solve X self kw).1 = []
     ∧ (∃ e, (run_solve X self kw).2 = Raise e)
     ∧ (is_Some (kw_n_cycles kw) → is_Some (transform_U (dU / 2) U) →
        is_Some (flip_Delta (hybridization self)) →
        (run_solve X self kw).2 = Raise (AssertionError orbital_mismatch)))
  ∧ (dU / 2 = dt / 2 →
     (run_solve X self kw).2 ≠ Raise (AssertionError orbital_mismatch)).
Proof.
  intros HU Ht HdU Hdt. unfold run_solve. rewrite solve_unfold, bind_run.
  destruct (translate X self kw (init_state X self)) as [s1 [l|e]] eqn:Htr.
  - destruct (translate_Ok X self kw (init_state X self) _ _ eq_refl Htr)
      as (U'&t'&dU'&dt'&?&HU'&Ht'&HdU'&Hdt'&Heq&_).
    assert (dt / 2 = dU / 2) as Hsame by congruence.
    split; [intros Hne; by rewrite Hsame in Hne|]. intros _ Hr.
    destruct (after_translate X self l s1) as [s2 o] eqn:Ha.
    destruct (after_translate_events X self l _ _ _ Ha) as [_ Hf].
    simpl in Hr. subst o. by apply (Hf _ eq_refl).
  - destruct (translate_quiet X self kw _ _ _ Htr) as [Hq%moves_quiet _].
    destruct (translate_Raise X self kw (init_state X self) _ _ _ _ _ _ eq_refl Htr HU Ht HdU Hdt)
      as [[-> Hne]|[Hne Hwhy]]; cbn [fst snd].
    + split; [|done]. intros _. split; [done|]. split; [by eexists|done].
    + split.
      * intros Hm. split; [done|]. split; [by eexists|].
        intros [? Hn] [? HtU] [? Hfl].
        destruct Hwhy as [H1|[H1|[H1|H1]]];
          [by rewrite H1 in Hn|by rewrite H1 in HtU|by rewrite H1 in Hfl|done].
      * intros _ [= ->]. done.
Qed.

(** C7 (amended).  Lines 146-149 only move entries: the tensor is
    viewed with axes (spin, orbital) four times over, each pair is
    swapped so that spin runs fastest, and the result is flattened
    again, so that entry [o1*2+s1, o2*2+s2, o3*2+s3, o4*2+s4] of the
    result is entry [s1*norb+o1, s2*norb+o2, s3*norb+o3, s4*norb+o4] of
    the tensor extracted from [h_int], with its value as it was: no
    factor and no sign is applied.  Every [solver.umatrix = U_ijkl] of
    the call hands the engine that tensor ([np.real] of it outside
    complex mode). *)
Theorem interaction_tensor_permuted (self : Self V) (kw : kwargs V) (U : ndarray V) (n : nat) :
  kw_h_int kw = Some U → wf U → shape U = [2 * n; 2 * n; 2 * n; 2 * n] →
  ∃ U', transform_U n U = Some U'
    ∧ shape U' = [n * 2; n * 2; n * 2; n * 2]
    ∧ (∀ o1 s1 o2 s2 o3 s3 o4 s4,
         o1 < n → s1 < 2 → o2 < n → s2 < 2 → o3 < n → s3 < 2 → o4 < n → s4 < 2 →
         get U' [o1 * 2 + s1; o2 * 2 + s2; o3 * 2 + s3; o4 * 2 + s4]
         = get U [s1 * n + o1; s2 * n + o2; s3 * n + o3; s4 * n + o4])
    ∧ Forall (λ e, match e with EvSetUmatrix U'' => U'' = cast self U' | _ => True end)
        (trace X (run_solve X self kw).1).
Proof.
  intros HU Hwf Hsh.
  destruct (transform_U_entries n U Hwf Hsh) as (U' & HU' & _ & Hsh' & Hget).
  exists U'. split; [done|]. split; [done|]. split; [done|].
  unfold run_solve. rewrite solve_unfold, bind_run.
  destruct (translate X self kw (init_state X self)) as [s1 [l|e]] eqn:Ht;
    destruct (translate_quiet X self kw _ _ _ Ht) as [Hq%moves_quiet _].
  - destruct (translate_Ok X self kw (init_state X self) _ _ eq_refl Ht)
      as (U0&?&dU&?&?&HU0&_&HdU&_&_&Hn&HtU&_).
    rewrite HU in HU0. injection HU0 as <-.
    assert (dU / 2 = n) as Hd.
    { rewrite Hsh in HdU. injection HdU as <-.
      change (n + (n + 0)) with (2 * n).
      rewrite (Nat.mul_comm 2 n). by apply Nat.div_mul. }
    rewrite Hd in HtU.
    rewrite HU' in HtU. injection HtU as HUl.
    destruct (after_translate X self l s1) as [s2 o] eqn:Ha.
    destruct (after_translate_events X self l _ _ _ Ha) as [[(t & Htr & Hall) _] _].
    cbn [fst]. rewrite Htr, Hq. simpl.
    eapply Forall_impl; [exact Hall|].
    intros [] He; try done. simpl in He. unfold umatrix_of in He. by rewrite <-HUl in He.
  - cbn [fst]. rewrite Hq. constructor.
Qed.

(** C8.  Lines 166-167 replace every block of the hybridization
    function by its negated time reversal: on a grid of [Ntau] points
    the new value at time index [i] is minus the old value at index
    [Ntau - 1 - i], whatever the remaining indices.  The [ftau] of
    every impurity problem handed to the engine is converted from the
    blocks so transformed. *)
Theorem hybridization_negated_reversed (self : Self V) (kw : kwargs V) :
  Forall (λ b, wf b.2 ∧ shape b.2 ≠ []) (hybridization self) →
  ∃ blocks',
    flip_Delta (hybridization self) = Some blocks'
    ∧ Forall2 (λ b b',
        b'.1 = b.1 ∧ shape b'.2 = shape b.2 ∧
        ∀ Ntau rest i idx p,
          shape b.2 = Ntau :: rest → i < Ntau → ravel rest idx = Some p →
          get b'.2 (i :: idx) = np_neg <$> get b.2 ((Ntau - 1 - i) :: idx))
        (hybridization self) blocks'
    ∧ Forall (λ e, match e with
                   | EvSetProblem p _ =>
                       ip_ftau p
                       = cast self (triqs_gf_to_w2dyn_ndarray_g_tosos_beta_ntau X blocks')
                   | _ => True
                   end)
        (trace X (run_solve X self kw).1).
Proof.
  intros Hwf.
  destruct (flip_Delta_blocks (hybridization self) Hwf) as (blocks' & Hflip & Hall).
  exists blocks'. split; [done|]. split.
  { eapply Forall2_impl; [exact Hall|]. intros b b' (?&?&?&?). eauto. }
  unfold run_solve. rewrite solve_unfold, bind_run.
  destruct (translate X self kw (init_state X self)) as [s1 [l|e]] eqn:Ht;
    destruct (translate_quiet X self kw _ _ _ Ht) as [Hq%moves_quiet _].
  - destruct (translate_Ok X self kw (init_state X self) _ _ eq_refl Ht)
      as (?&?&?&?&blocks&_&_&_&_&_&_&_&Hfl&_&Hftau&_).
    rewrite Hflip in Hfl. injection Hfl as <-.
    destruct (after_translate X self l s1) as [s2 o] eqn:Ha.
    destruct (after_translate_events X self l _ _ _ Ha) as [[(t & Htr & Hev) _] _].
    cbn [fst]. rewrite Htr, Hq. simpl.
    eapply Forall_impl; [exact Hev|].
    intros [] He; try done. simpl in He. rewrite He. simpl. by rewrite Hftau.
  - cbn [fst]. rewrite Hq. constructor.
Qed.

(** C2.  The two-operator worm sector goes through the compound
    indices 1 to (2*norb)^2 in ascending order and retains those whose
    column [ftau[:, b1, s1, b2, s2]] has an entry of absolute value
    above 1e-5: a component whose column is at most 1e-5 in absolute
    value at every time point is pruned.  After the print of the list
    the engine is called once per retained component, in that order
    ([set_problem], [umatrix], [solve_component(1, 2, c)]).  In the
    array returned every position (b1, s1, b2, s2) that belongs to no
    retained component holds zeros only, and the position of a retained
    component holds what the engine answered to its call: the entry of
    [result.other] under the last key that contains "gtau-worm" (line
    437), broadcast over the time axis, unless a later component writes
    the same position. *)
Theorem two_operator_components (self : Self V) (l : locals V)
    (imp_problem : ImpurityProblem V) (U : ndarray V) (s s' : state X)
    (rg : option (result V) * option (gtau_t V)) :
  (∀ x t, np_abs_le x t = true → np_abs_gt x t = false) →
  worm_two_operator X self l imp_problem U s = (s', Ok rg) →
  ∃ components gtau prints qmc e results,
    components
    = filter (λ c, kept X (norb l) (ip_ftau imp_problem) c = true)
        (seqZ 1 (Z.of_nat ((2 * norb l) ^ 2)))
    ∧ StronglySorted Z.lt components
    ∧ (∀ c pos,
         position X (norb l) c = Some pos →
         (∀ t x, get (ip_ftau imp_problem) (t :: pos) = Some x →
                 np_abs_le x threshold = true) →
         c ∉ components)
    ∧ (∀ c pos t x,
         (1 ≤ c ≤ Z.of_nat ((2 * norb l) ^ 2))%Z →
         position X (norb l) c = Some pos →
         get (ip_ftau imp_problem) (t :: pos) = Some x →
         np_abs_gt x threshold = true →
         c ∈ components)
    ∧ Forall is_print prints
    ∧ trace X s' = trace X s ++ prints ++ component_events imp_problem U qmc components
    ∧ solve_component_calls (prints ++ component_events imp_problem U qmc components)
      = components
    ∧ rg.2 = Some (GtauSample gtau (mpi_size X))
    ∧ shape gtau = [1; norb l; 2; norb l; 2; 2 * n_tau self]
    ∧ (∀ pos p,
         ravel [norb l; 2; norb l; 2] pos = Some p →
         (∀ c, c ∈ components → position X (norb l) c ≠ Some pos) →
         get_slab gtau (0 :: pos) = Some (replicate (2 * n_tau self) np_zero))
    ∧ solver X s = Some e
    ∧ component_answers X qmc imp_problem U e components = Some <$> results
    ∧ ∀ i c pos,
        components !! i = Some c →
        position X (norb l) c = Some pos →
        (∀ j c', i < j → components !! j = Some c' → position X (norb l) c' ≠ Some pos) →
        ∃ r name src row,
          results !! i = Some r
          ∧ gtau_name_at None results i = Some name
          ∧ dict_get name (other r) = Some src
          ∧ broadcast_row (2 * n_tau self) src = Some row
          ∧ get_slab gtau (0 :: pos) = Some row.
Proof.
  intros Hlaw H.
  assert (∃ cs, enumerate X (norb l) (ip_ftau imp_problem)
                  (seqZ 1 (Z.of_nat ((2 * norb l) ^ 2))) [] = Some cs) as [cs Henum].
  { unfold worm_two_operator in H.
    apply bind_Ok in H as (? & cs & [Henum _]%lift_opt_Ok & _). eauto. }
  destruct (worm_two_operator_Ok X self l imp_problem U s s' rg H)
    as (components & gtau & prints & s1 & Hc & Hrg & Hprints & _ & Htr & Hq & _ & Hsh & Hzero).
  destruct (worm_two_operator_slabs X self l imp_problem U s s' rg H)
    as (e & results & gtau' & He & Hrg' & Hans & Hslabs).
  rewrite Hrg in Hrg'. injection Hrg' as <-. rewrite <-Hc, Hq in Hans. rewrite <-Hc in Hslabs.
  exists components, gtau, prints, (cfg_QMC X s1), e, results.
  split; [done|]. split; [rewrite Hc; apply filter_sorted, seqZ_sorted|].
  split.
  { intros c pos Hpos Hle Hin. rewrite Hc in Hin.
    apply list_elem_of_filter in Hin as [Hk _].
    apply kept_entry in Hk as (pos' & t & x & Hpos' & Hget & Hgt).
    rewrite Hpos in Hpos'. injection Hpos' as <-.
    by rewrite (Hlaw _ _ (Hle _ _ Hget)) in Hgt. }
  split.
  { intros c pos t x Hr Hpos Hget Hgt. rewrite Hc. apply list_elem_of_filter.
    assert (c ∈ seqZ 1 (Z.of_nat ((2 * norb l) ^ 2))) as Hin by (apply elem_of_seqZ; lia).
    split; [|done].
    destruct (enumerate_defined X _ _ _ _ _ Henum c Hin) as (pos' & col & Hpos' & Hcol).
    rewrite Hpos in Hpos'. injection Hpos' as <-.
    by eapply entry_kept. }
  split; [done|]. split; [done|]. split.
  { unfold solve_component_calls. rewrite omap_app.
    destruct (prints_no_calls prints Hprints) as [Hn _].
    unfold solve_component_calls in Hn. rewrite Hn. apply component_events_calls. }
  split; [done|]. split; [done|]. split; [done|]. split; [done|]. split; [done|].
  exact Hslabs.
Qed.

(** C3 (amended).  With C retained components the two-operator worm
    sector calls the engine C times, each time with the same
    configuration.  Without a wall-clock budget ([max_time <= 0]) and
    with a total of T cycles in [cfg["QMC"]["Nmeas"]], that
    configuration holds floor(T/C) cycles, so that the calls are given
    floor(T/C)*C cycles in total, which is at most T.  With a wall-clock
    budget W > 0 it holds a measurement time of floor(W/C).  This is so
    for integers T, W and C below 2^53: lines 407 and 409 form the
    quotient in binary64, which holds such integers exactly and whose
    rounded quotient then truncates to the integer quotient. *)
Theorem budget_apportioned (self : Self V) (l : locals V)
    (imp_problem : ImpurityProblem V) (U : ndarray V) (s s' : state X)
    (rg : option (result V) * option (gtau_t V)) :
  worm_two_operator X self l imp_problem U s = (s', Ok rg) →
  ∃ C qmc t,
    C = length (filter (λ c, kept X (norb l) (ip_ftau imp_problem) c = true)
                  (seqZ 1 (Z.of_nat ((2 * norb l) ^ 2))))
    ∧ C ≠ 0
    ∧ trace X s' = trace X s ++ t
    ∧ solve_component_cfgs t = replicate C qmc
    ∧ (∀ T, (max_time l ≤ 0)%Z → cfg_QMC X s !! "Nmeas" = Some (VInt T) →
         (0 ≤ T < 2 ^ 53)%Z → (Z.of_nat C < 2 ^ 53)%Z →
         qmc !! "Nmeas" = Some (VInt (T / Z.of_nat C))
         ∧ total_cycles t = (T / Z.of_nat C * Z.of_nat C)%Z
         ∧ (total_cycles t ≤ T)%Z)
    ∧ ((0 < max_time l < 2 ^ 53)%Z → (Z.of_nat C < 2 ^ 53)%Z →
         qmc !! "measurement_time" = Some (VInt (max_time l / Z.of_nat C))).
Proof.
  intros H.
  destruct (worm_two_operator_Ok X self l imp_problem U s s' rg H)
    as (components & gtau & prints & s1 & Hc & _ & Hprints & Happ & Htr & _).
  destruct (apportion_Ok X _ _ _ _ _ Happ) as (Hne & _ & Hcycles & Htime).
  exists (length components), (cfg_QMC X s1),
    (prints ++ component_events imp_problem U (cfg_QMC X s1) components).
  assert (solve_component_cfgs
            (prints ++ component_events imp_problem U (cfg_QMC X s1) components)
          = replicate (length components) (cfg_QMC X s1)) as Hcfgs.
  { unfold solve_component_cfgs. rewrite omap_app.
    destruct (prints_no_calls prints Hprints) as [_ Hn].
    unfold solve_component_cfgs in Hn. rewrite Hn. apply component_events_cfgs. }
  split; [by rewrite Hc|]. split; [done|]. split; [done|]. split; [done|].
  split.
  - intros T Hm HT HTb HCb.
    destruct (Hcycles Hm) as (v & n & Hv & Hdiv & Hq). simpl in Hv.
    rewrite HT in Hv. injection Hv as <-.
    rewrite py_int_div_small in Hdiv by lia. injection Hdiv as <-.
    assert (cfg_QMC X s1 !! "Nmeas" = Some (VInt (T / Z.of_nat (length components)))) as HN
      by (rewrite Hq; apply lookup_insert_eq).
    split; [done|].
    rewrite (total_cycles_replicate _ _ _ Hcfgs). unfold cycles. rewrite HN.
    split; [lia|].
    pose proof (Z.mul_div_le T (Z.of_nat (length components))). lia.
  - intros Hm HCb. destruct (Htime ltac:(lia)) as (n & Hdiv & ->).
    rewrite py_int_div_small in Hdiv by lia. injection Hdiv as <-.
    apply lookup_insert_eq.
Qed.

(** C9.  With [measure_G2_iw_ph] and a non-empty [cfg_qmc], lines
    611-663 do nothing: they write no key, build no solver object and
    sample nothing.  So the call builds at most one solver object, makes
    no sampling call of the automatic pipeline
    ([solve_comp_stats(1, 4, ...)]) and never returns the mapping of
    line 663; the solver object is built from a configuration in which
    every entry of [cfg_qmc] holds, and the keys that lines 615-621
    would write are at the end of the call as they were then. *)
Theorem manual_mapping_bypasses_automatic (self : Self V) (kw : kwargs V)
    (m : list (string * cfgval)) :
  kw_measure_G2_iw_ph kw = Some true → kw_cfg_qmc kw = Some m → m ≠ [] →
  (∀ l imp_problem U s,
     cfg_qmc l = Some m → two_particle X l imp_problem U s = (s, Ok None))
  ∧ length (constructions (trace X (run_solve X self kw).1)) ≤ 1
  ∧ Forall (λ e, ¬ automatic_sampling e) (trace X (run_solve X self kw).1)
  ∧ (∀ g, (run_solve X self kw).2 ≠ Ok (RetG4iw g))
  ∧ (∀ q, q ∈ constructions (trace X (run_solve X self kw).1) →
       (∀ m1 k v m2, m = m1 ++ (k, v) :: m2 → k ∉ m2.*1 → q !! k = Some v)
       ∧ (∀ k, automatic_key k → cfg_QMC X (run_solve X self kw).1 !! k = q !! k)).
Proof.
  intros _ Hkw Hm.
  split.
  { intros l p U s Hl. apply two_particle_skip. by rewrite Hl. }
  destruct (run_solve_cases X self kw)
    as [[Hpr Hne]|(s1 & l & s2 & s3 & Ht & Hc & Hpr & Htr3 & Hq3 & Hrun)].
  { rewrite (constructions_prints _ Hpr).
    split; [simpl; lia|]. split.
    { eapply Forall_impl; [exact Hpr|]. intros [] ?; simpl in *; tauto. }
    split; [done|]. intros q Hq. by apply elem_of_nil in Hq. }
  destruct (translate_Ok X self kw (init_state X self) _ _ eq_refl Ht)
    as (?&?&?&?&?&_&_&_&_&_&_&_&_&_&_&_&_&_&Hcfg&_).
  assert (default [] (cfg_qmc l) = m) as Hdef by (by rewrite Hcfg, Hkw).
  rewrite Hrun.
  destruct ((dispatch X self l (problem_of self l) (umatrix_of self l)
               ≫= after_dispatch X l (problem_of self l) (umatrix_of self l)) s3)
    as [s' o] eqn:Hrest.
  cbn [fst snd].
  destruct (manual_rest_events X self l (problem_of self l) (umatrix_of self l)
              ltac:(by rewrite Hdef) _ _ _ Hrest) as [[(t & Htr & Hev) Hkeys] _].
  assert (constructions (trace X s') = [cfg_QMC X s2]) as Hcons.
  { rewrite Htr, Htr3, !constructions_app, (constructions_prints _ Hpr),
      (constructions_dispatch _ _ _ Hev). done. }
  rewrite Hcons.
  split; [simpl; lia|]. split.
  { rewrite Htr, Htr3. apply Forall_app. split; [apply Forall_app; split|].
    - eapply Forall_impl; [exact Hpr|]. intros [] ?; simpl in *; tauto.
    - repeat constructor; simpl; tauto.
    - eapply Forall_impl; [exact Hev|].
      intros [] He; simpl in *; try tauto. intros [? _]. lia. }
  split.
  { intros g ->.
    apply bind_Ok in Hrest as (s4 & rg & _ & Ha). unfold after_dispatch in Ha.
    rewrite bind_run, (two_particle_skip X l _ _ s4) in Ha by (by rewrite Hdef).
    by apply (convert_yields X l rg.1 rg.2 _ _ _ Ha g). }
  intros q Hq%list_elem_of_singleton. subst q. split.
  - intros m1 k v m2 -> Hk. by eapply configure_manual_wins.
  - intros k Hk. rewrite <-Hq3. apply Hkeys.
    unfold automatic_key in Hk. unfold budget_key.
    intros [-> | ->]; repeat (apply elem_of_cons in Hk as [?|Hk]; [done|]);
      by apply elem_of_nil in Hk.
Qed.

(** Lines 279-286 govern the configuration from which the solver
    object is first built (line 314): in worm mode it holds, for each
    of the two worm probabilities that [cfg_qmc] does not set, 0.2
    where the caller gave 0.0 and the caller's value where it is
    nonzero. *)
Lemma worm_probability_defaults (self : Self V) (kw : kwargs V)
    (q : gmap string cfgval) :
  kw_worm kw = Some true →
  head (constructions (trace X (run_solve X self kw).1)) = Some q →
  ("PercentageWormInsert" ∉ (default [] (kw_cfg_qmc kw)).*1 →
     q !! "PercentageWormInsert"
     = Some (VFloat (let p := default 0x1.999999999999ap-3%float (kw_PercentageWormInsert kw) in
                     if PrimFloat.eqb p 0 then 0x1.999999999999ap-3%float else p)))
  ∧ ("PercentageWormReplace" ∉ (default [] (kw_cfg_qmc kw)).*1 →
     q !! "PercentageWormReplace"
     = Some (VFloat (let p := default 0x1.999999999999ap-3%float (kw_PercentageWormReplace kw) in
                     if PrimFloat.eqb p 0 then 0x1.999999999999ap-3%float else p))).
Proof.
  intros Hw Hq.
  destruct (run_solve_cases X self kw)
    as [[Hpr Hne]|(s1 & l & s2 & s3 & Ht & Hc & Hpr & Htr3 & Hq3 & Hrun)].
  { by rewrite (constructions_prints _ Hpr) in Hq. }
  destruct (translate_Ok X self kw (init_state X self) _ _ eq_refl Ht)
    as (?&?&?&?&?&_&_&_&_&_&_&_&_&_&_&_&_&Hworm&Hcfg&_&Hins&Hrep).
  rewrite Hw in Hworm. simpl in Hworm.
  rewrite Hrun in Hq.
  destruct ((dispatch X self l (problem_of self l) (umatrix_of self l)
               ≫= after_dispatch X l (problem_of self l) (umatrix_of self l)) s3)
    as [s' o] eqn:Hrest.
  destruct (rest_events X self l _ _ _ Hrest) as [[(t & Htr & _) _] _].
  cbn [fst] in Hq.
  rewrite Htr, Htr3, !constructions_app, (constructions_prints _ Hpr) in Hq.
  simpl in Hq. injection Hq as <-.
  destruct (configure_worm_probabilities X self l _ _ _ Hc Hworm) as [Hi Hr].
  rewrite Hcfg, Hins in Hi. rewrite Hcfg, Hrep in Hr. done.
Qed.

End Calls.

Section Tensors.
Context {V : Type} `{!NumpyScalar V}.

(** C6.  [bs_diagflat] takes an array of axes (band, spin, ...) to the
    array of axes (band, spin, band, spin, ...) whose entry at
    [b, s, b, s, ...] is the entry at [b, s, ...] of the argument and
    whose entries off that diagonal are zero; reading the diagonal of
    the expanded array gives the argument back. *)
Theorem diagonal_fill_round_trip (bs_array : ndarray V) (nb ns : nat) (rest : list nat) :
  wf bs_array → shape bs_array = nb :: ns :: rest →
  ∃ bsbs_array,
    bs_diagflat bs_array = inr bsbs_array
    ∧ shape bsbs_array = nb :: ns :: nb :: ns :: rest
    ∧ (∀ b s b' s' idx p,
         b < nb → s < ns → b' < nb → s' < ns → ravel rest idx = Some p →
         get bsbs_array (b :: s :: b' :: s' :: idx)
         = if decide (b = b' ∧ s = s') then get bs_array (b :: s :: idx)
           else Some np_zero)
    ∧ bs_diagonal bsbs_array = Some bs_array.
Proof.
  intros Hwf Hsh.
  destruct (bs_diagflat_entries bs_array nb ns rest Hwf Hsh) as (r & Hr & _ & Hshr & Hget).
  exists r. split; [done|]. split; [done|]. split; [done|].
  by apply (bs_diagonal_diagflat bs_array nb ns rest).
Qed.

End Tensors.

(** A 4 by 4 hopping matrix: two orbitals. *)
Definition t2 : ndarray float := zeros 0%float [4; 4].



Lemma orbital_count_check_witness :
  trace ext (run_solve ext (solver1 false (Delta1 1 2 3 4)) (kwargs1 100 U1 t2 false)).1 = []
  ∧ (run_solve ext (solver1 false (Delta1 1 2 3 4)) (kwargs1 100 U1 t2 false)).2
    = Raise (AssertionError orbital_mismatch).
Proof.
  destruct (orbital_count_check ext (solver1 false (Delta1 1 2 3 4))
              (kwargs1 100 U1 t2 false) U1 t2 2 4 eq_refl eq_refl eq_refl eq_refl)
    as [H _].
  destruct (H ltac:(vm_compute; lia)) as (Ht & _ & He).
  split; [exact Ht|]. apply He; vm_compute; eauto.
Defined.

(** Two orbitals: an interaction tensor over four flavours with entries
    0 to 255 in row-major order, and a hybridization of two 2 by 2
    blocks on two time points. *)
Definition U2 : ndarray float := mk_ndarray [4; 4; 4; 4] (float_of_Z <$> seqZ 0 256).

Definition Delta2 : BlockGf float :=
  [ ("up", mk_ndarray [2; 2; 2] [1; 2; 3; 4; 5; 6; 7; 8]%float);
    ("dn", mk_ndarray [2; 2; 2] [1; 2; 3; 4; 5; 6; 7; 8]%float) ].

(** A result on one band and two spins, two entries each. *)
Definition bands1 : ndarray float := mk_ndarray [1; 2; 2] [1; 2; 3; 4]%float.

Lemma diagonal_fill_round_trip_witness :
  ∃ bsbs_array,
    bs_diagflat bands1 = inr bsbs_array
    ∧ shape bsbs_array = [1; 2; 1; 2; 2]
    ∧ (∀ b s b' s' idx p,
         b < 1 → s < 2 → b' < 1 → s' < 2 → ravel [2] idx = Some p →
         get bsbs_array (b :: s :: b' :: s' :: idx)
         = if decide (b = b' ∧ s = s') then get bands1 (b :: s :: idx)
           else Some np_zero)
    ∧ bs_diagonal bsbs_array = Some bands1.
Proof. apply (diagonal_fill_round_trip bands1 1 2 [2]); reflexivity. Defined.

(** The entry at [idx] of each tensor handed to the engine. *)
Definition umatrix_entries (idx : list nat) (t : list (event float)) : list (option float) :=
  omap (λ e, match e with EvSetUmatrix U => Some (get U idx) | _ => None end) t.

(** C7 as stated fails: the entry of the extracted tensor at flavours
    [2, 0, 0, 0], which is 128, is the entry at [1, 0, 0, 0] of the
    transformed tensor and of the tensor the engine receives; it is
    still 128, not -2 times 128. *)
Lemma interaction_tensor_unscaled :
  get U2 [2; 0; 0; 0] = Some 128%float
  ∧ (∃ U', transform_U 2 U2 = Some U' ∧ get U' [1; 0; 0; 0] = Some 128%float)
  ∧ umatrix_entries [1; 0; 0; 0]
      (trace ext (run_solve ext (solver1 false Delta2) (kwargs1 100 U2 t2 false)).1)
    = [Some 128%float]
  ∧ 128%float ≠ (-256)%float.
Proof.
  split; [vm_compute; reflexivity|].
  split; [eexists; split; vm_compute; reflexivity|].
  split; [vm_compute; reflexivity|].
  intros H. apply (f_equal (PrimFloat.ltb 0)) in H. vm_compute in H. discriminate.
Qed.

Lemma interaction_tensor_permuted_witness :
  ∃ U', transform_U 2 U2 = Some U'
    ∧ shape U' = [4; 4; 4; 4]
    ∧ (∀ o1 s1 o2 s2 o3 s3 o4 s4,
         o1 < 2 → s1 < 2 → o2 < 2 → s2 < 2 → o3 < 2 → s3 < 2 → o4 < 2 → s4 < 2 →
         get U' [o1 * 2 + s1; o2 * 2 + s2; o3 * 2 + s3; o4 * 2 + s4]
         = get U2 [s1 * 2 + o1; s2 * 2 + o2; s3 * 2 + o3; s4 * 2 + o4])
    ∧ Forall (λ e, match e with
                   | EvSetUmatrix U'' => U'' = cast (solver1 false Delta2) U'
                   | _ => True
                   end)
        (trace ext (run_solve ext (solver1 false Delta2) (kwargs1 100 U2 t2 false)).1).
Proof.
  apply (interaction_tensor_permuted ext (solver1 false Delta2) (kwargs1 100 U2 t2 false) U2 2);
    [reflexivity|vm_compute; reflexivity|reflexivity].
Defined.

Lemma hybridization_negated_reversed_witness :
  ∃ blocks',
    flip_Delta Delta2 = Some blocks'
    ∧ Forall2 (λ b b',
        b'.1 = b.1 ∧ shape b'.2 = shape b.2 ∧
        ∀ Ntau rest i idx p,
          shape b.2 = Ntau :: rest → i < Ntau → ravel rest idx = Some p →
          get b'.2 (i :: idx) = np_neg <$> get b.2 ((Ntau - 1 - i) :: idx))
        Delta2 blocks'
    ∧ Forall (λ e, match e with
                   | EvSetProblem p _ =>
                       ip_ftau p = cast (solver1 false Delta2) (blocks_to_tosos blocks')
                   | _ => True
                   end)
        (trace ext (run_solve ext (solver1 false Delta2) (kwargs1 100 U2 t2 false)).1).
Proof.
  apply (hybridization_negated_reversed ext (solver1 false Delta2) (kwargs1 100 U2 t2 false)).
  repeat constructor; simpl; done.
Defined.

(** The two-operator worm sector on one orbital: the locals of a call
    with [worm=True], a store whose solver object exists and whose
    configuration holds 100 cycles, and the problem and tensor built
    from them. *)
Definition sector_locals (Delta : BlockGf float) (W : Z) : locals float := {|
  n_cycles := 100; n_warmup_cycles := 5000; max_time := W; worm := true;
  percentageworminsert := 0x1.999999999999ap-3;
  percentagewormreplace := 0x1.999999999999ap-3;
  wormcomponents := None; length_cycle := 50; random_seed := 1; move_double := true;
  measure_G_l := false; measure_G_tau := true; measure_pert_order := false;
  statesampling := false; flavourchange_moves := false;
  move_global_prob := 0x1.47ae147ae147bp-8; measure_g4iw_ph := false;
  n4iwf := 30; n4iwb := 29; cfg_qmc := None; norb := 1;
  U_ijkl := U1; t_osos_tensor := mk_ndarray [1; 2; 1; 2] [-1; 0; 0; -1]%float;
  ftau := blocks_to_tosos Delta
|}.

Definition sector_state (Delta : BlockGf float) : state ext :=
  set_solver ext 0
    (set_cfg_QMC ext (λ _, <["Ntau" := VInt 2]> (<["Nmeas" := VInt 100]> ∅))
       (init_state ext (solver1 false Delta))).

#[local] Abbreviation sector_run Delta W :=
  (worm_two_operator ext (solver1 false Delta) (sector_locals Delta W)
     (problem_of (solver1 false Delta) (sector_locals Delta W))
     (umatrix_of (solver1 false Delta) (sector_locals Delta W))
     (sector_state Delta)).

(** What the engine of [ext] answers under "gtau-worm/": a row of the
    compound index, which line 437 writes as two entries. *)
Lemma answer_gtau_worm (qmc : gmap string cfgval) (c : Z) (old : option string) :
  last_key "gtau-worm" (other (answer qmc c)) old = Some "gtau-worm/"
  ∧ dict_get "gtau-worm/" (other (answer qmc c))
    = Some (mk_ndarray [row_length qmc] (replicate (row_length qmc) (float_of_Z c))).
Proof. split; reflexivity. Qed.

Lemma broadcast_answer (n : nat) (x : float) (row : list float) :
  broadcast_row 2 (mk_ndarray [n] (replicate n x)) = Some row → row = [x; x].
Proof. destruct n as [|[|[|n]]]; simpl; intros [= <-]; reflexivity. Qed.

Lemma two_operator_components_witness :
  ∃ rg components gtau prints qmc,
    (sector_run (Delta1 1 2 3 4) (-1)).2 = Ok rg
    ∧ components = [1; 4]%Z
    ∧ StronglySorted Z.lt components
    ∧ trace ext (sector_run (Delta1 1 2 3 4) (-1)).1
      = prints ++ component_events (problem_of (solver1 false (Delta1 1 2 3 4))
                                      (sector_locals (Delta1 1 2 3 4) (-1)))
                    (umatrix_of (solver1 false (Delta1 1 2 3 4))
                       (sector_locals (Delta1 1 2 3 4) (-1)))
                    qmc components
    ∧ rg.2 = Some (GtauSample gtau 1)
    ∧ get_slab gtau [0; 0; 0; 0; 1] = Some [0; 0]%float
    ∧ get_slab gtau [0; 0; 1; 0; 0] = Some [0; 0]%float
    ∧ get_slab gtau [0; 0; 0; 0; 0] = Some [1; 1]%float
    ∧ get_slab gtau [0; 0; 1; 0; 1] = Some [4; 4]%float.
Proof.
  assert (∃ rg, (sector_run (Delta1 1 2 3 4) (-1)).2 = Ok rg) as [rg E].
  { eexists. vm_compute. reflexivity. }
  destruct (two_operator_components ext _ _ _ _ _ _ _ float_abs_le_gt (run_Ok ext _ _ _ E))
    as (components & gtau & prints & qmc & e & results & Hc & Hsorted & _ & _ & _ & Htr & _
        & Hrg & _ & Hzero & _ & Hans & Hslabs).
  assert (components = [1; 4]%Z) as Hc' by (rewrite Hc; vm_compute; reflexivity).
  assert (∀ pos, position ext 1 1 ≠ Some pos → position ext 1 4 ≠ Some pos →
                 ∀ c, c ∈ components → position ext 1 c ≠ Some pos) as Hother.
  { intros pos H1 H4 c Hin. rewrite Hc' in Hin.
    apply elem_of_cons in Hin as [->|Hin]; [exact H1|].
    apply elem_of_cons in Hin as [->|Hin]; [exact H4|].
    destruct (proj1 (elem_of_nil c) Hin). }
  rewrite Hc' in Hans, Hslabs.
  assert (results = [answer qmc 1; answer qmc 4]) as Hres.
  { cbn [component_answers component_call ext solve_component snd fst] in Hans.
    destruct results as [|r1 [|r2 [|]]]; try discriminate Hans.
    cbn [fmap list_fmap] in Hans. injection Hans as <- <-. reflexivity. }
  rewrite Hres in Hslabs.
  exists rg, components, gtau, prints, qmc.
  split; [exact E|]. split; [exact Hc'|]. split; [exact Hsorted|].
  split; [rewrite Htr; reflexivity|].
  split; [exact Hrg|].
  split.
  { apply (Hzero [0; 0; 0; 1] 1); [reflexivity|].
    apply Hother; vm_compute; discriminate. }
  split.
  { apply (Hzero [0; 1; 0; 0] 2); [reflexivity|].
    apply Hother; vm_compute; discriminate. }
  split.
  - destruct (Hslabs 0 1%Z [0; 0; 0; 0] eq_refl eq_refl)
      as (r & name & src & row & Hr & Hname & Hsrc & Hrow & Hslab).
    { intros [|[|j]] c' Hj Hc4; [lia| |discriminate Hc4].
      injection Hc4 as <-. vm_compute. discriminate. }
    injection Hr as <-.
    unfold gtau_name_at in Hname. cbn [take foldl] in Hname.
    rewrite (proj1 (answer_gtau_worm qmc 1 None)) in Hname. injection Hname as <-.
    rewrite (proj2 (answer_gtau_worm qmc 1 None)) in Hsrc. injection Hsrc as <-.
    apply broadcast_answer in Hrow. rewrite Hslab, Hrow. reflexivity.
  - destruct (Hslabs 1 4%Z [0; 1; 0; 1] eq_refl eq_refl)
      as (r & name & src & row & Hr & Hname & Hsrc & Hrow & Hslab).
    { intros [|[|j]] c' Hj Hc4; [lia|lia|discriminate Hc4]. }
    injection Hr as <-.
    unfold gtau_name_at in Hname. cbn [take foldl] in Hname.
    rewrite (proj1 (answer_gtau_worm qmc 4 _)) in Hname. injection Hname as <-.
    rewrite (proj2 (answer_gtau_worm qmc 4 None)) in Hsrc. injection Hsrc as <-.
    apply broadcast_answer in Hrow. rewrite Hslab, Hrow. reflexivity.
Defined.

Lemma budget_apportioned_witness :
  (∃ rg t qmc,
     (sector_run (Delta1 1 2 3 4) (-1)).2 = Ok rg
     ∧ trace ext (sector_run (Delta1 1 2 3 4) (-1)).1 = t
     ∧ solve_component_cfgs t = [qmc; qmc]
     ∧ qmc !! "Nmeas" = Some (VInt 50)
     ∧ total_cycles t = 100%Z)
  ∧ (∃ rg t qmc,
       (sector_run (Delta1 1 2 3 4) 7).2 = Ok rg
       ∧ trace ext (sector_run (Delta1 1 2 3 4) 7).1 = t
       ∧ solve_component_cfgs t = [qmc; qmc]
       ∧ qmc !! "measurement_time" = Some (VInt 3)).
Proof.
  split.
  - assert (∃ rg, (sector_run (Delta1 1 2 3 4) (-1)).2 = Ok rg) as [rg E].
    { eexists. vm_compute. reflexivity. }
    destruct (budget_apportioned ext _ _ _ _ _ _ _ (run_Ok ext _ _ _ E))
      as (C & qmc & t & HC & _ & Htr & Hcfgs & Hcycles & _).
    assert (C = 2) as HC' by (rewrite HC; vm_compute; reflexivity).
    rewrite HC' in Hcfgs, Hcycles.
    destruct (Hcycles 100%Z) as (HN & Htotal & _);
      [vm_compute; discriminate|vm_compute; reflexivity|split; [lia|reflexivity]|reflexivity|].
    exists rg, t, qmc. split; [exact E|].
    split; [rewrite Htr; reflexivity|].
    split; [exact Hcfgs|]. split; [exact HN|exact Htotal].
  - assert (∃ rg, (sector_run (Delta1 1 2 3 4) 7).2 = Ok rg) as [rg E].
    { eexists. vm_compute. reflexivity. }
    destruct (budget_apportioned ext _ _ _ _ _ _ _ (run_Ok ext _ _ _ E))
      as (C & qmc & t & HC & _ & Htr & Hcfgs & _ & Htime).
    assert (C = 2) as HC' by (rewrite HC; vm_compute; reflexivity).
    rewrite HC' in Hcfgs, Htime.
    exists rg, t, qmc. split; [exact E|].
    split; [rewrite Htr; reflexivity|].
    split; [exact Hcfgs|]. apply Htime; [split; reflexivity|reflexivity].
Defined.

(** C3 as stated fails: with a total of T = 2^53 + 3 cycles and the one
    component that a hybridization with a single nonzero entry retains,
    line 407 forms [T / float(1)] in binary64, where T becomes
    2^53 + 4: the one call is given 2^53 + 4 cycles, more than T and
    not floor(T/1). *)
Lemma budget_overallocated :
  solve_component_calls
    (trace ext (run_solve ext (solver1 false (Delta1 1 0 0 0))
                  (kwargs1 (2 ^ 53 + 3) U1 t1 true)).1) = [1%Z]
  ∧ cycles <$> solve_component_cfgs
                 (trace ext (run_solve ext (solver1 false (Delta1 1 0 0 0))
                               (kwargs1 (2 ^ 53 + 3) U1 t1 true)).1)
    = [(2 ^ 53 + 4)%Z]
  ∧ total_cycles
      (trace ext (run_solve ext (solver1 false (Delta1 1 0 0 0))
                    (kwargs1 (2 ^ 53 + 3) U1 t1 true)).1)
    = (2 ^ 53 + 4)%Z
  ∧ ((2 ^ 53 + 3) / 1 < 2 ^ 53 + 4)%Z.
Proof. repeat split; vm_compute; reflexivity. Qed.

(** C5 (the code fails the claim).  On one orbital with a
    hybridization that is zero at every time point, a call with
    [worm=True] prunes all four components, line 407 divides the cycle
    count by [float(0)], and the call ends with a ZeroDivisionError
    before any component is sampled. *)
Theorem zero_components_raise :
  (run_solve ext (solver1 false (Delta1 0 0 0 0)) (kwargs1 100 U1 t1 true)).2
  = Raise ZeroDivisionError
  ∧ solve_component_calls
      (trace ext (run_solve ext (solver1 false (Delta1 0 0 0 0)) (kwargs1 100 U1 t1 true)).1)
    = [].
Proof. split; vm_compute; reflexivity. Qed.

(** A call on one orbital with the worm switch, a worm-insert
    probability, [measure_G_tau], [measure_G2_iw_ph] and [cfg_qmc]. *)
Definition kwargs2 (w : bool) (insert : option float) (gtau : option bool) (g2 : bool)
    (m : option (list (string * cfgval))) : kwargs float := {|
  kw_n_cycles := Some 100%Z; kw_n_warmup_cycles := None; kw_max_time := None;
  kw_worm := Some w; kw_PercentageWormInsert := insert; kw_PercentageWormReplace := None;
  kw_worm_components := None; kw_length_cycle := None; kw_h_int := Some U1; kw_h_0 := Some t1;
  kw_random_seed := None; kw_move_double := None; kw_measure_G_l := None;
  kw_measure_G_tau := gtau; kw_measure_pert_order := None; kw_statesampling := None;
  kw_flavourchange_moves := None; kw_flavomove_global_prob := None;
  kw_measure_G2_iw_ph := Some g2; kw_measure_G2_n_fermionic := None;
  kw_measure_G2_n_bosonic := None; kw_cfg_qmc := m
|}.

(** A manual mapping that asks for two components of the four-operator
    worm sector. *)
Definition manual1 : list (string * cfgval) :=
  [ ("WormMeasG4iw", VInt 1); ("FourPnt", VInt 8);
    ("WormComponents", VList [CompInt 1; CompInt 16]) ].

Lemma manual_mapping_bypasses_automatic_witness :
  (run_solve ext (solver1 false (Delta1 1 2 3 4))
     (kwargs2 true None None true (Some manual1))).2 = Ok RetNone
  ∧ length (constructions
              (trace ext (run_solve ext (solver1 false (Delta1 1 2 3 4))
                            (kwargs2 true None None true (Some manual1))).1)) ≤ 1
  ∧ Forall (λ e, ¬ automatic_sampling e)
      (trace ext (run_solve ext (solver1 false (Delta1 1 2 3 4))
                    (kwargs2 true None None true (Some manual1))).1)
  ∧ ∀ q, q ∈ constructions
               (trace ext (run_solve ext (solver1 false (Delta1 1 2 3 4))
                             (kwargs2 true None None true (Some manual1))).1) →
         q !! "FourPnt" = Some (VInt 8).
Proof.
  assert (manual1 ≠ []) as Hm by discriminate.
  destruct (manual_mapping_bypasses_automatic ext (solver1 false (Delta1 1 2 3 4))
              (kwargs2 true None None true (Some manual1)) manual1 eq_refl eq_refl Hm)
    as (_ & Hone & Hnone & _ & Hwins).
  split; [vm_compute; reflexivity|]. split; [exact Hone|]. split; [exact Hnone|].
  intros q Hq. destruct (Hwins q Hq) as [Hlast _].
  apply (Hlast [("WormMeasG4iw", VInt 1)] "FourPnt" (VInt 8)
           [("WormComponents", VList [CompInt 1; CompInt 16])]); [reflexivity|].
  intros Hin. apply list_elem_of_singleton in Hin. discriminate Hin.
Defined.

(** The worm-insert probability that each sampling call of lines
    648-650 can read. *)
Definition insert_probabilities (t : list (event float)) : list (option cfgval) :=
  omap (λ e, match e with
             | EvSolveCompStats q _ _ _ => Some (q !! "PercentageWormInsert")
             | _ => None
             end) t.

(** C10 (the code fails the claim).  In worm mode with
    [PercentageWormInsert=0.0], [measure_G_tau=False] and
    [measure_G2_iw_ph=True], the first solver object is built with 0.2
    as the claim says, but lines 618-619 write the 0.0 as given, without
    the replacement of lines 279-286, line 622 builds a second solver
    object from it, and each of the sixteen sampling calls runs with a
    worm-insert probability of 0.0: the worm insertion is disabled
    through the solve parameter. *)
Theorem worm_insert_disabled :
  (λ q : gmap string cfgval, q !! "PercentageWormInsert")
    <$> constructions
          (trace ext (run_solve ext (solver1 false (Delta1 1 2 3 4))
                        (kwargs2 true (Some 0%float) (Some false) true None)).1)
  = [Some (VFloat 0x1.999999999999ap-3); Some (VFloat 0)]
  ∧ insert_probabilities
      (trace ext (run_solve ext (solver1 false (Delta1 1 2 3 4))
                    (kwargs2 true (Some 0%float) (Some false) true None)).1)
    = replicate 16 (Some (VFloat 0))
  ∧ VFloat 0 ≠ VFloat 0x1.999999999999ap-3.
Proof.
  split; [vm_compute; reflexivity|]. split; [vm_compute; reflexivity|].
  intros H.
  apply (f_equal (λ v, match v with VFloat x => PrimFloat.ltb 0 x | _ => false end)) in H.
  vm_compute in H. discriminate.
Qed.

Lemma worm_probability_defaults_witness :
  ∃ q,
    head (constructions
            (trace ext (run_solve ext (solver1 false (Delta1 1 2 3 4))
                          (kwargs2 true (Some 0%float) None false None)).1)) = Some q
    ∧ q !! "PercentageWormInsert" = Some (VFloat 0x1.999999999999ap-3)
    ∧ q !! "PercentageWormReplace" = Some (VFloat 0x1.999999999999ap-3).
Proof.
  pose (q := default (∅ : gmap string cfgval)
               (head (constructions
                        (trace ext (run_solve ext (solver1 false (Delta1 1 2 3 4))
                                      (kwargs2 true (Some 0%float) None false None)).1)))).
  assert (head (constructions
                  (trace ext (run_solve ext (solver1 false (Delta1 1 2 3 4))
                                (kwargs2 true (Some 0%float) None false None)).1))
          = Some q) as Hq by (vm_compute; reflexivity).
  destruct (worm_probability_defaults ext (solver1 false (Delta1 1 2 3 4))
              (kwargs2 true (Some 0%float) None false None) q eq_refl Hq) as [Hi Hr].
  exists q. split; [exact Hq|].
  split; [apply Hi|apply Hr]; apply not_elem_of_nil.
Defined.

End Claims.

(** * Further facts about [solve] *)

(** ** The arguments and the configuration: lines 108-307 *)

Module ConfigFacts.
Import NdArray Py Solver NdArrayFacts TensorFacts CallFacts SolveFacts RunFacts.

Section Facts.
Context {V : Type} `{!NumpyScalar V} (X : externals V).

(** What [translate] leaves in the store and in the locals. *)
Lemma translate_store self kw s s' l :
  translate X self kw s = (s', Ok l) →
  ∃ m,
    max_blocksize (self_Delta_tau X s') = Some m
    ∧ cfg_QMC X s' = <["offdiag" := VInt (if decide (m = 1) then 0 else 1)]> (get_cfg X (norb l)).2
    ∧ cfg_General X s' = (get_cfg X (norb l)).1
    ∧ self_norb X s' = Some (norb l)
    ∧ kw_n_cycles kw = Some (n_cycles l)
    ∧ n_warmup_cycles l = default 5000%Z (kw_n_warmup_cycles kw)
    ∧ max_time l = default (-1)%Z (kw_max_time kw)
    ∧ length_cycle l = default 50%Z (kw_length_cycle kw)
    ∧ random_seed l = default 1%Z (kw_random_seed kw)
    ∧ move_double l = default true (kw_move_double kw)
    ∧ measure_G_l l = default false (kw_measure_G_l kw)
    ∧ measure_G_tau l = default true (kw_measure_G_tau kw)
    ∧ measure_pert_order l = default false (kw_measure_pert_order kw)
    ∧ statesampling l = default false (kw_statesampling kw)
    ∧ flavourchange_moves l = default false (kw_flavourchange_moves kw)
    ∧ move_global_prob l = default 0x1.47ae147ae147bp-8%float (kw_flavomove_global_prob kw)
    ∧ n4iwf l = default 30%Z (kw_measure_G2_n_fermionic kw)
    ∧ n4iwb l = (default 30%Z (kw_measure_G2_n_bosonic kw) - 1)%Z
    ∧ wormcomponents l = kw_worm_components kw.
Proof.
  intros H. unfold translate in H.
  apply bind_Ok in H as (s1 & n_cycles & [Hn ->]%lift_opt_Ok & H).
  apply bind_Ok in H as (s1 & U & [HU ->]%lift_opt_Ok & H).
  apply bind_Ok in H as (s1 & h_0 & Hh0 & H).
  apply bind_Ok in H as (s2 & dU & [HdU ->]%lift_opt_Ok & H).
  apply bind_Ok in H as (s2 & [] & [= <-] & H).
  apply bind_Ok in H as (s2 & U' & [HU' ->]%lift_opt_Ok & H).
  apply bind_Ok in H as (s2 & t & Ht & H).
  apply bind_Ok in H as (s3 & blocks0 & [= <- <-] & H).
  apply bind_Ok in H as (s3 & blocks & [Hflip ->]%lift_opt_Ok & H).
  apply bind_Ok in H as (s3 & [] & [= <-] & H).
  apply bind_Ok in H as (s3 & dt & [Hdt ->]%lift_opt_Ok & H).
  apply bind_Ok in H as (s3 & [] & [Hassert ->]%assert_Ok & H).
  apply bind_Ok in H as (s3 & t_osos & [Htosos ->]%lift_opt_Ok & H).
  apply bind_Ok in H as (s3 & [] & [= <-] & H).
  apply bind_Ok in H as (s3 & [] & [= <-] & H).
  apply bind_Ok in H as (s3 & m & [Hm ->]%lift_opt_Ok & H).
  apply bind_Ok in H as (s3 & [] & [= <-] & H).
  injection H as <- <-.
  assert (self_norb X s2 = Some (dU / 2)) as Hnorb.
  { destruct h_0 as [t0|].
    - by injection Ht as <- <-.
    - apply bind_Ok in Ht as (? & [] & [= <-] & Ht).
      apply bind_Ok in Ht as (? & [] & [= <-] & Ht).
      by injection Ht as <- <-. }
  exists m. cbn [fst snd]. unfold pop_required in Hn. done.
Qed.

(** Line 167 keeps the shape of every block, hence the largest block
    size. *)
Lemma flip_block_shape (a a' : ndarray V) : flip_block a = Some a' → shape a' = shape a.
Proof.
  unfold flip_block, flip0. destruct (shape a) as [|n rest] eqn:Hs; [done|].
  destruct (remap _ _ a) as [a1|] eqn:Hr; [|done]. intros [= <-]. simpl.
  by apply remap_shape in Hr.
Qed.

Lemma flip_Delta_blocksize (blocks blocks' : BlockGf V) :
  flip_Delta blocks = Some blocks' → max_blocksize blocks' = max_blocksize blocks.
Proof.
  unfold flip_Delta, max_blocksize. intros H. f_equal.
  revert blocks' H. induction blocks as [|[name a] blocks IH]; intros blocks' H.
  { by injection H as <-. }
  simpl in H. destruct (flip_block a) as [a'|] eqn:Ha; [|done]. simpl in H.
  destruct (mapM _ blocks) as [bs|] eqn:Hbs; [|done]. injection H as <-.
  simpl. rewrite (flip_block_shape _ _ Ha), (IH bs); done.
Qed.

(** The configuration that lines 222-268 leave. *)
Definition sampling_cfg (self : Self V) (l : locals V) (q : gmap string cfgval)
    : gmap string cfgval :=
  <["statesampling" := flag (statesampling l)]>
  (<["Ncorr" := VInt (length_cycle l)]>
  (<["measurement_time" := VInt (max_time l)]>
  (<["Nmeas" := VInt (n_cycles l)]>
  (<["Nwarmups" := VInt (length_cycle l * n_warmup_cycles l)]>
  (<["NLegOrder" := VInt (if measure_G_l l then Z.of_nat (n_l self) else 1)]>
  (<["NLegMax" := VInt (if measure_G_l l then Z.of_nat (n_l self) else 1)]>
  (<["Ntau" := VInt (Z.of_nat (n_tau self * 2))]>
  (<["Niw" := VInt (Z.of_nat (n_iw self))]>
  (<["flavourchange_moves" := flag (flavourchange_moves l)]>
  (<["PercentageGlobalMove" := VFloat (move_global_prob l)]>
  (<["Percentage4OperatorMove" :=
       if move_double l then VFloat 0x1.47ae147ae147bp-8 else VInt 0]>
  (if complex self then <["use_phase" := VInt 1]> (<["complex" := VInt 1]> q) else q)))))))))))).

(** The configuration that lines 270-286 leave. *)
Definition worm_cfg (l : locals V) (q : gmap string cfgval) : gmap string cfgval :=
  if worm l then
    <["PercentageWormReplace" := worm_probability (percentagewormreplace l)]>
    (<["PercentageWormInsert" := worm_probability (percentageworminsert l)]>
    (if cfg_qmc l is None
     then <["WormSearchEta" := VInt 1]> (<["WormMeasGtau" := VInt 1]>
            (<["WormMeasGiw" := VInt 1]> q))
     else q))
  else q.

Lemma configure_sampling_Ok self l s s' u :
  configure_sampling X self l s = (s', Ok u) →
  cfg_QMC X s' = sampling_cfg self l (cfg_QMC X s)
  ∧ trace X s' = trace X s
  ∧ (complex self = true →
     ∃ v, cfg_QMC X s !! "offdiag" = Some v ∧ py_eq_int v 0 = false).
Proof.
  unfold configure_sampling, sampling_cfg. intros H.
  apply bind_Ok in H as (s1 & [] & Hc & H).
  assert (cfg_QMC X s1
          = (if complex self then <["use_phase" := VInt 1]> (<["complex" := VInt 1]> (cfg_QMC X s))
             else cfg_QMC X s)
          ∧ trace X s1 = trace X s
          ∧ (complex self = true →
             ∃ v, cfg_QMC X s !! "offdiag" = Some v ∧ py_eq_int v 0 = false))
    as (Hq1 & Ht1 & Hoff).
  { destruct (complex self).
    - apply bind_Ok in Hc as (? & [] & [= <-] & Hc).
      apply bind_Ok in Hc as (? & [] & [= <-] & Hc).
      apply bind_Ok in Hc as (? & v & Hv & Hc).
      apply bind_Ok in Hv as (? & q & [= <- <-] & [Hv ->]%lift_opt_Ok).
      apply assert_Ok in Hc as [Hc ->]. simpl in *.
      split; [done|]. split; [done|]. intros _. exists v.
      rewrite !lookup_insert_ne in Hv by done.
      split; [done|]. by apply negb_true_iff.
    - injection Hc as <-. done. }
  do 12 (apply bind_Ok in H as (? & [] & [= <-] & H)).
  injection H as <-. simpl. by rewrite Hq1, Ht1.
Qed.

(** The assertion of line 227. *)
Lemma configure_sampling_diagonal self l s v :
  complex self = true → cfg_QMC X s !! "offdiag" = Some v → py_eq_int v 0 = true →
  (configure_sampling X self l s).2
  = Raise (AssertionError "Complex does not make sense for diagonal Delta_tau!")
  ∧ trace X (configure_sampling X self l s).1 = trace X s.
Proof.
  intros Hc Hv He. unfold configure_sampling. rewrite Hc.
  unfold qmc_set, qmc_get, modify, gets. rewrite !bind_run. simpl.
  rewrite !lookup_insert_ne by done. rewrite Hv. simpl. by rewrite He.
Qed.

Lemma configure_worm_Ok l s s' u :
  configure_worm X l s = (s', Ok u) →
  cfg_QMC X s' = worm_cfg l (cfg_QMC X s).
Proof.
  unfold configure_worm, worm_cfg. destruct (worm l); [|by intros [= <-]].
  intros H. apply bind_Ok in H as (s1 & [] & Hc & H).
  apply bind_Ok in H as (? & [] & [= <-] & [= <-]). simpl. do 2 f_equal.
  destruct (cfg_qmc l).
  - by injection Hc as <-.
  - apply bind_Ok in Hc as (? & [] & [= <-] & Hc).
    by apply bind_Ok in Hc as (? & [] & [= <-] & [= <-]).
Qed.

(** The configuration after lines 222-307. *)
Lemma configure_cfg self l s s' u :
  configure X self l s = (s', Ok u) →
  cfg_QMC X s'
  = apply_manual (default [] (cfg_qmc l)) (worm_cfg l (sampling_cfg self l (cfg_QMC X s)))
  ∧ (complex self = true →
     ∃ v, cfg_QMC X s !! "offdiag" = Some v ∧ py_eq_int v 0 = false).
Proof.
  intros H. unfold configure in H.
  apply bind_Ok in H as (sa & [] & Hs & H).
  apply bind_Ok in H as (sb & [] & Hw & H).
  apply bind_Ok in H as (sc & [] & Hm & H).
  destruct (configure_echo_prints X _ _ _ H) as [[_ Hecho] _].
  destruct (configure_sampling_Ok _ _ _ _ _ Hs) as (Hqa & _ & Hoff).
  split; [|done].
  apply map_eq. intros k. rewrite (Hecho k) by (by intros []).
  by rewrite (configure_manual_Ok X _ _ _ _ Hm), (configure_worm_Ok _ _ _ _ Hw), Hqa.
Qed.

(** The events of a trace up to its first call into the engine. *)
Lemma first_engine_call (t1 t2 r1 r2 : list (event V)) e1 e2 :
  t1 ++ e1 :: r1 = t2 ++ e2 :: r2 →
  Forall is_print t1 → Forall is_print t2 → is_engine_call e1 → is_engine_call e2 →
  t1 = t2 ∧ e1 = e2 ∧ r1 = r2.
Proof.
  revert t2. induction t1 as [|x t1 IH]; intros [|y t2] H H1 H2 He1 He2;
    simpl in H; injection H as Hhd Htl.
  - by subst.
  - subst y. apply Forall_cons in H2 as [Hy _]. by destruct e1.
  - subst x. apply Forall_cons in H1 as [Hx _]. by destruct e2.
  - apply Forall_cons in H1 as [_ H1]. apply Forall_cons in H2 as [_ H2].
    destruct (IH _ Htl H1 H2 He1 He2) as (-> & -> & ->). by subst.
Qed.

(** A call that builds a solver object: the locals, the store after
    lines 108-215 and the configuration the object is built from. *)
Lemma construction_cases self kw :
  (Forall is_print (trace X (run_solve X self kw).1)
   ∧ ∀ v, (run_solve X self kw).2 ≠ Ok v)
  ∨ ∃ s1 l s2 s3 m t,
      translate X self kw (init_state X self) = (s1, Ok l)
      ∧ max_blocksize (hybridization self) = Some m
      ∧ cfg_QMC X s2
        = apply_manual (default [] (cfg_qmc l))
            (worm_cfg l (sampling_cfg self l
               (<["offdiag" := VInt (if decide (m = 1) then 0 else 1)]>
                  (get_cfg X (norb l)).2)))
      ∧ Forall is_print (trace X s2)
      ∧ trace X s3
        = trace X s2 ++ [EvCtHybSolver (cfg_QMC X s2) (seed_of X l);
                         EvPrint "........................................";
                         EvSetProblem (problem_of self l) None]
      ∧ cfg_QMC X s3 = cfg_QMC X s2
      ∧ run_solve X self kw
        = (dispatch X self l (problem_of self l) (umatrix_of self l)
             ≫= after_dispatch X l (problem_of self l) (umatrix_of self l)) s3
      ∧ trace X (run_solve X self kw).1 = trace X s3 ++ t
      ∧ Forall (run_event self l) t.
Proof.
  destruct (run_solve_cases X self kw)
    as [?|(s1 & l & s2 & s3 & Ht & Hc & Hpr & Htr3 & Hq3 & Hrun)]; [by left|right].
  destruct (translate_Ok X self kw (init_state X self) _ _ eq_refl Ht)
    as (?&?&?&?&blocks&_&_&_&_&_&_&_&Hflip&Hblocks&_).
  destruct (translate_store _ _ _ _ _ Ht) as (m & Hm & Hq1 & _).
  rewrite Hblocks, (flip_Delta_blocksize _ _ Hflip) in Hm.
  destruct (configure_cfg _ _ _ _ _ Hc) as [Hq2 _]. rewrite Hq1 in Hq2.
  destruct ((dispatch X self l (problem_of self l) (umatrix_of self l)
               ≫= after_dispatch X l (problem_of self l) (umatrix_of self l)) s3)
    as [s' o] eqn:Hrest.
  destruct (rest_events X self l _ _ _ Hrest) as [[(t & Htr & Hev) _] _].
  exists s1, l, s2, s3, m, t. rewrite Hrun. done.
Qed.

(** The configuration from which the solver object is first built. *)
Lemma first_construction self kw q :
  head (constructions (trace X (run_solve X self kw).1)) = Some q →
  ∃ s1 l m,
    translate X self kw (init_state X self) = (s1, Ok l)
    ∧ max_blocksize (hybridization self) = Some m
    ∧ q = apply_manual (default [] (kw_cfg_qmc kw))
            (worm_cfg l (sampling_cfg self l
               (<["offdiag" := VInt (if decide (m = 1) then 0 else 1)]>
                  (get_cfg X (norb l)).2))).
Proof.
  intros Hq.
  destruct (construction_cases self kw)
    as [[Hpr _]|(s1 & l & s2 & s3 & m & t & Ht & Hm & Hq2 & Hpr & Htr3 & _ & _ & Htr & _)].
  { by rewrite (constructions_prints _ Hpr) in Hq. }
  rewrite Htr, Htr3, !constructions_app, (constructions_prints _ Hpr) in Hq.
  simpl in Hq. injection Hq as <-.
  destruct (translate_Ok X self kw (init_state X self) _ _ eq_refl Ht)
    as (?&?&?&?&?&_&_&_&_&_&_&_&_&_&_&_&_&_&Hcfg&_).
  exists s1, l, m. by rewrite <-Hcfg.
Qed.

End Facts.

(** The value of a key that was last written with a name different
    from the names of the writes before it. *)
Ltac cfg_lookup :=
  unfold worm_cfg;
  repeat match goal with
    | |- context [if worm ?l then _ else _] => destruct (worm l)
    | |- context [match cfg_qmc ?l with Some _ => _ | None => _ end] => destruct (cfg_qmc l)
    end;
  rewrite ?lookup_insert_ne by done;
  unfold sampling_cfg;
  rewrite ?lookup_insert_ne by done;
  first
    [ apply lookup_insert_eq
    | match goal with
      | |- context [if complex ?s then _ else _] => destruct (complex s)
      end;
      rewrite ?lookup_insert_ne by done; first [apply lookup_insert_eq|reflexivity]
    | reflexivity ].

End ConfigFacts.

(** ** The hopping matrix and the flip of the hybridization *)

Module TensorMore.
Import NdArray Py Solver NdArrayFacts TensorFacts.

Section Facts.
Context {V : Type} `{!NumpyScalar V}.
Implicit Types (a t : ndarray V).

Ltac in_range :=
  repeat match goal with |- Forall2 _ _ _ => constructor end; simpl; (done || nia).

(** Lines 175-176: the entry at (o1, s1, o2, s2) of the result is the
    entry at flavours (s1*norb+o1, s2*norb+o2) of the matrix. *)
Lemma transform_t_entries norb t :
  wf t → shape t = [2 * norb; 2 * norb] →
  ∃ t', transform_t norb t = Some t' ∧ wf t' ∧ shape t' = [norb; 2; norb; 2] ∧
    ∀ o1 s1 o2 s2, o1 < norb → s1 < 2 → o2 < norb → s2 < 2 →
      get t' [o1; s1; o2; s2] = get t [s1 * norb + o1; s2 * norb + o2].
Proof.
  intros Hwf Hsh. unfold transform_t.
  assert (length (data t) = size [2; norb; 2; norb]) as Hlen.
  { rewrite Hwf, Hsh. simpl. lia. }
  unfold reshape. rewrite decide_True by done. simpl.
  set (t1 := mk_ndarray [2; norb; 2; norb] (data t)).
  assert (wf t1) as Hwf1 by done.
  set (sh4 := [norb; 2; norb; 2]).
  set (f := λ idx : list nat, (λ j, idx !!! index_of j [1; 0; 3; 2]) <$> seq 0 4).
  assert (transpose [1; 0; 3; 2] t1 = remap sh4 f t1) as -> by done.
  assert (∀ o1 s1 o2 s2, f [o1; s1; o2; s2] = [s1; o1; s2; o2]) as Hf by done.
  destruct (remap_is_Some sh4 f t1) as [t2 Ht2].
  { intros p Hp. apply unravel_range in Hp.
    destruct (unravel sh4 p) as [|o1 [|s1 [|o2 [|s2 [|]]]]];
      try (by repeat (inversion Hp as [|???? ? Hp']; clear Hp; rename Hp' into Hp)).
    rewrite Hf.
    repeat (let H := fresh in inversion Hp as [|???? H Hp']; clear Hp;
            rename Hp' into Hp; simplify_eq).
    eapply get_is_Some; [done|]. apply ravel_in_range. simpl. in_range. }
  rewrite Ht2.
  pose proof (remap_wf _ _ _ _ Ht2) as Hwf2.
  pose proof (remap_shape _ _ _ _ Ht2) as Hsh2.
  eexists; split; [done|]. split; [done|]. split; [done|].
  intros o1 s1 o2 s2 ? ? ? ?.
  assert (get t2 [o1; s1; o2; s2] = get t1 [s1; o1; s2; o2]) as Hg.
  { rewrite <-(Hf o1 s1 o2 s2). eapply get_remap; [done|]. apply ravel_in_range. in_range. }
  rewrite Hg. unfold get; simpl shape; simpl data. rewrite Hsh.
  rewrite (ravel_in_range [2 * norb; _]) by in_range.
  rewrite (ravel_in_range [2; norb; _; _]) by in_range.
  simpl. f_equal. ring.
Qed.

(** Line 167 twice gives the block back, when negating twice does. *)
Lemma flip_block_involutive a a' :
  (∀ x : V, np_neg (np_neg x) = x) →
  wf a → flip_block a = Some a' → flip_block a' = Some a.
Proof.
  intros Hneg Hwf Ha.
  destruct (shape a) as [|n rest] eqn:Hsh.
  { unfold flip_block, flip0 in Ha. by rewrite Hsh in Ha. }
  destruct (flip_block_entries a n rest Hwf Hsh) as (b & Hb & Hwfb & Hshb & Hget).
  rewrite Ha in Hb. injection Hb as <-.
  destruct (flip_block_entries a' n rest Hwfb ltac:(congruence))
    as (c & Hc & Hwfc & Hshc & Hget').
  rewrite Hc. f_equal. apply ndarray_eq; [done|done|congruence|].
  intros idx p Hp. rewrite Hshc, Hshb, Hsh in Hp.
  pose proof (ravel_Some_range _ _ _ Hp) as Hr.
  destruct idx as [|i idx]; [by inversion Hr|].
  inversion Hr as [|???? Hi Hr']; simplify_eq.
  assert (ravel rest idx = Some (offset rest idx)) as Hp' by (by apply ravel_in_range).
  rewrite (Hget' i idx _ Hi Hp'), (Hget (n - 1 - i) idx _ ltac:(lia) Hp').
  replace (n - 1 - (n - 1 - i)) with i by lia.
  destruct (get a (i :: idx)); simpl; [by rewrite Hneg|done].
Qed.

Lemma flip_Delta_involutive (blocks blocks' : BlockGf V) :
  (∀ x : V, np_neg (np_neg x) = x) →
  Forall (λ b, wf b.2) blocks →
  flip_Delta blocks = Some blocks' → flip_Delta blocks' = Some blocks.
Proof.
  intros Hneg. unfold flip_Delta.
  intros Hwf. revert blocks'. induction Hwf as [|[name a] blocks Hwf _ IH]; intros blocks' H.
  { by injection H as <-. }
  simpl in H. destruct (flip_block a) as [a'|] eqn:Ha; [|done]. simpl in H.
  destruct (mapM _ blocks) as [bs|] eqn:Hbs; [|done]. injection H as <-.
  simpl. rewrite (flip_block_involutive _ _ Hneg Hwf Ha). simpl.
  by rewrite (IH bs).
Qed.

End Facts.

(** Negating a float64 twice gives it back. *)
Lemma float_neg_involutive (x : float) : np_neg (np_neg x) = x.
Proof.
  simpl. apply Prim2SF_inj. rewrite !opp_spec.
  by destruct (Prim2SF x) as [[]|[]| |[] ? ?].
Qed.

End TensorMore.

(** ** What the phases of a call leave alone *)

Module FrameFacts.
Import NdArray Py Solver NdArrayFacts CallFacts SolveFacts RunFacts.

Section Facts.
Context {V : Type} `{!NumpyScalar V} (X : externals V).

(** A part of the store that a step does not change. *)
Definition keeps {A} (f : state X → A) : relation (state X) := λ s s', f s' = f s.

#[export] Instance keeps_preorder {A} (f : state X → A) : PreOrder (keeps f).
Proof. split; [done|]. intros s1 s2 s3 H1 H2. unfold keeps in *. congruence. Qed.

(** Relations that hold across the writes of lines 357-663: to the
    trace, the solver object, [cfg["QMC"]] and the three attributes
    that collect worm results. *)
Class EngineFrame (R : relation (state X)) := {
  frame_preorder : PreOrder R;
  frame_trace : ∀ f s, R s (set_trace X f s);
  frame_solver : ∀ e s, R s (set_solver X e s);
  frame_cfg_QMC : ∀ f s, R s (set_cfg_QMC X f s);
  frame_G2_worm : ∀ f s, R s (set_self_G2_worm_components X f s);
  frame_GF_worm : ∀ f s, R s (set_self_GF_worm_components X f s);
  frame_G2_iw_ph : ∀ g s, R s (set_self_G2_iw_ph X g s)
}.
#[export] Existing Instance frame_preorder.

Lemma py_int_div_implemented v c e : py_int_div v c = inl e → e ≠ NotImplementedError.
Proof.
  unfold py_int_div, py_float_of_int, py_float_div, py_int_of_float.
  repeat case_match; intros; by simplify_eq.
Qed.

Lemma bs_diagflat_implemented (a : ndarray V) e :
  bs_diagflat a = inl e → e ≠ NotImplementedError.
Proof. unfold bs_diagflat. repeat case_match; intros; by simplify_eq. Qed.

End Facts.

(** One step through a computation, for a relation [R] and failures
    [F]; [side] proves that a write keeps [R] and that a failure is in
    [F]. *)
Ltac frame_step side :=
  lazymatch goal with
  | |- preserves _ _ _ (mbind _ _) =>
      apply preserves_bind; [apply _| |let a := fresh "a" in intros a _]
  | |- preserves _ _ _ (mret _) => apply preserves_ret; apply _
  | |- preserves _ _ _ (raise _ _) => apply preserves_raise; [apply _|side]
  | |- preserves _ _ _ (exit _) => apply preserves_exit; [apply _|side]
  | |- preserves _ _ _ (gets _ _) => apply preserves_gets; apply _
  | |- preserves _ _ _ (modify _ _) => apply preserves_modify; intros ?; side
  | |- preserves _ _ _ (lift_opt _ _ _) => apply preserves_lift_opt; [apply _|intros _; side]
  | |- preserves _ _ _ (lift_res _ _) =>
      apply preserves_lift_res; [apply _|let H := fresh "Hinl" in intros ? H; side]
  | |- preserves _ _ _ (assert_ _ _ _) => apply preserves_assert; [apply _|intros _; side]
  | |- preserves _ _ _ (for_each _ _ _) => apply preserves_for_each; [apply _|intros ? _]
  | |- preserves _ _ _ (if ?b then _ else _) => destruct b
  | |- preserves _ _ _ (match ?x with _ => _ end) => destruct x
  end.

Ltac frame_unfold :=
  unfold standard, apportion, worm_warning, banner, single_entry, component_indices,
    any_worm_flag, any_reduced_flag, reduced_result_key, the_result,
    call_solve, call_solve_component, call_solve_comp_stats, call_set_problem,
    call_set_umatrix, call_CtHybSolver, engine_return, the_solver,
    qmc_get, qmc_set, pop_required, print_rank0, print, emit.

Ltac frame_side :=
  first
    [ done
    | solve [apply frame_trace; assumption] | solve [apply frame_solver; assumption]
    | solve [apply frame_cfg_QMC; assumption] | solve [apply frame_G2_worm; assumption]
    | solve [apply frame_GF_worm; assumption] | solve [apply frame_G2_iw_ph; assumption]
    | match goal with
      | HF : ∀ e, e ≠ NotImplementedError → ?F e |- ?F _ =>
          apply HF; first [done|by eapply py_int_div_implemented
                          |by eapply bs_diagflat_implemented]
      end ].

Section Engine.
Context {V : Type} `{!NumpyScalar V} (X : externals V).
Context (R : relation (state X)) `{!EngineFrame X R}.
Context (F : exn → Prop) (HF : ∀ e, e ≠ NotImplementedError → F e).

Lemma run_components_frame norb L imp_problem U components : ∀ acc,
  preserves X R F (run_components X norb L imp_problem U components acc).
Proof.
  induction components as [|c components IH]; intros acc; simpl.
  - apply preserves_ret, _.
  - frame_unfold. repeat first [apply IH|frame_step frame_side].
Qed.

Lemma sample_g4iw_frame imp_problem U components : ∀ g4iw,
  preserves X R F (sample_g4iw X imp_problem U components g4iw).
Proof.
  induction components as [|c components IH]; intros g4iw; simpl.
  - apply preserves_ret, _.
  - frame_unfold. repeat first [apply IH|frame_step frame_side].
Qed.

Lemma two_particle_frame l imp_problem U :
  preserves X R F (two_particle X l imp_problem U).
Proof.
  unfold two_particle. frame_unfold.
  repeat first [apply sample_g4iw_frame|frame_step frame_side].
Qed.

Lemma standard_frame imp_problem U iter_no :
  preserves X R F (standard X imp_problem U iter_no).
Proof. frame_unfold. repeat frame_step frame_side. Qed.

Lemma worm_two_operator_frame self l imp_problem U :
  preserves X R F (worm_two_operator X self l imp_problem U).
Proof.
  unfold worm_two_operator. frame_unfold.
  repeat first [apply run_components_frame|frame_step frame_side].
Qed.

Lemma worm_four_operator_frame self l imp_problem U :
  preserves X R F (worm_four_operator X self l imp_problem U).
Proof. unfold worm_four_operator. frame_unfold. repeat frame_step frame_side. Qed.

Context (HN : F NotImplementedError).

Lemma worm_reduced_frame self l imp_problem U :
  preserves X R F (worm_reduced X self l imp_problem U).
Proof. unfold worm_reduced. frame_unfold. repeat frame_step frame_side. Qed.

Lemma dispatch_frame self l imp_problem U :
  preserves X R F (dispatch X self l imp_problem U).
Proof.
  unfold dispatch.
  repeat first
    [ apply standard_frame | apply worm_two_operator_frame | apply worm_four_operator_frame
    | apply worm_reduced_frame | progress frame_unfold | frame_step frame_side ].
Qed.

End Engine.

Section Attributes.
Context {V : Type} `{!NumpyScalar V} (X : externals V).

Definition any_failure (f : exn) : Prop := True.

#[export] Instance keeps_Delta_tau_frame : EngineFrame X (keeps X (self_Delta_tau X)).
Proof. by split; [apply _|..]. Qed.

(** The attributes that lines 682-709 write. *)
Definition converted (s : state X) : option (gtau_t V) * option (ndarray V) * option (ndarray V) :=
  (self_G_tau X s, self_hist X s, self_G_l X s).

#[export] Instance keeps_converted_frame : EngineFrame X (keeps X converted).
Proof. by split; [apply _|..]. Qed.

Ltac plain_side :=
  first
    [ done | exact I
    | solve [apply frame_trace; apply _] | solve [apply frame_solver; apply _]
    | solve [apply frame_cfg_QMC; apply _] ].

(** After lines 108-215 nothing writes [self.Delta_tau]. *)
Lemma after_translate_keeps_Delta self l :
  preserves X (keeps X (self_Delta_tau X)) any_failure (after_translate X self l).
Proof.
  unfold after_translate, check_complex_worm, configure, configure_sampling,
    configure_worm, configure_manual, configure_echo, after_configure, build,
    after_dispatch, convert.
  frame_unfold.
  repeat first
    [ apply (dispatch_frame X _ any_failure (λ _ _, I) I)
    | apply (two_particle_frame X _ any_failure (λ _ _, I))
    | frame_step plain_side ].
Qed.

End Attributes.

End FrameFacts.

(** ** The failure that [solve] never raises *)

Module ReachFacts.
Import NdArray Py Solver NdArrayFacts CallFacts SolveFacts RunFacts FrameFacts.

Section Facts.
Context {V : Type} `{!NumpyScalar V} (X : externals V).

Definition anywhere : relation (state X) := λ _ _, True.

#[export] Instance anywhere_frame : EngineFrame X anywhere.
Proof. by split; [split|..]. Qed.

Definition implemented (f : exn) : Prop := f ≠ NotImplementedError.

Lemma implemented_raised e : e ≠ NotImplementedError → implemented e.
Proof. intros He [= ->]. done. Qed.

Lemma preserves_implemented {A} (R : relation (state X)) (m : M X A) s :
  preserves X R implemented m → (m s).2 ≠ Raise NotImplementedError.
Proof.
  intros Hm. destruct (m s) as [s' o] eqn:E. destruct (Hm _ _ _ E) as [_ Hf].
  simpl. intros ->. by apply (Hf _ eq_refl).
Qed.

Lemma implemented_preserves {A} (m : M X A) :
  (∀ s, (m s).2 ≠ Raise NotImplementedError) → preserves X anywhere implemented m.
Proof.
  intros Hm s s' o E. split; [done|]. intros f Hf ->.
  specialize (Hm s). rewrite E in Hm. by destruct o; simplify_eq/=.
Qed.

(** When the test of lines 514-516 holds, one of the three cases of
    lines 529-544 does, on any store with the same configuration. *)
Lemma reduced_result_key_found s s' s2 :
  any_reduced_flag X s = (s', Ok true) → cfg_QMC X s2 = cfg_QMC X s →
  (reduced_result_key X s2).2 ≠ Raise NotImplementedError
  ∧ (reduced_result_key X s2).1 = s2.
Proof.
  unfold any_reduced_flag, reduced_result_key, qmc_get, gets, lift_opt.
  intros H Hq. rewrite !bind_run in *. simpl in *. rewrite Hq.
  destruct (cfg_QMC X s !! "WormMeasP3iwPH") as [v3|]; simpl in *; [|done].
  destruct (py_eq_int v3 1); simpl in *.
  { rewrite !bind_run. simpl. rewrite Hq.
    destruct (cfg_QMC X s !! "N3iwf"); simpl; [|done].
    rewrite !bind_run. simpl. rewrite Hq.
    by destruct (cfg_QMC X s !! "N3iwb"). }
  rewrite !bind_run in *. simpl in *. rewrite Hq.
  destruct (cfg_QMC X s !! "WormMeasP2iwPH") as [v2|]; simpl in *; [|done].
  destruct (py_eq_int v2 1); simpl in *.
  { rewrite !bind_run. simpl. rewrite Hq. by destruct (cfg_QMC X s !! "N2iwb"). }
  rewrite !bind_run in *. simpl in *. rewrite Hq.
  destruct (cfg_QMC X s !! "WormMeasP2tauPH") as [vt|]; simpl in *; [|done].
  destruct (py_eq_int vt 1); simpl in *; [done|]. by simplify_eq.
Qed.

Lemma any_reduced_flag_same s s' b : any_reduced_flag X s = (s', Ok b) → s' = s.
Proof.
  assert (preserves X (keeps X id) any_failure (any_reduced_flag X)) as Hp.
  { frame_unfold. repeat frame_step ltac:(first [done|exact I]). }
  intros H. by destruct (Hp _ _ _ H) as [Hk _].
Qed.

Lemma implemented_bind {A B} (m : M X A) (k : A → M X B) s :
  (m s).2 ≠ Raise NotImplementedError →
  (∀ a s', m s = (s', Ok a) → (k a s').2 ≠ Raise NotImplementedError) →
  ((m ≫= k) s).2 ≠ Raise NotImplementedError.
Proof.
  intros Hm Hk. rewrite bind_run.
  destruct (m s) as [s' [a|e]] eqn:E; [by apply Hk|].
  intros [= ->]. by apply Hm.
Qed.

(** A message changes the trace alone. *)
Lemma print_rank0_keeps_cfg text :
  preserves X (keeps X (cfg_QMC X)) implemented (print_rank0 X text).
Proof. frame_unfold. repeat frame_step ltac:(first [done|exact I]). Qed.

Lemma worm_warning_keeps_cfg l :
  preserves X (keeps X (cfg_QMC X)) implemented (worm_warning X l).
Proof. frame_unfold. repeat frame_step ltac:(first [done|exact I]). Qed.

Lemma worm_reduced_implemented self l imp_problem U s s0 :
  any_reduced_flag X s0 = (s, Ok true) →
  (worm_reduced X self l imp_problem U s).2 ≠ Raise NotImplementedError.
Proof.
  intros Hflag. pose proof (any_reduced_flag_same _ _ _ Hflag) as ->.
  unfold worm_reduced.
  apply implemented_bind; [apply (preserves_implemented _ _ _ (worm_warning_keeps_cfg _))|].
  intros [] s1 H1. apply worm_warning_keeps_cfg in H1 as [H1 _].
  apply implemented_bind; [apply (preserves_implemented _ _ _ (print_rank0_keeps_cfg _))|].
  intros [] s2 H2. apply print_rank0_keeps_cfg in H2 as [H2 _].
  apply implemented_bind; [apply (preserves_implemented _ _ _ (print_rank0_keeps_cfg _))|].
  intros [] s3 H3. apply print_rank0_keeps_cfg in H3 as [H3 _].
  assert (cfg_QMC X s3 = cfg_QMC X s0) as Hq by (unfold keeps in *; congruence).
  apply implemented_bind; [apply (reduced_result_key_found _ _ _ Hflag Hq)|].
  intros key s4 _. apply (preserves_implemented anywhere).
  pose proof implemented_raised as HF.
  frame_unfold. repeat frame_step frame_side.
Qed.

Lemma dispatch_implemented self l imp_problem U s :
  (dispatch X self l imp_problem U s).2 ≠ Raise NotImplementedError.
Proof.
  pose proof implemented_raised as HF.
  unfold dispatch.
  destruct (measure_G_tau l || measure_G_l l || measure_pert_order l); [|done].
  destruct (complex self);
    [apply (preserves_implemented anywhere), (standard_frame X _ implemented HF)|].
  destruct (negb (worm l));
    [apply (preserves_implemented anywhere), (standard_frame X _ implemented HF)|].
  rewrite bind_run. unfold gets; cbn iota beta.
  case_bool_decide;
    [apply (preserves_implemented anywhere), (worm_two_operator_frame X _ implemented HF)|].
  rewrite bind_run.
  destruct (qmc_get X "FourPnt" s) as [s1 [FourPnt|e]] eqn:Hget.
  2:{ unfold qmc_get, gets, lift_opt in Hget. rewrite bind_run in Hget. simpl in Hget.
      destruct (cfg_QMC X s !! "FourPnt"); [done|]. unfold raise in Hget. simplify_eq. intros [=]. }
  destruct (py_eq_int FourPnt 8);
    [apply (preserves_implemented anywhere), (worm_four_operator_frame X _ implemented HF)|].
  rewrite bind_run.
  destruct (any_reduced_flag X s1) as [s2 [[]|e]] eqn:Hflag; [|done|].
  - by eapply worm_reduced_implemented.
  - assert (preserves X anywhere implemented (any_reduced_flag X)) as Hp.
    { frame_unfold. repeat frame_step frame_side. }
    destruct (Hp _ _ _ Hflag) as [_ Hf]. intros [= ->]. by apply (Hf _ eq_refl).
Qed.

(** No step of a call raises NotImplementedError. *)
Lemma solve_implemented self kw : preserves X anywhere implemented (solve X self kw).
Proof.
  pose proof implemented_raised as HF.
  unfold solve.
  apply preserves_bind; [apply _| |intros l _].
  { unfold translate. frame_unfold. repeat frame_step frame_side. }
  apply preserves_bind; [apply _| |intros _ _].
  { unfold check_complex_worm. frame_unfold. repeat frame_step frame_side. }
  apply preserves_bind; [apply _| |intros _ _].
  { unfold configure, configure_sampling, configure_worm, configure_manual, configure_echo.
    frame_unfold. repeat frame_step frame_side. }
  apply preserves_bind; [apply _| |intros pu _].
  { unfold build. frame_unfold. repeat frame_step frame_side. }
  apply preserves_bind; [apply _| |intros rg _].
  { apply implemented_preserves, dispatch_implemented. }
  apply preserves_bind; [apply _| |intros ret _].
  { apply (two_particle_frame X _ implemented HF). }
  destruct ret; [apply preserves_ret, _|].
  unfold convert. frame_unfold. repeat frame_step frame_side.
Qed.

End Facts.
End ReachFacts.

(** ** The paths of a call from the solver object on: lines 309-726 *)

Module PathFacts.
Import NdArray Py Solver NdArrayFacts CallFacts SolveFacts RunFacts ConfigFacts FrameFacts.

Section Facts.
Context {V : Type} `{!NumpyScalar V} (X : externals V).

(** The attributes in which a call leaves its results. *)
Definition outputs (s : state X) :=
  (converted X s, self_G2_iw_ph X s, self_G2_worm_components X s,
   self_GF_worm_components X s).

(** The sampling calls of a trace that return component statistics:
    [iter_no], the worm sector and the component. *)
Definition comp_stats_calls (t : list (event V)) : list (Z * Z * Z) :=
  omap (λ e, match e with EvSolveCompStats _ i w c => Some (i, w, c) | _ => None end) t.

(** The calls of [solver.solve]: the configuration and [iter_no]. *)
Definition solve_calls (t : list (event V)) : list (gmap string cfgval * option Z) :=
  omap (λ e, match e with EvSolve q i => Some (q, i) | _ => None end) t.

(** A sampling call of any of the three kinds. *)
Definition is_sampling (e : event V) : Prop :=
  match e with
  | EvSolve _ _ | EvSolveComponent _ _ _ _ | EvSolveCompStats _ _ _ _ => True
  | _ => False
  end.

Lemma comp_stats_calls_app (t1 t2 : list (event V)) :
  comp_stats_calls (t1 ++ t2) = comp_stats_calls t1 ++ comp_stats_calls t2.
Proof. apply omap_app. Qed.

Lemma solve_calls_app (t1 t2 : list (event V)) :
  solve_calls (t1 ++ t2) = solve_calls t1 ++ solve_calls t2.
Proof. apply omap_app. Qed.

Lemma prints_comp_stats (t : list (event V)) : Forall is_print t → comp_stats_calls t = [].
Proof. induction 1 as [|[] ? Hp _ IH]; by simpl in *. Qed.

Lemma prints_solve_calls (t : list (event V)) : Forall is_print t → solve_calls t = [].
Proof. induction 1 as [|[] ? Hp _ IH]; by simpl in *. Qed.

Lemma translate_keeps_outputs self kw :
  preserves X (keeps X outputs) any_failure (translate X self kw).
Proof.
  unfold translate. frame_unfold. repeat frame_step ltac:(first [done|exact I]).
Qed.

Lemma configure_keeps_outputs self l :
  preserves X (keeps X outputs) any_failure (configure X self l).
Proof.
  unfold configure, configure_sampling, configure_worm, configure_manual, configure_echo.
  frame_unfold. repeat frame_step ltac:(first [done|exact I]).
Qed.

(** Lines 309-355 leave a solver object. *)
Lemma build_store self l s s' pu :
  build X self l s = (s', Ok pu) →
  is_Some (solver X s') ∧ outputs s' = outputs s.
Proof.
  unfold build, call_CtHybSolver, call_set_problem, the_solver, print, emit.
  rewrite !bind_run. simpl. intros [= <- <-]. by split.
Qed.

(** A call either stops before it builds a solver object, having
    printed at most, or reaches the dispatcher with the store below. *)
Lemma solve_started self kw :
  (Forall is_print (trace X (run_solve X self kw).1)
   ∧ (∀ v, (run_solve X self kw).2 ≠ Ok v)
   ∧ outputs (run_solve X self kw).1 = outputs (init_state X self))
  ∨ ∃ s1 l s2 s3,
      translate X self kw (init_state X self) = (s1, Ok l)
      ∧ complex self && worm l = false
      ∧ configure X self l s1 = (s2, Ok tt)
      ∧ Forall is_print (trace X s2)
      ∧ trace X s3
        = trace X s2 ++ [EvCtHybSolver (cfg_QMC X s2) (seed_of X l);
                         EvPrint "........................................";
                         EvSetProblem (problem_of self l) None]
      ∧ cfg_QMC X s3 = cfg_QMC X s2
      ∧ is_Some (solver X s3)
      ∧ outputs s3 = outputs (init_state X self)
      ∧ run_solve X self kw
        = (dispatch X self l (problem_of self l) (umatrix_of self l)
             ≫= after_dispatch X l (problem_of self l) (umatrix_of self l)) s3.
Proof.
  unfold run_solve. rewrite solve_unfold, bind_run.
  destruct (translate X self kw (init_state X self)) as [s1 [l|e]] eqn:Ht;
    destruct (translate_quiet X self kw _ _ _ Ht) as [Hq%moves_quiet _];
    destruct (translate_keeps_outputs self kw _ _ _ Ht) as [Ho1 _];
    [|left; simpl; rewrite Hq; by split; [constructor|]..].
  simpl in Hq. unfold after_translate, check_complex_worm.
  destruct (complex self && worm l) eqn:Hcw.
  { left. rewrite !bind_run. unfold print, emit, modify. simpl. rewrite Hq. simpl.
    split; [by repeat constructor|]. split; [done|]. exact Ho1. }
  rewrite bind_run. change ((mret () : M X ()) s1) with (s1, Ok ()).
  cbn iota. rewrite bind_run.
  destruct (configure X self l s1) as [s2 [[]|e]] eqn:Hc;
    destruct (configure_prints X self l _ _ _ Hc) as [[(t & Htr & Hpr) _] _];
    destruct (configure_keeps_outputs self l _ _ _ Hc) as [Ho2 _];
    rewrite Hq in Htr; simpl in Htr;
    [|left; simpl; rewrite Htr; split; [done|]; split; [done|];
      unfold keeps in *; congruence..].
  right. unfold after_configure. rewrite bind_run.
  destruct (build_run X self l s2) as (s3 & Hb & Htr3 & Hq3). rewrite Hb.
  destruct (build_store _ _ _ _ _ Hb) as [Hsolver Ho3].
  exists s1, l, s2, s3.
  split; [done|]. split; [done|]. split; [done|]. split; [by rewrite Htr|].
  split; [done|]. split; [done|]. split; [done|].
  split; [unfold keeps in *; congruence|]. reflexivity.
Qed.

(** Of the section General, lines 222-307 write [beta] alone (line
    249). *)
Lemma configure_General self l s s' :
  configure X self l s = (s', Ok ()) →
  cfg_General X s' = <["beta" := VFloat (beta self)]> (cfg_General X s).
Proof.
  unfold configure. intros H.
  apply bind_Ok in H as (s1 & [] & H1 & H).
  assert (preserves X (keeps X (cfg_General X)) any_failure
            (configure_worm X l;; configure_manual X l;; configure_echo X)) as Hp.
  { unfold configure_worm, configure_manual, configure_echo.
    frame_unfold. repeat frame_step ltac:(first [done|exact I]). }
  destruct (Hp _ _ _ H) as [-> _].
  unfold configure_sampling in H1.
  apply bind_Ok in H1 as (sa & [] & Ha & H1).
  assert (preserves X (keeps X (cfg_General X)) any_failure
            (if complex self
             then qmc_set X "complex" (VInt 1);;
                  qmc_set X "use_phase" (VInt 1);;
                  offdiag ← qmc_get X "offdiag";
                  assert_ X (negb (py_eq_int offdiag 0))
                    "Complex does not make sense for diagonal Delta_tau!"
             else mret ())) as Hc.
  { frame_unfold. repeat frame_step ltac:(first [done|exact I]). }
  destruct (Hc _ _ _ Ha) as [<- _].
  do 3 (apply bind_Ok in H1 as (? & [] & [= <-] & H1)).
  apply bind_Ok in H1 as (? & [] & [= <-] & H1).
  do 8 (apply bind_Ok in H1 as (? & [] & [= <-] & H1)).
  by injection H1 as <-.
Qed.

(** The solver object that lines 309-355 leave. *)
Lemma build_solver self l s s' pu :
  build X self l s = (s', Ok pu) →
  solver X s'
  = Some (set_problem X (CtHybSolver X (cfg_General X s) (cfg_QMC X s) (seed_of X l))
            (problem_of self l) None).
Proof.
  unfold build, call_CtHybSolver, call_set_problem, the_solver, print, emit.
  rewrite !bind_run. simpl. by intros [= <- <-].
Qed.

(** The store with which a call reaches the dispatcher, with its
    solver object. *)
Lemma solve_built self kw :
  (Forall is_print (trace X (run_solve X self kw).1)
   ∧ ∀ v, (run_solve X self kw).2 ≠ Ok v)
  ∨ ∃ s1 l s2 s3,
      translate X self kw (init_state X self) = (s1, Ok l)
      ∧ complex self && worm l = false
      ∧ Forall is_print (trace X s2)
      ∧ trace X s3
        = trace X s2 ++ [EvCtHybSolver (cfg_QMC X s2) (seed_of X l);
                         EvPrint "........................................";
                         EvSetProblem (problem_of self l) None]
      ∧ cfg_QMC X s3 = cfg_QMC X s2
      ∧ solver X s3
        = Some (set_problem X
                  (CtHybSolver X (<["beta" := VFloat (beta self)]> (get_cfg X (norb l)).1)
                     (cfg_QMC X s2) (seed_of X l))
                  (problem_of self l) None)
      ∧ outputs s3 = outputs (init_state X self)
      ∧ run_solve X self kw
        = (dispatch X self l (problem_of self l) (umatrix_of self l)
             ≫= after_dispatch X l (problem_of self l) (umatrix_of self l)) s3.
Proof.
  unfold run_solve. rewrite solve_unfold, bind_run.
  destruct (translate X self kw (init_state X self)) as [s1 [l|e]] eqn:Ht;
    destruct (translate_quiet X self kw _ _ _ Ht) as [Hq%moves_quiet _];
    destruct (translate_keeps_outputs self kw _ _ _ Ht) as [Ho1 _];
    [|left; simpl; rewrite Hq; by split; [constructor|]].
  destruct (translate_store X _ _ _ _ _ Ht) as (m & _ & _ & HG1 & _).
  simpl in Hq. unfold after_translate, check_complex_worm.
  destruct (complex self && worm l) eqn:Hcw.
  { left. rewrite !bind_run. unfold print, emit, modify. simpl. rewrite Hq. simpl.
    split; [by repeat constructor|done]. }
  rewrite bind_run. change ((mret () : M X ()) s1) with (s1, Ok ()).
  cbn iota. rewrite bind_run.
  destruct (configure X self l s1) as [s2 [[]|e]] eqn:Hc;
    destruct (configure_prints X self l _ _ _ Hc) as [[(t & Htr & Hpr) _] _];
    destruct (configure_keeps_outputs self l _ _ _ Hc) as [Ho2 _];
    rewrite Hq in Htr; simpl in Htr;
    [|left; simpl; rewrite Htr; split; [done|]; done].
  right. unfold after_configure. rewrite bind_run.
  destruct (build_run X self l s2) as (s3 & Hb & Htr3 & Hq3). rewrite Hb.
  destruct (build_store _ _ _ _ _ Hb) as [_ Ho3].
  pose proof (build_solver _ _ _ _ _ Hb) as Hsol.
  exists s1, l, s2, s3.
  split; [done|]. split; [done|]. split; [by rewrite Htr|].
  split; [done|]. split; [done|].
  split; [by rewrite Hsol, (configure_General _ _ _ _ Hc), HG1|].
  split; [unfold keeps in *; congruence|]. reflexivity.
Qed.

(** *** Lines 362-373: the standard invocation *)

Lemma standard_run imp_problem U iter_no s s' o :
  is_Some (solver X s) →
  standard X imp_problem U iter_no s = (s', o) →
  trace X s' = trace X s ++ [EvSetProblem imp_problem None; EvSetUmatrix U;
                             EvSolve (cfg_QMC X s) iter_no]
  ∧ cfg_QMC X s' = cfg_QMC X s ∧ outputs s' = outputs s
  ∧ ∀ rg, o = Ok rg →
      ∃ r g, rg = (Some r, Some (GtauArray g))
             ∧ dict_get "gtau-full" (other r) = Some g.
Proof.
  intros [e He].
  unfold standard, call_set_problem, call_set_umatrix, call_solve, engine_return,
    the_solver, print, emit, modify, gets, lift_opt.
  rewrite !bind_run. simpl. rewrite He. simpl.
  repeat (progress (rewrite ?bind_run; simpl)).
  match goal with
  | |- context [solver_solve X ?a ?b ?c] => destruct (solver_solve X a b c) as [e' [r|]]
  end; simpl.
  - destruct (dict_get "gtau-full" (other r)) as [g|] eqn:Hg; simpl;
      intros [= <- <-]; simpl; rewrite <-!app_assoc;
      (split; [done|]); (split; [done|]); (split; [done|]); [|done].
    intros rg [= <-]. by exists r, g.
  - intros [= <- <-]. simpl. rewrite <-!app_assoc. done.
Qed.

(** The result of the standard invocation is what the engine answers
    to [solve] on the solver object after lines 362-363. *)
Lemma standard_answer imp_problem U iter_no s s' rg e :
  solver X s = Some e →
  standard X imp_problem U iter_no s = (s', Ok rg) →
  ∃ r, rg.1 = Some r
       ∧ (solver_solve X (set_umatrix X (set_problem X e imp_problem None) U)
            (cfg_QMC X s) iter_no).2 = Some r.
Proof.
  intros He.
  unfold standard, call_set_problem, call_set_umatrix, call_solve, engine_return,
    the_solver, print, emit, modify, gets, lift_opt.
  rewrite !bind_run. simpl. rewrite He. simpl.
  repeat (progress (rewrite ?bind_run; simpl)).
  match goal with
  | |- context [solver_solve X ?a ?b ?c] =>
      destruct (solver_solve X a b c) as [e' [r|]] eqn:Hr
  end; simpl; [|done].
  destruct (dict_get "gtau-full" (other r)) as [g|]; simpl; [|done].
  intros [= <- <-]. by exists r.
Qed.

(** *** Lines 611-663: the automatic two-particle sampling *)

Definition g4iw_key (kv : string * ndarray V) : Prop := contains "g4iw-worm" kv.1 = true.

Lemma dict_set_key {A} (P : string * A → Prop) k (v : A) d :
  P (k, v) → Forall P d → Forall P (dict_set k v d).
Proof.
  intros Hk. induction 1 as [|[k' v'] d Hx Hd IH]; simpl; [by repeat constructor|].
  case_decide; constructor; done.
Qed.

Lemma collect_keys (other : list (string * ndarray V)) : ∀ g,
  Forall g4iw_key g →
  Forall g4iw_key
    (foldl (λ g kv, if contains "g4iw-worm" kv.1 then dict_set kv.1 kv.2 g else g) g other).
Proof.
  induction other as [|[k v] other IH]; intros g Hg; simpl; [done|].
  apply IH. destruct (contains "g4iw-worm" k) eqn:Hk; [|done].
  by apply dict_set_key.
Qed.

(** The loop of lines 640-659 when it ends: one call of
    [solve_comp_stats(1, 4, icomponent)] for each component, in order. *)
Lemma sample_g4iw_Ok imp_problem U components : ∀ g4iw s s' g,
  sample_g4iw X imp_problem U components g4iw s = (s', Ok g) →
  Forall g4iw_key g4iw →
  ∃ t, trace X s' = trace X s ++ t
       ∧ comp_stats_calls t = (λ c, (1, 4, c)%Z) <$> components
       ∧ constructions t = []
       ∧ solve_calls t = []
       ∧ cfg_QMC X s' = cfg_QMC X s
       ∧ outputs s' = outputs s
       ∧ Forall g4iw_key g.
Proof.
  induction components as [|c components IH]; intros g4iw s s' g H Hg; simpl in H.
  { injection H as <- <-. exists []. by rewrite app_nil_r. }
  apply bind_Ok in H as (s1 & [] & H1 & H).
  apply bind_Ok in H as (s2 & FourPnt & H2 & H).
  apply bind_Ok in H as (s3 & [] & H3 & H).
  apply bind_Ok in H as (s4 & [] & H4 & H).
  apply bind_Ok in H as (s5 & r & H5 & H).
  apply IH in H as (t & Htr & Hcalls & Hcons & Hsol & Hq & Ho & Hkeys);
    [|by apply collect_keys].
  assert (∃ t1, trace X s1 = trace X s ++ t1 ∧ Forall is_print t1
                ∧ cfg_QMC X s1 = cfg_QMC X s ∧ outputs s1 = outputs s)
    as (t1 & Htr1 & Hpr1 & Hq1 & Ho1).
  { unfold print_rank0, print, emit, modify in H1. case_decide; injection H1 as <-.
    - eexists. split; [reflexivity|]. by repeat constructor.
    - exists []. by rewrite app_nil_r. }
  unfold qmc_get, gets in H2. apply bind_Ok in H2 as (? & q & [= <- <-] & H2).
  apply lift_opt_Ok in H2 as [_ ->].
  unfold call_set_problem, the_solver, emit, modify, gets in H3.
  apply bind_Ok in H3 as (? & [] & [= <-] & H3).
  apply bind_Ok in H3 as (? & e3 & H3' & [= <-]).
  apply bind_Ok in H3' as (? & o3 & [= <- <-] & [_ ->]%lift_opt_Ok).
  unfold call_set_umatrix, the_solver, emit, modify, gets in H4.
  apply bind_Ok in H4 as (? & [] & [= <-] & H4).
  apply bind_Ok in H4 as (? & e4 & H4' & [= <-]).
  apply bind_Ok in H4' as (? & o4 & [= <- <-] & [_ ->]%lift_opt_Ok).
  unfold call_solve_comp_stats, engine_return, the_solver, emit, modify, gets in H5.
  apply bind_Ok in H5 as (? & q5 & [= <- <-] & H5).
  apply bind_Ok in H5 as (? & [] & [= <-] & H5).
  apply bind_Ok in H5 as (? & e5 & H5' & H5).
  apply bind_Ok in H5' as (? & o5 & [= <- <-] & [_ ->]%lift_opt_Ok).
  apply bind_Ok in H5 as (? & [] & [= <-] & [_ ->]%lift_opt_Ok).
  simpl in *.
  exists (t1 ++ [EvSetProblem imp_problem (Some FourPnt); EvSetUmatrix U;
                 EvSolveCompStats (cfg_QMC X s1) 1 4 c] ++ t).
  split; [rewrite Htr, Htr1, <-!app_assoc; done|].
  rewrite comp_stats_calls_app, constructions_app, solve_calls_app,
    (prints_comp_stats _ Hpr1), (prints_solve_calls _ Hpr1), (constructions_prints _ Hpr1).
  simpl. fold (comp_stats_calls t). fold (constructions t). fold (solve_calls t).
  rewrite Hcalls, Hcons, Hsol.
  split; [reflexivity|]. split; [done|]. split; [done|].
  split; [congruence|]. split; [rewrite Ho; exact Ho1|]. done.
Qed.

(** The configuration of the second solver object: lines 613-620. *)
Definition automatic_cfg (l : locals V) (q : gmap string cfgval) : gmap string cfgval :=
  <["WormSearchEta" := VInt 1]> (<["WormMeasG4iw" := VInt 1]>
  (<["PercentageWormReplace" := VFloat (percentagewormreplace l)]>
  (<["PercentageWormInsert" := VFloat (percentageworminsert l)]>
  (<["N4iwb" := VInt (n4iwb l)]> (<["N4iwf" := VInt (n4iwf l)]>
  (<["FourPnt" := VInt 8]> q)))))).

Lemma two_particle_Ok l imp_problem U s s' ret :
  measure_g4iw_ph l = true → default [] (cfg_qmc l) = [] →
  two_particle X l imp_problem U s = (s', Ok ret) →
  ∃ g t,
    ret = Some (RetG4iw g)
    ∧ self_G2_iw_ph X s' = Some g
    ∧ Forall g4iw_key g
    ∧ converted X s' = converted X s
    ∧ trace X s' = trace X s ++ EvCtHybSolver (automatic_cfg l (cfg_QMC X s)) (seed_of X l) :: t
    ∧ constructions t = []
    ∧ solve_calls t = []
    ∧ comp_stats_calls t
      = (λ c, (1, 4, c)%Z)
          <$> default (seqZ 1 (Z.of_nat ((2 * norb l) ^ 4))) (wormcomponents l).
Proof.
  intros Hm Hc H. unfold two_particle in H. rewrite Hm, Hc in H.
  change (true && bool_decide (length (@nil (string * cfgval)) = 0)) with true in H.
  cbn iota in H.
  do 7 (apply bind_Ok in H as (? & [] & [= <-] & H)).
  apply bind_Ok in H as (s1 & [] & H1 & H).
  apply bind_Ok in H as (s2 & g & H2 & H).
  apply bind_Ok in H as (s3 & [] & [= <-] & H).
  injection H as <- <-.
  unfold call_CtHybSolver, emit, modify, gets in H1.
  apply bind_Ok in H1 as (? & cg & [= <- <-] & H1).
  apply bind_Ok in H1 as (? & cq & [= <- <-] & H1).
  apply bind_Ok in H1 as (? & [] & [= <-] & [= <-]).
  apply sample_g4iw_Ok in H2 as (t & Htr & Hcalls & Hcons & Hsol & Hq & Ho & Hkeys); [|done].
  exists g, t.
  split; [done|]. split; [done|]. split; [done|].
  split; [exact (f_equal (λ o, o.1.1.1) Ho)|].
  split; [|done]. simpl. rewrite Htr. simpl. by rewrite <-app_assoc.
Qed.

(** *** Lines 441-510: the four-operator sector *)

(** The components of the list, as lines 466-478 make them. *)
Lemma component_indices_ints norb (zs : list Z) s s' cs :
  component_indices X norb (VList (CompInt <$> zs)) s = (s', Ok cs) →
  cs = filter (λ c, 0 < c)%Z zs.
Proof.
  intros [= _ <-]. induction zs as [|z zs IH]; [done|].
  rewrite fmap_cons, bind_cons, IH, filter_cons. by case_bool_decide; case_decide.
Qed.

Lemma single_entry_Ok pat r s s' g : single_entry X pat r s = (s', Ok g) → s' = s.
Proof.
  unfold single_entry, raise, mret, M_ret. repeat case_match; intros; by simplify_eq.
Qed.

(** A computation that only prints. *)
Definition printer (m : M X ()) : Prop :=
  ∀ s, ∃ t, m s = (set_trace X (λ t0, t0 ++ t) s, Ok ()) ∧ Forall is_print t.

Lemma printer_print_rank0 text : printer (print_rank0 X text).
Proof.
  intros s. unfold print_rank0, print, emit, modify. case_decide.
  - eexists. split; [reflexivity|]. by repeat constructor.
  - exists []. split; [|done]. destruct s. unfold set_trace. simpl. by rewrite app_nil_r.
Qed.

Lemma printer_bind (m1 m2 : M X ()) : printer m1 → printer m2 → printer (m1;; m2).
Proof.
  intros H1 H2 s. destruct (H1 s) as (t1 & E1 & Hp1).
  destruct (H2 (set_trace X (λ t0, t0 ++ t1) s)) as (t2 & E2 & Hp2).
  exists (t1 ++ t2). split; [|by apply Forall_app].
  rewrite bind_run, E1. cbn iota beta. rewrite E2.
  destruct s. unfold set_trace. simpl. by rewrite app_assoc.
Qed.

Lemma banner_run text s :
  ∃ t, banner X text s = (set_trace X (λ t0, t0 ++ t) s, Ok ()) ∧ Forall is_print t.
Proof.
  revert s. unfold banner. repeat apply printer_bind; apply printer_print_rank0.
Qed.

(** The loop of lines 484-510 when it ends: one call of
    [solve_comp_stats(0, worm_sector, component)] and one entry of
    [self.G2_worm_components] for each component, in order. *)
Lemma four_operator_loop imp_problem U sector components : ∀ s s' u,
  for_each X components (λ component,
    banner X "worm sampling four point component: ";;
    FourPnt ← qmc_get X "FourPnt";
    call_set_problem X imp_problem (Some FourPnt);;
    call_set_umatrix X U;;
    result_comp ← call_solve_comp_stats X 0 sector component;
    g4iw ← single_entry X "g4iw-worm" result_comp;
    modify X (set_self_G2_worm_components X
              (λ acc, acc ++ [(component, ds_mean X g4iw (mpi_size X),
                               ds_stderr X g4iw (mpi_size X))]))) s = (s', Ok u) →
  ∃ t, trace X s' = trace X s ++ t
       ∧ comp_stats_calls t = (λ c, (0%Z, sector, c)) <$> components
       ∧ constructions t = []
       ∧ cfg_QMC X s' = cfg_QMC X s
       ∧ (self_G2_worm_components X s').*1.*1
         = (self_G2_worm_components X s).*1.*1 ++ components
       ∧ converted X s' = converted X s.
Proof.
  induction components as [|c components IH]; intros s s' u H; simpl in H.
  { injection H as <-. exists []. by rewrite !app_nil_r. }
  apply bind_Ok in H as (s6 & [] & Hbody & H).
  apply IH in H as (t & Htr & Hcalls & Hcons & Hq & Hcomp & Hconv).
  apply bind_Ok in Hbody as (s1 & [] & H1 & Hbody).
  destruct (banner_run "worm sampling four point component: " s) as (t1 & Hb & Hpr1).
  rewrite Hb in H1. injection H1 as <-.
  apply bind_Ok in Hbody as (s2 & FourPnt & H2 & Hbody).
  unfold qmc_get, gets in H2. apply bind_Ok in H2 as (? & q & [= <- <-] & H2).
  apply lift_opt_Ok in H2 as [_ ->].
  apply bind_Ok in Hbody as (s3 & [] & H3 & Hbody).
  unfold call_set_problem, the_solver, emit, modify, gets in H3.
  apply bind_Ok in H3 as (? & [] & [= <-] & H3).
  apply bind_Ok in H3 as (? & e3 & H3' & [= <-]).
  apply bind_Ok in H3' as (? & o3 & [= <- <-] & [_ ->]%lift_opt_Ok).
  apply bind_Ok in Hbody as (s4 & [] & H4 & Hbody).
  unfold call_set_umatrix, the_solver, emit, modify, gets in H4.
  apply bind_Ok in H4 as (? & [] & [= <-] & H4).
  apply bind_Ok in H4 as (? & e4 & H4' & [= <-]).
  apply bind_Ok in H4' as (? & o4 & [= <- <-] & [_ ->]%lift_opt_Ok).
  apply bind_Ok in Hbody as (s5 & r & H5 & Hbody).
  unfold call_solve_comp_stats, engine_return, the_solver, emit, modify, gets in H5.
  apply bind_Ok in H5 as (? & q5 & [= <- <-] & H5).
  apply bind_Ok in H5 as (? & [] & [= <-] & H5).
  apply bind_Ok in H5 as (? & e5 & H5' & H5).
  apply bind_Ok in H5' as (? & o5 & [= <- <-] & [_ ->]%lift_opt_Ok).
  apply bind_Ok in H5 as (? & [] & [= <-] & [_ ->]%lift_opt_Ok).
  apply bind_Ok in Hbody as (s7 & g & H7 & Hm).
  apply single_entry_Ok in H7 as ->. injection Hm as <-.
  simpl in *.
  exists (t1 ++ [EvSetProblem imp_problem (Some FourPnt); EvSetUmatrix U;
                 EvSolveCompStats (cfg_QMC X s) 0 sector c] ++ t).
  split; [rewrite Htr, <-!app_assoc; done|].
  rewrite comp_stats_calls_app, constructions_app, (prints_comp_stats _ Hpr1),
    (constructions_prints _ Hpr1). simpl.
  fold (comp_stats_calls t). fold (constructions t). rewrite Hcalls, Hcons.
  split; [done|]. split; [done|]. split; [done|].
  split; [|done]. rewrite Hcomp, !fmap_app, <-app_assoc. done.
Qed.

(** In worm mode outside the two-operator sector the local [result]
    is never bound. *)
Lemma dispatch_unbound_result self l imp_problem U s s' rg :
  complex self = false → worm l = true →
  worm_get_sector_index X (cfg_QMC X s) ≠ 2%Z →
  dispatch X self l imp_problem U s = (s', Ok rg) → rg.1 = None.
Proof.
  intros Hc Hw Hsec. unfold dispatch. rewrite Hc, Hw. cbn [negb].
  destruct (measure_G_tau l || measure_G_l l || measure_pert_order l);
    [|by intros [= _ <-]].
  rewrite bind_run. unfold gets. cbn iota beta.
  rewrite bool_decide_eq_false_2 by done.
  assert (yields X (λ rg : option (result V) * option (gtau_t V), rg.1 = None)
            (FourPnt ← qmc_get X "FourPnt";
             if py_eq_int FourPnt 8 then worm_four_operator X self l imp_problem U
             else b ← any_reduced_flag X;
                  if (b : bool) then worm_reduced X self l imp_problem U
                  else mret (None, None))) as Hy.
  { apply yields_bind; intros FourPnt. destruct (py_eq_int FourPnt 8).
    - unfold worm_four_operator. repeat (apply yields_bind; intros ?). by apply yields_ret.
    - apply yields_bind; intros []; [|by apply yields_ret].
      unfold worm_reduced. repeat (apply yields_bind; intros ?). by apply yields_ret. }
  intros H. exact (Hy _ _ _ H).
Qed.

(** *** Lines 682-726: the conversion *)

(** What the conversion has done when it returns. *)
Lemma convert_Ok l res gtau s s' v :
  convert X l res gtau s = (s', Ok v) →
  trace X s' = trace X s
  ∧ (if measure_G_tau l then
       ∃ offdiag, cfg_QMC X s !! "offdiag" = Some offdiag
         ∧ if py_eq_int offdiag 0 && negb (worm l) then
             ∃ r g0 g, res = Some r ∧ dict_get "gtau" (other r) = Some g0
                       ∧ bs_diagflat g0 = inr g ∧ self_G_tau X s' = Some (GtauArray g)
           else is_Some gtau ∧ self_G_tau X s' = gtau
     else self_G_tau X s' = self_G_tau X s)
  ∧ (if measure_pert_order l then
       ∃ r, res = Some r ∧ is_Some (self_hist X s')
            ∧ self_hist X s' = dict_get "hist" (other r)
     else self_hist X s' = self_hist X s)
  ∧ (if measure_G_l l then
       ∃ r, res = Some r ∧ is_Some (self_G_l X s')
            ∧ self_G_l X s' = dict_get "gleg-full" (other r)
     else self_G_l X s' = self_G_l X s)
  ∧ (v = RetNone ∨ measure_G_tau l = true ∧ ∃ r, res = Some r ∧ v = RetResult r).
Proof.
  unfold convert. intros H.
  apply bind_Ok in H as (s1 & [] & H1 & H).
  apply bind_Ok in H as (s2 & [] & H2 & H).
  apply bind_Ok in H as (s3 & [] & H3 & H).
  apply bind_Ok in H as (s4 & b & H4 & H).
  assert (s4 = s3) as ->.
  { assert (preserves X (keeps X id) any_failure (any_worm_flag X)) as Hp.
    { frame_unfold. repeat frame_step ltac:(first [done|exact I]). }
    by destruct (Hp _ _ _ H4) as [Hk _]. }
  assert (s' = s3 ∧ (v = RetNone ∨ measure_G_tau l = true
            ∧ ∃ r, res = Some r ∧ v = RetResult r)) as [-> Hv].
  { destruct b; [injection H as <- <-; by split; [|left]|].
    destruct (measure_G_tau l); [|injection H as <- <-; by split; [|left]].
    apply bind_Ok in H as (? & r & [Hr ->]%lift_opt_Ok & [= <- <-]).
    split; [done|]. right. split; [done|]. by exists r. }
  assert (trace X s1 = trace X s ∧ self_hist X s1 = self_hist X s
          ∧ self_G_l X s1 = self_G_l X s
          ∧ if measure_G_tau l then
              ∃ offdiag, cfg_QMC X s !! "offdiag" = Some offdiag
                ∧ if py_eq_int offdiag 0 && negb (worm l) then
                    ∃ r g0 g, res = Some r ∧ dict_get "gtau" (other r) = Some g0
                      ∧ bs_diagflat g0 = inr g ∧ self_G_tau X s1 = Some (GtauArray g)
                  else is_Some gtau ∧ self_G_tau X s1 = gtau
            else self_G_tau X s1 = self_G_tau X s) as (Ht1 & Hh1 & Hl1 & Hg1).
  { destruct (measure_G_tau l); [|by injection H1 as <-].
    apply bind_Ok in H1 as (? & offdiag & Hoff & H1).
    unfold qmc_get, gets in Hoff. apply bind_Ok in Hoff as (? & q & [= <- <-] & Hoff).
    apply lift_opt_Ok in Hoff as [Hoff ->].
    apply bind_Ok in H1 as (sa & gt & Hgt & H1).
    apply bind_Ok in H1 as (sb & g & [Hg ->]%lift_opt_Ok & [= <-]).
    destruct (py_eq_int offdiag 0 && negb (worm l)) eqn:Hcase.
    - apply bind_Ok in Hgt as (? & r & [Hr ->]%lift_opt_Ok & Hgt).
      apply bind_Ok in Hgt as (? & g0 & [Hg0 ->]%lift_opt_Ok & Hgt).
      apply bind_Ok in Hgt as (? & g1 & Hg1 & [= <- <-]).
      unfold lift_res in Hg1. destruct (bs_diagflat g0) as [?|g2] eqn:Hbs; [done|].
      injection Hg1 as <- <-. injection Hg as <-.
      simpl. split; [done|]. split; [done|]. split; [done|].
      exists offdiag. split; [done|]. rewrite Hcase. by exists r, g0, g2.
    - injection Hgt as <- <-. simpl. split; [done|]. split; [done|]. split; [done|].
      exists offdiag. split; [done|]. rewrite Hcase. by rewrite Hg. }
  assert (trace X s2 = trace X s1 ∧ self_G_tau X s2 = self_G_tau X s1
          ∧ self_G_l X s2 = self_G_l X s1
          ∧ if measure_pert_order l then
              ∃ r, res = Some r ∧ is_Some (self_hist X s2)
                   ∧ self_hist X s2 = dict_get "hist" (other r)
            else self_hist X s2 = self_hist X s1) as (Ht2 & Hg2 & Hl2 & Hh2).
  { destruct (measure_pert_order l); [|by injection H2 as <-].
    apply bind_Ok in H2 as (? & r & [Hr ->]%lift_opt_Ok & H2).
    apply bind_Ok in H2 as (? & h & [Hh ->]%lift_opt_Ok & [= <-]).
    simpl. split; [done|]. split; [done|]. split; [done|].
    exists r. by rewrite Hh. }
  assert (trace X s3 = trace X s2 ∧ self_G_tau X s3 = self_G_tau X s2
          ∧ self_hist X s3 = self_hist X s2
          ∧ if measure_G_l l then
              ∃ r, res = Some r ∧ is_Some (self_G_l X s3)
                   ∧ self_G_l X s3 = dict_get "gleg-full" (other r)
            else self_G_l X s3 = self_G_l X s2) as (Ht3 & Hg3 & Hh3 & Hl3).
  { destruct (measure_G_l l); [|by injection H3 as <-].
    apply bind_Ok in H3 as (? & r & [Hr ->]%lift_opt_Ok & H3).
    apply bind_Ok in H3 as (? & h & [Hh ->]%lift_opt_Ok & [= <-]).
    simpl. split; [done|]. split; [done|]. split; [done|].
    exists r. by rewrite Hh. }
  split; [congruence|].
  split.
  { destruct (measure_G_tau l); [|congruence].
    destruct Hg1 as (offdiag & Hoff & Hg1). exists offdiag. split; [done|].
    destruct (py_eq_int offdiag 0 && negb (worm l)).
    - destruct Hg1 as (r & g0 & g & ? & ? & ? & ?). exists r, g0, g.
      repeat split; try done. congruence.
    - destruct Hg1 as [? ?]. split; [done|]. congruence. }
  split.
  { destruct (measure_pert_order l); [|congruence].
    destruct Hh2 as (r & ? & ? & ?). exists r. rewrite Hh3. done. }
  split; [|done].
  destruct (measure_G_l l); [done|congruence].
Qed.

(** Lines 712-715 on a configuration: whether a two-particle estimator
    is switched on, with the look-ups in the order of the [or]; [None]
    where a key read is missing. *)
Definition worm_flag (q : gmap string cfgval) : option bool :=
  FourPnt ← q !! "FourPnt";
  if py_eq_int FourPnt 8 then Some true else
  P3 ← q !! "WormMeasP3iwPH";
  if py_eq_int P3 1 then Some true else
  P2iw ← q !! "WormMeasP2iwPH";
  if py_eq_int P2iw 1 then Some true else
  P2tau ← q !! "WormMeasP2tauPH";
  Some (py_eq_int P2tau 1).

Lemma any_worm_flag_run s s' b :
  any_worm_flag X s = (s', Ok b) → worm_flag (cfg_QMC X s) = Some b.
Proof.
  unfold any_worm_flag, any_reduced_flag, worm_flag, qmc_get, gets, lift_opt, raise.
  rewrite !bind_run. simpl.
  destruct (cfg_QMC X s !! "FourPnt") as [f|]; simpl; [|done].
  destruct (py_eq_int f 8); [by intros [= <- <-]|].
  rewrite !bind_run. simpl.
  destruct (cfg_QMC X s !! "WormMeasP3iwPH") as [p3|]; simpl; [|done].
  destruct (py_eq_int p3 1); [by intros [= <- <-]|].
  rewrite !bind_run. simpl.
  destruct (cfg_QMC X s !! "WormMeasP2iwPH") as [p2|]; simpl; [|done].
  destruct (py_eq_int p2 1); [by intros [= <- <-]|].
  rewrite !bind_run. simpl.
  destruct (cfg_QMC X s !! "WormMeasP2tauPH") as [p2t|]; simpl; [|done].
  by intros [= <- <-].
Qed.

(** What lines 712-726 return: nothing when a two-particle estimator
    is switched on in the configuration, else [result] with
    [measure_G_tau] and nothing without. *)
Lemma convert_returns l res gtau s s' v :
  convert X l res gtau s = (s', Ok v) →
  ∃ flag, worm_flag (cfg_QMC X s) = Some flag
    ∧ if flag then v = RetNone
      else if measure_G_tau l then ∃ r, res = Some r ∧ v = RetResult r
      else v = RetNone.
Proof.
  unfold convert. intros H.
  apply bind_Ok in H as (s1 & [] & H1 & H).
  apply bind_Ok in H as (s2 & [] & H2 & H).
  apply bind_Ok in H as (s3 & [] & H3 & H).
  apply bind_Ok in H as (s4 & b & H4 & H).
  assert (cfg_QMC X s1 = cfg_QMC X s ∧ cfg_QMC X s2 = cfg_QMC X s1
          ∧ cfg_QMC X s3 = cfg_QMC X s2) as (Hq1 & Hq2 & Hq3).
  { repeat split;
      match goal with
      | H : ?m ?a = (?b, Ok ()) |- cfg_QMC X ?b = cfg_QMC X ?a =>
          assert (preserves X (keeps X (cfg_QMC X)) any_failure m) as Hp;
          [frame_unfold; repeat frame_step ltac:(first [done|exact I])
          |by destruct (Hp _ _ _ H) as [? _]]
      end. }
  apply any_worm_flag_run in H4. rewrite Hq3, Hq2, Hq1 in H4.
  exists b. split; [done|].
  destruct b; [by injection H as _ <-|].
  destruct (measure_G_tau l); [|by injection H as _ <-].
  apply bind_Ok in H as (? & r & [Hr ->]%lift_opt_Ok & [= _ <-]). by exists r.
Qed.

(** Lines 682-726 print nothing and call no engine. *)
Lemma convert_trace l res gtau s s' o :
  convert X l res gtau s = (s', o) → trace X s' = trace X s.
Proof.
  intros H. destruct (convert_quiet X l res gtau _ _ _ H) as [Hm _].
  by apply moves_quiet in Hm.
Qed.

Lemma convert_keeps_G2 l res gtau :
  preserves X (keeps X (self_G2_iw_ph X)) any_failure (convert X l res gtau).
Proof.
  unfold convert. frame_unfold. repeat frame_step ltac:(first [done|exact I]).
Qed.

(** *** The call without the automatic two-particle sampling *)

Lemma two_particle_off l imp_problem U s :
  measure_g4iw_ph l = false ∨ default [] (cfg_qmc l) ≠ [] →
  two_particle X l imp_problem U s = (s, Ok None).
Proof.
  intros [H|H]; [|by apply two_particle_skip].
  unfold two_particle. by rewrite H.
Qed.

Lemma rest_unfold self l imp_problem U s :
  measure_g4iw_ph l = false ∨ default [] (cfg_qmc l) ≠ [] →
  (dispatch X self l imp_problem U ≫= after_dispatch X l imp_problem U) s
  = match dispatch X self l imp_problem U s with
    | (s4, Ok rg) => convert X l rg.1 rg.2 s4
    | (s4, Raise e) => (s4, Raise e)
    end.
Proof.
  intros H. rewrite bind_run.
  destruct (dispatch X self l imp_problem U s) as [s4 [rg|e]]; [|done..].
  unfold after_dispatch. by rewrite bind_run, two_particle_off.
Qed.

Lemma dispatch_standard self l imp_problem U :
  worm l = false →
  dispatch X self l imp_problem U
  = if measure_G_tau l || measure_G_l l || measure_pert_order l
    then standard X imp_problem U (if complex self then None else Some 1%Z)
    else mret (None, None).
Proof. intros Hw. unfold dispatch. rewrite Hw. by destruct (complex self). Qed.

(** Outside worm mode lines 357-605 leave the configuration as it
    is. *)
Lemma dispatch_plain self l imp_problem U s s' o :
  worm l = false → is_Some (solver X s) →
  dispatch X self l imp_problem U s = (s', o) → cfg_QMC X s' = cfg_QMC X s.
Proof.
  intros Hw Hsol. rewrite dispatch_standard by done.
  destruct (measure_G_tau l || measure_G_l l || measure_pert_order l).
  - intros H. by destruct (standard_run _ _ _ _ _ _ Hsol H) as (_ & ? & _).
  - by intros [= <- <-].
Qed.

Lemma ret_run {A} (a : A) (s : state X) : (mret a : M X A) s = (s, Ok a).
Proof. done. Qed.

Lemma qmc_get_run key s v : cfg_QMC X s !! key = Some v → qmc_get X key s = (s, Ok v).
Proof. intros H. unfold qmc_get, gets, lift_opt. rewrite bind_run. cbn iota beta. by rewrite H. Qed.

Lemma any_reduced_flag_off s p3 p2iw p2tau :
  cfg_QMC X s !! "WormMeasP3iwPH" = Some p3 → py_eq_int p3 1 = false →
  cfg_QMC X s !! "WormMeasP2iwPH" = Some p2iw → py_eq_int p2iw 1 = false →
  cfg_QMC X s !! "WormMeasP2tauPH" = Some p2tau → py_eq_int p2tau 1 = false →
  any_reduced_flag X s = (s, Ok false).
Proof.
  intros H3 H31 H2 H21 Ht Ht1. unfold any_reduced_flag.
  rewrite bind_run, (qmc_get_run _ _ _ H3). cbn iota beta. rewrite H31.
  rewrite bind_run, (qmc_get_run _ _ _ H2). cbn iota beta. rewrite H21.
  rewrite bind_run, (qmc_get_run _ _ _ Ht). cbn iota beta. by rewrite Ht1.
Qed.

(** Writes to the configuration add keys, they remove none. *)
Lemma apply_manual_is_Some m : ∀ (q : gmap string cfgval) k,
  is_Some (q !! k) → is_Some (apply_manual m q !! k).
Proof.
  induction m as [|[k' v'] m IH]; intros q k Hk; [done|].
  simpl. apply IH. apply lookup_insert_is_Some'. by right.
Qed.

Lemma configured_is_Some (self : Self V) (l : locals V) m (q : gmap string cfgval) k :
  is_Some (q !! k) → is_Some (apply_manual m (worm_cfg l (sampling_cfg self l q)) !! k).
Proof.
  intros Hk. apply apply_manual_is_Some. unfold worm_cfg, sampling_cfg.
  repeat case_match; repeat (apply lookup_insert_is_Some'; right); done.
Qed.

(** *** One call after another *)

(** [self] as a call leaves it for the next one: of the attributes
    that a call reads, [solve] writes [Delta_tau] alone. *)
Definition next_self (self : Self V) (s : state X) : Self V := {|
  beta := beta self; n_iw := n_iw self; n_tau := n_tau self; n_l := n_l self;
  delta_interface := delta_interface self; complex := complex self;
  Delta_tau := self_Delta_tau X s;
  G0_Delta_tau := G0_Delta_tau self; G0_t_ij_lst := G0_t_ij_lst self
|}.

(** Every impurity problem of a call holds the flipped hybridization
    function. *)
Lemma problems_shown self kw blocks :
  flip_Delta (hybridization self) = Some blocks →
  Forall (λ e, match e with
               | EvSetProblem p _ =>
                   ip_ftau p = cast self (triqs_gf_to_w2dyn_ndarray_g_tosos_beta_ntau X blocks)
               | _ => True
               end)
    (trace X (run_solve X self kw).1).
Proof.
  intros Hflip. unfold run_solve. rewrite solve_unfold, bind_run.
  destruct (translate X self kw (init_state X self)) as [s1 [l|e]] eqn:Ht;
    destruct (translate_quiet X self kw _ _ _ Ht) as [Hq%moves_quiet _].
  - destruct (translate_Ok X self kw (init_state X self) _ _ eq_refl Ht)
      as (?&?&?&?&blocks0&_&_&_&_&_&_&_&Hfl&_&Hftau&_).
    rewrite Hflip in Hfl. injection Hfl as <-.
    destruct (after_translate X self l s1) as [s2 o] eqn:Ha.
    destruct (after_translate_events X self l _ _ _ Ha) as [[(t & Htr & Hev) _] _].
    cbn [fst]. rewrite Htr, Hq. simpl.
    eapply Forall_impl; [exact Hev|].
    intros [] He; try done. simpl in He. rewrite He. simpl. by rewrite Hftau.
  - cbn [fst]. rewrite Hq. constructor.
Qed.

End Facts.
End PathFacts.

(** * Further properties of [solve] *)

Module Extras.
Import NdArray Py Solver NdArrayFacts TensorFacts CallFacts SolveFacts SectorFacts RunFacts
  ConfigFacts TensorMore FrameFacts ReachFacts PathFacts Example.

Section Calls.
Context {V : Type} `{!NumpyScalar V} (X : externals V).

(** X1.  [n_cycles] and [h_int] have no default, and neither has [h_0]
    with the hybridization interface: a call without one of them ends
    with the KeyError of the first that is missing, in the order
    [n_cycles], [h_int], [h_0], before anything is printed or the
    engine is called. *)
Theorem required_arguments (self : Self V) (kw : kwargs V) (key : string) :
  (kw_n_cycles kw = None ∧ key = "n_cycles")
  ∨ (is_Some (kw_n_cycles kw) ∧ kw_h_int kw = None ∧ key = "h_int")
  ∨ (is_Some (kw_n_cycles kw) ∧ is_Some (kw_h_int kw)
     ∧ delta_interface self = true ∧ kw_h_0 kw = None ∧ key = "h_0") →
  (run_solve X self kw).2 = Raise (KeyError key)
  ∧ trace X (run_solve X self kw).1 = [].
Proof.
  unfold run_solve, solve, translate.
  intros [[Hn ->]|[([n Hn] & HU & ->)|([n Hn] & [U HU] & Hd & Hh & ->)]];
    rewrite !bind_run, Hn; simpl; [done|..]; rewrite !bind_run, HU; simpl; [done|].
  rewrite Hd, !bind_run, Hh. done.
Qed.

(** X2.  An interaction tensor whose number of entries is not
    (2*norb)^4 for [norb = shape[0] // 2] (an odd flavour dimension,
    say, or axes of different lengths) is rejected by the reshape of
    line 147: the call ends with a ValueError before anything is
    printed or the engine is called. *)
Theorem interaction_tensor_rejected (self : Self V) (kw : kwargs V) (U : ndarray V) (d : nat) :
  is_Some (kw_n_cycles kw) → kw_h_int kw = Some U →
  (delta_interface self = true → is_Some (kw_h_0 kw)) →
  wf U → head (shape U) = Some d → size (shape U) ≠ (2 * (d / 2)) ^ 4 →
  (run_solve X self kw).2 = Raise ValueError
  ∧ trace X (run_solve X self kw).1 = [].
Proof.
  intros [n Hn] HU Hh Hwf Hd Hsize.
  assert (transform_U (d / 2) U = None) as HtU.
  { unfold transform_U, reshape. rewrite decide_False; [done|].
    rewrite Hwf. intros Heq. apply Hsize. rewrite <-Heq.
    generalize (d / 2). intros k. simpl. ring. }
  change (d / 2) with (Nat.divmod d 1 0 1).1 in HtU.
  unfold run_solve, solve, translate.
  rewrite !bind_run, Hn; simpl. rewrite !bind_run, HU; simpl.
  destruct (delta_interface self).
  - destruct (Hh eq_refl) as [t Ht]. rewrite !bind_run, Ht. simpl.
    rewrite !bind_run, Hd. simpl. rewrite !bind_run. simpl. by rewrite HtU.
  - simpl. rewrite !bind_run, Hd. simpl. rewrite !bind_run. simpl. by rewrite HtU.
Qed.

(** X3.  Before its first call into the engine a call only prints, and
    that first call is the construction of the solver object (line
    314), seeded with [random_seed + mpi.rank], where [random_seed] is
    1 when it is not given. *)
Theorem solver_built_first (self : Self V) (kw : kwargs V)
    (pre post : list (event V)) (e : event V) :
  trace X (run_solve X self kw).1 = pre ++ e :: post →
  Forall is_print pre → is_engine_call e →
  ∃ q, e = EvCtHybSolver q (default 1 (kw_random_seed kw) + Z.of_nat (mpi_rank X))%Z.
Proof.
  intros Htr Hpre He.
  destruct (construction_cases X self kw)
    as [[Hpr _]|(s1 & l & s2 & s3 & m & t & Ht & _ & _ & Hpr & Htr3 & _ & _ & Htr' & _)].
  { rewrite Htr in Hpr. apply Forall_app in Hpr as [_ Hpr].
    apply Forall_cons in Hpr as [Hp _]. by destruct e. }
  rewrite Htr', Htr3, <-app_assoc in Htr. simpl in Htr.
  destruct (first_engine_call _ _ _ _ _ _ Htr Hpr Hpre I He) as (_ & <- & _).
  destruct (translate_store X _ _ _ _ _ Ht) as (?&_&_&_&_&_&_&_&_&Hseed&_).
  exists (cfg_QMC X s2). unfold seed_of. by rewrite Hseed.
Qed.

(** X4.  Lines 204-215: unless [cfg_qmc] sets the key, the solver
    object is built with [offdiag = 0] when the largest block of the
    hybridization function is 1 by 1 and with [offdiag = 1] otherwise,
    also when there is no block at all. *)
Theorem offdiag_flag (self : Self V) (kw : kwargs V) (q : gmap string cfgval) (m : nat) :
  head (constructions (trace X (run_solve X self kw).1)) = Some q →
  foldl Nat.max 0 <$> mapM (λ b, last (shape b.2)) (hybridization self) = Some m →
  "offdiag" ∉ (default [] (kw_cfg_qmc kw)).*1 →
  q !! "offdiag" = Some (VInt (if decide (m = 1) then 0 else 1)).
Proof.
  intros Hq Hm Hk.
  destruct (first_construction X self kw q Hq) as (s1 & l & m' & _ & Hm' & ->).
  unfold max_blocksize in Hm'. rewrite Hm in Hm'. injection Hm' as <-.
  rewrite apply_manual_notin by done. cfg_lookup.
Qed.

(** X5.  Lines 222-228: in complex mode (without worm mode) a
    hybridization function whose largest block is 1 by 1 is refused:
    when lines 108-215 raise nothing, the call ends with the assertion
    error of line 227, having printed nothing and called no engine. *)
Theorem complex_needs_offdiagonal (self : Self V) (kw : kwargs V) (s : state X) (l : locals V) :
  complex self = true → default false (kw_worm kw) = false →
  max_blocksize (hybridization self) = Some 1 →
  translate X self kw (init_state X self) = (s, Ok l) →
  (run_solve X self kw).2
  = Raise (AssertionError "Complex does not make sense for diagonal Delta_tau!")
  ∧ trace X (run_solve X self kw).1 = [].
Proof.
  intros Hc Hw Hm Ht.
  destruct (translate_quiet X self kw _ _ _ Ht) as [Hq%moves_quiet _]. simpl in Hq.
  destruct (translate_Ok X self kw (init_state X self) _ _ eq_refl Ht)
    as (?&?&?&?&blocks&_&_&_&_&_&_&_&Hflip&Hblocks&_&_&_&Hworm&_).
  destruct (translate_store X _ _ _ _ _ Ht) as (m & Hm' & Hq1 & _).
  rewrite Hblocks, (flip_Delta_blocksize _ _ Hflip), Hm in Hm'. injection Hm' as <-.
  destruct (configure_sampling_diagonal X self l s (VInt 0) Hc) as [Hr Htr].
  { rewrite Hq1. apply lookup_insert_eq. }
  { done. }
  unfold run_solve. rewrite solve_unfold, bind_run, Ht.
  unfold after_translate, check_complex_worm. rewrite Hworm, Hw, andb_false_r.
  rewrite bind_run. change ((mret () : M X ()) s) with (s, Ok ()). cbn iota.
  unfold configure. rewrite !bind_run.
  destruct (configure_sampling X self l s) as [sa o]. simpl in Hr, Htr. subst o.
  simpl. by rewrite Htr.
Qed.

(** X6.  Lines 249-268: the solver object is built with [Niw = n_iw],
    with twice [n_tau] time bins, with [length_cycle * n_warmup_cycles]
    warm-up steps (50 * 5000 by default), [n_cycles] measurements,
    [Ncorr = length_cycle] and the measurement time [max_time] (-1 by
    default), each unless [cfg_qmc] sets the key. *)
Theorem engine_grid_and_budget (self : Self V) (kw : kwargs V) (q : gmap string cfgval) (n : Z) :
  head (constructions (trace X (run_solve X self kw).1)) = Some q →
  kw_n_cycles kw = Some n →
  ("Niw" ∉ (default [] (kw_cfg_qmc kw)).*1 →
     q !! "Niw" = Some (VInt (Z.of_nat (n_iw self))))
  ∧ ("Ntau" ∉ (default [] (kw_cfg_qmc kw)).*1 →
     q !! "Ntau" = Some (VInt (2 * Z.of_nat (n_tau self))))
  ∧ ("Nwarmups" ∉ (default [] (kw_cfg_qmc kw)).*1 →
     q !! "Nwarmups"
     = Some (VInt (default 50 (kw_length_cycle kw) * default 5000 (kw_n_warmup_cycles kw))%Z))
  ∧ ("Nmeas" ∉ (default [] (kw_cfg_qmc kw)).*1 → q !! "Nmeas" = Some (VInt n))
  ∧ ("Ncorr" ∉ (default [] (kw_cfg_qmc kw)).*1 →
     q !! "Ncorr" = Some (VInt (default 50%Z (kw_length_cycle kw))))
  ∧ ("measurement_time" ∉ (default [] (kw_cfg_qmc kw)).*1 →
     q !! "measurement_time" = Some (VInt (default (-1)%Z (kw_max_time kw)))).
Proof.
  intros Hq Hn.
  destruct (first_construction X self kw q Hq) as (s1 & l & m & Ht & _ & ->).
  destruct (translate_store X _ _ _ _ _ Ht)
    as (?&_&_&_&_&Hn'&Hwarm&Hmax&Hlen&_).
  rewrite Hn in Hn'. injection Hn' as Hn'.
  repeat split; intros Hk; rewrite apply_manual_notin by done.
  - cfg_lookup.
  - replace (2 * Z.of_nat (n_tau self))%Z with (Z.of_nat (n_tau self * 2)) by lia. cfg_lookup.
  - rewrite <-Hlen, <-Hwarm. cfg_lookup.
  - rewrite Hn'. cfg_lookup.
  - rewrite <-Hlen. cfg_lookup.
  - rewrite <-Hmax. cfg_lookup.
Qed.

(** X7.  Lines 270-276: in worm mode the estimators [WormMeasGiw] and
    [WormMeasGtau] and [WormSearchEta] are switched on only when the
    call has no [cfg_qmc] argument.  With one, even an empty mapping,
    each of the three keys that the mapping does not set keeps the
    value of the parameter file. *)
Theorem worm_measurement_flags (self : Self V) (kw : kwargs V) (q : gmap string cfgval)
    (U : ndarray V) (d : nat) (k : string) :
  kw_worm kw = Some true → kw_h_int kw = Some U → head (shape U) = Some d →
  head (constructions (trace X (run_solve X self kw).1)) = Some q →
  k ∈ ["WormMeasGiw"; "WormMeasGtau"; "WormSearchEta"] →
  (kw_cfg_qmc kw = None → q !! k = Some (VInt 1))
  ∧ (∀ m, kw_cfg_qmc kw = Some m → k ∉ m.*1 → q !! k = (get_cfg X (d / 2)).2 !! k).
Proof.
  intros Hw HU Hd Hq Hk.
  destruct (first_construction X self kw q Hq) as (s1 & l & m0 & Ht & _ & ->).
  destruct (translate_Ok X self kw (init_state X self) _ _ eq_refl Ht)
    as (U'&?&d'&?&?&HU'&_&Hd'&_&_&Hnorb&_&_&_&_&_&_&Hworm&Hcfg&_).
  rewrite HU in HU'. injection HU' as <-. rewrite Hd in Hd'. injection Hd' as <-.
  rewrite Hw in Hworm. simpl in Hworm. rewrite Hnorb.
  split.
  - intros Hnone. rewrite Hnone. simpl. unfold worm_cfg. rewrite Hworm, Hcfg, Hnone.
    repeat (apply elem_of_cons in Hk as [->|Hk]);
      [| |  |by apply elem_of_nil in Hk];
      rewrite ?lookup_insert_ne by done; apply lookup_insert_eq.
  - intros m Hm Hnot. rewrite Hm. simpl. rewrite apply_manual_notin by done.
    unfold worm_cfg. rewrite Hworm, Hcfg, Hm.
    repeat (apply elem_of_cons in Hk as [->|Hk]);
      [| |  |by apply elem_of_nil in Hk];
      rewrite !lookup_insert_ne by done; unfold sampling_cfg;
      destruct (complex self); by rewrite !lookup_insert_ne by done.
Qed.

(** X8.  Lines 288-292: every entry of [cfg_qmc] is in the
    configuration the solver object is built from, whatever the other
    arguments of the call ask for, also outside worm mode and without
    [measure_G2_iw_ph].  The mapping is given as the list of its
    items, so the condition on the keys after the entry holds for every
    entry of a dict. *)
Theorem manual_entries_hold (self : Self V) (kw : kwargs V) (q : gmap string cfgval)
    (m1 m2 : list (string * cfgval)) (k : string) (v : cfgval) :
  head (constructions (trace X (run_solve X self kw).1)) = Some q →
  kw_cfg_qmc kw = Some (m1 ++ (k, v) :: m2) → k ∉ m2.*1 →
  q !! k = Some v.
Proof.
  intros Hq Hm Hk.
  destruct (first_construction X self kw q Hq) as (s1 & l & m & _ & _ & ->).
  rewrite Hm. simpl. by apply apply_manual_last.
Qed.

(** X9.  Lines 169-176 and 326-341: the one-particle matrix is negated
    and taken from flavour order to (orbital, spin, orbital, spin), so
    that the entry at (o1, s1, o2, s2) is minus the entry of the matrix
    at flavours (s1*norb+o1, s2*norb+o2); this tensor ([np.real] of it
    outside complex mode) is the [muimp] of every impurity problem
    handed to the engine. *)
Theorem hopping_negated_permuted (self : Self V) (kw : kwargs V) (t : ndarray V) (n : nat) :
  hopping X self kw = Some t → wf t → shape t = [2 * n; 2 * n] →
  ∃ t',
    transform_t n (NdArray.map np_neg t) = Some t'
    ∧ shape t' = [n; 2; n; 2]
    ∧ (∀ o1 s1 o2 s2, o1 < n → s1 < 2 → o2 < n → s2 < 2 →
         get t' [o1; s1; o2; s2] = np_neg <$> get t [s1 * n + o1; s2 * n + o2])
    ∧ Forall (λ e, match e with
                   | EvSetProblem p _ => ip_muimp p = cast self t'
                   | _ => True
                   end)
        (trace X (run_solve X self kw).1).
Proof.
  intros Hhop Hwf Hsh.
  destruct (transform_t_entries n (NdArray.map np_neg t)) as (t' & Ht' & _ & Hsh' & Hget).
  { by apply map_wf. }
  { done. }
  exists t'. split; [done|]. split; [done|]. split.
  { intros o1 s1 o2 s2 ????. rewrite Hget by done. apply get_map. }
  unfold run_solve. rewrite solve_unfold, bind_run.
  destruct (translate X self kw (init_state X self)) as [s1 [l|e]] eqn:Ht;
    destruct (translate_quiet X self kw _ _ _ Ht) as [Hq%moves_quiet _];
    [|cbn [fst]; rewrite Hq; constructor..].
  destruct (translate_Ok X self kw (init_state X self) _ _ eq_refl Ht)
    as (?&t0&dU&dt&?&_&Hhop'&_&Hdt&Hsame&_&_&_&_&_&Htosos&_).
  rewrite Hhop in Hhop'. injection Hhop' as <-.
  assert (dU / 2 = n) as Hn.
  { rewrite <-Hsame. rewrite Hsh in Hdt. injection Hdt as <-.
    change (n + (n + 0)) with (2 * n). rewrite (Nat.mul_comm 2 n). by apply Nat.div_mul. }
  rewrite Hn, Ht' in Htosos. injection Htosos as Htl.
  destruct (after_translate X self l s1) as [s2 o] eqn:Ha.
  destruct (after_translate_events X self l _ _ _ Ha) as [[(tr & Htr & Hev) _] _].
  cbn [fst]. rewrite Htr, Hq. simpl.
  eapply Forall_impl; [exact Hev|].
  intros [] He; try done. simpl in He. rewrite He. simpl. by rewrite Htl.
Qed.

(** X10.  Line 167 writes into the blocks of [self.Delta_tau]: once
    lines 108-215 have passed, the call leaves that attribute negated
    and time-reversed, whatever happens afterwards, and nothing in the
    call undoes it.  Flipping those blocks once more gives back the
    hybridization function as it was before line 166, for a scalar
    type on which negation is an involution. *)
Theorem hybridization_flipped_in_place (self : Self V) (kw : kwargs V)
    (s : state X) (l : locals V) :
  (∀ x : V, np_neg (np_neg x) = x) →
  Forall (λ b, wf b.2) (hybridization self) →
  translate X self kw (init_state X self) = (s, Ok l) →
  ∃ blocks',
    flip_Delta (hybridization self) = Some blocks'
    ∧ self_Delta_tau X (run_solve X self kw).1 = blocks'
    ∧ flip_Delta blocks' = Some (hybridization self).
Proof.
  intros Hneg Hwf Ht.
  destruct (translate_Ok X self kw (init_state X self) _ _ eq_refl Ht)
    as (?&?&?&?&blocks&_&_&_&_&_&_&_&Hflip&Hblocks&_).
  exists blocks. split; [done|]. split; [|by apply flip_Delta_involutive].
  unfold run_solve. rewrite solve_unfold, bind_run, Ht.
  destruct (after_translate X self l s) as [s2 o] eqn:Ha.
  destruct (after_translate_keeps_Delta X self l _ _ _ Ha) as [Hk _].
  cbn [fst]. by rewrite Hk.
Qed.

(** X11.  The [raise NotImplementedError] of line 546 is dead code:
    the branch of lines 514-516 is entered only when one of the three
    estimators is switched on, and then one of the cases of lines
    529-544 holds.  It is the only place where [solve] itself raises
    this exception, so no call ends with it. *)
Theorem not_implemented_unreachable (self : Self V) (kw : kwargs V) :
  (run_solve X self kw).2 ≠ Raise NotImplementedError.
Proof.
  unfold run_solve. apply (preserves_implemented X (anywhere X)), solve_implemented.
Qed.

(** X12.  Lines 357-373: a call outside worm mode that builds its
    solver object, and does not run the automatic two-particle
    sampling, builds no second one and calls [solver.solve] exactly
    once, with the configuration the object was built from and
    [iter_no = 1] (without [iter_no] in complex mode), when one of
    [measure_G_tau], [measure_G_l] and [measure_pert_order] is set; it
    samples nothing when none is.  It never asks for a component. *)
Theorem standard_invocation (self : Self V) (kw : kwargs V) (q : gmap string cfgval) :
  head (constructions (trace X (run_solve X self kw).1)) = Some q →
  default false (kw_worm kw) = false →
  default false (kw_measure_G2_iw_ph kw) = false ∨ default [] (kw_cfg_qmc kw) ≠ [] →
  constructions (trace X (run_solve X self kw).1) = [q]
  ∧ solve_calls (trace X (run_solve X self kw).1)
    = (if default true (kw_measure_G_tau kw) || default false (kw_measure_G_l kw)
          || default false (kw_measure_pert_order kw)
       then [(q, if complex self then None else Some 1%Z)] else [])
  ∧ comp_stats_calls (trace X (run_solve X self kw).1) = []
  ∧ solve_component_calls (trace X (run_solve X self kw).1) = [].
Proof.
  intros Hq Hw Hauto.
  destruct (solve_started X self kw)
    as [(Hpr & _)|(s1 & l & s2 & s3 & Ht & Hcw & Hc & Hpr & Htr3 & Hq3 & Hsol & Ho & Hrun)].
  { by rewrite (constructions_prints _ Hpr) in Hq. }
  destruct (translate_Ok X self kw (init_state X self) _ _ eq_refl Ht)
    as (?&?&?&?&?&_&_&_&_&_&_&_&_&_&_&_&_&Hworm&Hcfg&Hg4&_).
  destruct (translate_store X _ _ _ _ _ Ht)
    as (?&_&_&_&_&_&_&_&_&_&_&HGl&HGtau&Hpert&_).
  rewrite <-Hg4, <-Hcfg in Hauto. rewrite Hw in Hworm.
  rewrite <-HGl, <-HGtau, <-Hpert.
  assert (trace X (run_solve X self kw).1
          = trace X s3 ++
            if measure_G_tau l || measure_G_l l || measure_pert_order l
            then [EvSetProblem (problem_of self l) None; EvSetUmatrix (umatrix_of self l);
                  EvSolve (cfg_QMC X s3) (if complex self then None else Some 1%Z)]
            else []) as Htr.
  { rewrite Hrun, rest_unfold, dispatch_standard by done.
    destruct (measure_G_tau l || measure_G_l l || measure_pert_order l).
    - destruct (standard X (problem_of self l) (umatrix_of self l)
                  (if complex self then None else Some 1%Z) s3) as [s4 o4] eqn:Hst.
      destruct (standard_run X _ _ _ _ _ _ Hsol Hst) as (Htr4 & _).
      destruct o4 as [rg|e]; [|done..].
      destruct (convert X l rg.1 rg.2 s4) as [s5 o5] eqn:Hcv.
      cbn [fst]. by rewrite (convert_trace X _ _ _ _ _ _ Hcv).
    - change ((mret (None, None) : M X _) s3) with (s3, Ok (@None (result V), @None (gtau_t V))).
      cbn iota. cbn [fst snd]. destruct (convert X l None None s3) as [s5 o5] eqn:Hcv.
      cbn [fst]. by rewrite (convert_trace X _ _ _ _ _ _ Hcv), app_nil_r. }
  rewrite Htr, Htr3, Hq3 in *.
  unfold solve_component_calls.
  rewrite !constructions_app, !solve_calls_app, !comp_stats_calls_app, !omap_app in *.
  fold (solve_component_calls (trace X s2)).
  destruct (prints_no_calls _ Hpr) as [Hnc _].
  rewrite (constructions_prints _ Hpr) in Hq.
  rewrite (constructions_prints _ Hpr), (prints_solve_calls _ Hpr),
    (prints_comp_stats _ Hpr), Hnc.
  simpl in Hq. injection Hq as <-.
  by destruct (measure_G_tau l || measure_G_l l || measure_pert_order l).
Qed.

(** X13.  Lines 611-663: with [measure_G2_iw_ph] and no entry in
    [cfg_qmc], a call that returns, returns the mapping [g4iw] from
    which it has also made [self.G2_iw_ph]; every key of the mapping
    contains the text g4iw-worm.  The conversion of lines 682-709 is
    skipped:
    [self.G_tau], [self.hist] and [self.G_l] stay unset, also when
    [measure_G_tau] is left at its default and lines 357-605 have
    sampled. *)
Theorem automatic_g2_returns (self : Self V) (kw : kwargs V) (v : retval V) :
  kw_measure_G2_iw_ph kw = Some true → default [] (kw_cfg_qmc kw) = [] →
  (run_solve X self kw).2 = Ok v →
  ∃ g4iw,
    v = RetG4iw g4iw
    ∧ self_G2_iw_ph X (run_solve X self kw).1 = Some g4iw
    ∧ Forall (λ kv, contains "g4iw-worm" kv.1 = true) g4iw
    ∧ self_G_tau X (run_solve X self kw).1 = None
    ∧ self_hist X (run_solve X self kw).1 = None
    ∧ self_G_l X (run_solve X self kw).1 = None.
Proof.
  intros Hg2 Hm Hv.
  destruct (solve_started X self kw)
    as [(_ & Hno & _)|(s1 & l & s2 & s3 & Ht & Hcw & Hc & Hpr & Htr3 & Hq3 & Hsol & Ho & Hrun)].
  { by destruct (Hno v). }
  destruct (translate_Ok X self kw (init_state X self) _ _ eq_refl Ht)
    as (?&?&?&?&?&_&_&_&_&_&_&_&_&_&_&_&_&_&Hcfg&Hg4&_).
  rewrite Hg2 in Hg4. rewrite <-Hcfg in Hm. simpl in Hg4.
  rewrite Hrun in *.
  destruct ((dispatch X self l (problem_of self l) (umatrix_of self l)
               ≫= after_dispatch X l (problem_of self l) (umatrix_of self l)) s3)
    as [s5 o5] eqn:Hrest.
  simpl in Hv. subst o5.
  apply bind_Ok in Hrest as (s4 & rg & Hd & Ha).
  destruct (dispatch_frame X (keeps X (converted X)) any_failure (λ _ _, I) I
              self l _ _ _ _ _ Hd) as [Hk4 _].
  unfold after_dispatch in Ha. apply bind_Ok in Ha as (s5' & ret & Htp & Ha).
  destruct (two_particle_Ok X _ _ _ _ _ _ Hg4 Hm Htp)
    as (g & t & -> & HG2 & Hkeys & Hk5 & _).
  injection Ha as <- <-.
  exists g. split; [done|]. split; [done|]. split; [done|].
  assert (converted X s5' = (None, None, None)) as Hconv.
  { rewrite Hk5, Hk4. exact (f_equal (λ o, o.1.1.1) Ho). }
  cbn [fst]. by injection Hconv.
Qed.

(** X14.  Lines 613-650: with [measure_G2_iw_ph] and no entry in
    [cfg_qmc], a call that returns has built exactly two solver
    objects.  The second is built last but for its sampling calls,
    with the seed of the first, from a configuration in which the
    seven keys of lines 615-621 hold what those lines write:
    [FourPnt = 8], [N4iwf = measure_G2_n_fermionic] (default 30),
    [N4iwb = measure_G2_n_bosonic - 1] (default 29),
    [PercentageWormInsert] and [PercentageWormReplace] as the caller
    gave them (default 0.2, and a 0.0 that was given is written as
    0.0), [WormMeasG4iw = 1] and [WormSearchEta = 1].  Outside worm
    mode every other key is as in the configuration of the first
    solver object; in worm mode so is every other key but [Nmeas] and
    [measurement_time], which line 407 or 409 may have divided in
    between and on which nothing is said here.  The second solver
    object is asked for [solve_comp_stats(1, 4, c)] once for each [c]
    of [worm_components] in order, or for each of 1, ..., (2*norb)**4
    when that argument is absent, and for nothing else. *)
Theorem automatic_g2_sampling (self : Self V) (kw : kwargs V) (v : retval V)
    (U : ndarray V) (d : nat) :
  kw_measure_G2_iw_ph kw = Some true → default [] (kw_cfg_qmc kw) = [] →
  kw_h_int kw = Some U → head (shape U) = Some d →
  (run_solve X self kw).2 = Ok v →
  ∃ t1 q q' t2,
    trace X (run_solve X self kw).1
    = t1 ++ EvCtHybSolver q' (default 1 (kw_random_seed kw) + Z.of_nat (mpi_rank X))%Z :: t2
    ∧ constructions t1 = [q] ∧ constructions t2 = [] ∧ solve_calls t2 = []
    ∧ comp_stats_calls t2
      = (λ c, (1, 4, c)%Z)
          <$> default (seqZ 1 (Z.of_nat ((2 * (d / 2)) ^ 4))) (kw_worm_components kw)
    ∧ q' !! "FourPnt" = Some (VInt 8)
    ∧ q' !! "N4iwf" = Some (VInt (default 30%Z (kw_measure_G2_n_fermionic kw)))
    ∧ q' !! "N4iwb" = Some (VInt (default 30%Z (kw_measure_G2_n_bosonic kw) - 1))
    ∧ q' !! "PercentageWormInsert"
      = Some (VFloat (default 0x1.999999999999ap-3%float (kw_PercentageWormInsert kw)))
    ∧ q' !! "PercentageWormReplace"
      = Some (VFloat (default 0x1.999999999999ap-3%float (kw_PercentageWormReplace kw)))
    ∧ q' !! "WormMeasG4iw" = Some (VInt 1)
    ∧ q' !! "WormSearchEta" = Some (VInt 1)
    ∧ ∀ k, ¬ automatic_key k →
           default false (kw_worm kw) = false ∨ ¬ budget_key k →
           q' !! k = q !! k.
Proof.
  intros Hg2 Hm HU Hd Hv.
  destruct (solve_started X self kw)
    as [(_ & Hno & _)|(s1 & l & s2 & s3 & Ht & Hcw & Hc & Hpr & Htr3 & Hq3 & Hsol & Ho & Hrun)].
  { by destruct (Hno v). }
  destruct (translate_Ok X self kw (init_state X self) _ _ eq_refl Ht)
    as (U'&?&d'&?&?&HU'&_&Hd'&_&_&Hnorb&_&_&_&_&_&_&Hworm&Hcfg&Hg4&Hins&Hrep).
  rewrite HU in HU'. injection HU' as <-. rewrite Hd in Hd'. injection Hd' as <-.
  destruct (translate_store X _ _ _ _ _ Ht)
    as (?&_&_&_&_&_&_&_&_&Hseed&_&_&_&_&_&_&_&Hnf&Hnb&Hwc).
  rewrite Hg2 in Hg4. rewrite <-Hcfg in Hm. simpl in Hg4.
  rewrite Hrun in *.
  destruct ((dispatch X self l (problem_of self l) (umatrix_of self l)
               ≫= after_dispatch X l (problem_of self l) (umatrix_of self l)) s3)
    as [s5 o5] eqn:Hrest.
  simpl in Hv. subst o5.
  apply bind_Ok in Hrest as (s4 & rg & Hd4 & Ha).
  destruct (dispatch_events X self l _ _ _ _ _ Hd4) as [[(td & Htd & Hev) Hkeys4] _].
  unfold after_dispatch in Ha. apply bind_Ok in Ha as (s5' & ret & Htp & Ha).
  destruct (two_particle_Ok X _ _ _ _ _ _ Hg4 Hm Htp)
    as (g & t & -> & _ & _ & _ & Htr5 & Hcons & Hsolve & Hcalls).
  injection Ha as <- <-.
  exists (trace X s4), (cfg_QMC X s2), (automatic_cfg l (cfg_QMC X s4)), t.
  cbn [fst]. unfold seed_of in Htr5. rewrite Hseed in Htr5.
  split; [exact Htr5|].
  split.
  { rewrite Htd, Htr3, !constructions_app, (constructions_prints _ Hpr),
      (constructions_dispatch _ _ _ Hev). done. }
  split; [done|]. split; [done|].
  split; [by rewrite Hcalls, Hnorb, Hwc|].
  unfold automatic_cfg.
  split; [by rewrite !lookup_insert_ne by done; apply lookup_insert_eq|].
  split; [rewrite !lookup_insert_ne by done; rewrite Hnf; apply lookup_insert_eq|].
  split; [rewrite !lookup_insert_ne by done; rewrite Hnb; apply lookup_insert_eq|].
  split; [rewrite !lookup_insert_ne by done; rewrite Hins; apply lookup_insert_eq|].
  split; [rewrite !lookup_insert_ne by done; rewrite Hrep; apply lookup_insert_eq|].
  split; [by rewrite !lookup_insert_ne by done; apply lookup_insert_eq|].
  split; [by apply lookup_insert_eq|].
  intros k Hk Hb. unfold automatic_key in Hk.
  assert (cfg_QMC X s4 !! k = cfg_QMC X s3 !! k) as Hsame.
  { destruct Hb as [Hw|Hb]; [|by apply Hkeys4].
    rewrite Hw in Hworm. by rewrite (dispatch_plain X _ _ _ _ _ _ _ Hworm Hsol Hd4). }
  clear Hb.
  rewrite !lookup_insert_ne by (intros <-; apply Hk; set_solver).
  by rewrite <-Hq3.
Qed.

(** X15.  Lines 441-510, the four-operator worm sector, for a list
    [cfg["QMC"]["WormComponents"]] of ints: the entries that are not
    positive are dropped without a message; for each of the others, in
    order, the sector calls [solve_comp_stats(0, worm_sector, c)] once
    and appends one entry for [c] to [self.G2_worm_components], which
    line 454 has emptied.  The sector builds no solver object and
    leaves the local [result] unbound. *)
Theorem four_operator_components (self : Self V) (l : locals V)
    (imp_problem : ImpurityProblem V) (U : ndarray V) (s s' : state X)
    (rg : option (result V) * option (gtau_t V)) (zs : list Z) :
  cfg_QMC X s !! "WormComponents" = Some (VList (CompInt <$> zs)) →
  worm_four_operator X self l imp_problem U s = (s', Ok rg) →
  ∃ t,
    trace X s' = trace X s ++ t
    ∧ comp_stats_calls t
      = (λ c, (0%Z, worm_get_sector_index X (cfg_QMC X s), c)) <$> filter (λ c, 0 < c)%Z zs
    ∧ (self_G2_worm_components X s').*1.*1 = filter (λ c, 0 < c)%Z zs
    ∧ constructions t = []
    ∧ rg.1 = None.
Proof.
  intros Hwc H. unfold worm_four_operator in H.
  apply bind_Ok in H as (s1 & [] & H1 & H).
  assert (∃ t1, s1 = set_trace X (λ t0, t0 ++ t1) s ∧ Forall is_print t1) as (t1 & -> & Hpr1).
  { unfold worm_warning, print, emit, modify in H1.
    destruct (wormcomponents l); injection H1 as <-.
    - eexists. split; [reflexivity|]. by repeat constructor.
    - exists []. split; [|done]. destruct s. unfold set_trace. simpl. by rewrite app_nil_r. }
  unfold qmc_get, gets in H.
  apply bind_Ok in H as (? & ? & (? & ? & [= <- <-] & [_ ->]%lift_opt_Ok)%bind_Ok & H).
  apply bind_Ok in H as (? & ? & (? & ? & [= <- <-] & [_ ->]%lift_opt_Ok)%bind_Ok & H).
  apply bind_Ok in H as (? & [] & [= <-] & H).
  apply bind_Ok in H as (? & q & [= <- <-] & H).
  apply bind_Ok in H as (? & wc & (? & ? & [= <- <-] & [Hwc' ->]%lift_opt_Ok)%bind_Ok & H).
  cbn [cfg_QMC set_trace set_self_G2_worm_components] in Hwc', H.
  rewrite Hwc in Hwc'. injection Hwc' as <-.
  apply bind_Ok in H as (? & components & Hci & H).
  pose proof Hci as Hci'. apply component_indices_ints in Hci' as ->.
  injection Hci as <-.
  apply bind_Ok in H as (s2 & [] & H2 & H).
  destruct (printer_print_rank0 X "WormComponents = "
              (set_self_G2_worm_components X (λ _, []) (set_trace X (λ t0, t0 ++ t1) s)))
    as (t2 & E2 & Hpr2).
  rewrite E2 in H2. injection H2 as <-.
  apply bind_Ok in H as (s3 & [] & H3 & H).
  match type of H3 with
  | print_rank0 X ?text ?s0 = _ => destruct (printer_print_rank0 X text s0) as (t3 & E3 & Hpr3)
  end.
  rewrite E3 in H3. injection H3 as <-.
  apply bind_Ok in H as (s4 & [] & Hloop & [= <- <-]).
  apply four_operator_loop in Hloop as (t & Htr & Hcalls & Hcons & _ & Hcomp & _).
  exists (t1 ++ t2 ++ t3 ++ t).
  split; [rewrite Htr; simpl; by rewrite <-!app_assoc|].
  rewrite !comp_stats_calls_app, !constructions_app.
  rewrite !prints_comp_stats by done. rewrite !constructions_prints by done.
  rewrite Hcalls, Hcons, Hcomp. done.
Qed.

(** X16.  Lines 702-709: the local [result] is bound only outside worm
    mode and in the two-operator sector.  So a worm call in another
    sector that asks for [measure_pert_order] or [measure_G_l], and
    does not run the automatic two-particle sampling, never returns:
    what it has sampled is lost in the NameError (in Python an
    UnboundLocalError) of line 704 or 709, or in an exception raised
    before. *)
Theorem worm_result_unbound (self : Self V) (kw : kwargs V) (q : gmap string cfgval)
    (v : retval V) :
  kw_worm kw = Some true →
  kw_measure_pert_order kw = Some true ∨ kw_measure_G_l kw = Some true →
  default false (kw_measure_G2_iw_ph kw) = false ∨ default [] (kw_cfg_qmc kw) ≠ [] →
  head (constructions (trace X (run_solve X self kw).1)) = Some q →
  worm_get_sector_index X q ≠ 2%Z →
  (run_solve X self kw).2 ≠ Ok v.
Proof.
  intros Hw Hmeas Hauto Hq Hsec Hv.
  destruct (solve_started X self kw)
    as [(_ & Hno & _)|(s1 & l & s2 & s3 & Ht & Hcw & Hc & Hpr & Htr3 & Hq3 & Hsol & Ho & Hrun)].
  { by destruct (Hno v). }
  destruct (translate_Ok X self kw (init_state X self) _ _ eq_refl Ht)
    as (?&?&?&?&?&_&_&_&_&_&_&_&_&_&_&_&_&Hworm&Hcfg&Hg4&_).
  destruct (translate_store X _ _ _ _ _ Ht)
    as (?&_&_&_&_&_&_&_&_&_&_&HGl&HGtau&Hpert&_).
  rewrite <-Hg4, <-Hcfg in Hauto. rewrite Hw in Hworm. simpl in Hworm.
  rewrite Hworm, andb_true_r in Hcw.
  assert (q = cfg_QMC X s3) as ->.
  { destruct (construction_cases X self kw)
      as [[Hpr' _]|(?&?&?&?&?&?&_&_&_&_&_&_&_&_&_)];
      [by rewrite (constructions_prints _ Hpr') in Hq|].
    destruct ((dispatch X self l (problem_of self l) (umatrix_of self l)
                 ≫= after_dispatch X l (problem_of self l) (umatrix_of self l)) s3)
      as [s5 o5] eqn:Hrest.
    destruct (rest_events X self l _ _ _ Hrest) as [[(t & Htr & Hev) _] _].
    rewrite Hrun in Hq. cbn [fst] in Hq.
    rewrite Htr, Htr3, !constructions_app, (constructions_prints _ Hpr) in Hq.
    simpl in Hq. injection Hq as <-. done. }
  rewrite Hrun, rest_unfold in Hv by done.
  destruct (dispatch X self l (problem_of self l) (umatrix_of self l) s3)
    as [s4 [rg|e]] eqn:Hd; [|done..].
  apply dispatch_unbound_result in Hd; [|done..].
  destruct (convert X l rg.1 rg.2 s4) as [s5 o5] eqn:Hcv. simpl in Hv. subst o5.
  apply convert_Ok in Hcv as (_ & _ & Hh & Hl & _).
  rewrite Hd, Hpert, HGl in *.
  destruct Hmeas as [Hm|Hm]; rewrite Hm in *; simpl in *.
  - by destruct Hh as (? & ? & _).
  - by destruct Hl as (? & ? & _).
Qed.

(** X17.  Lines 357-605 and 683-687: a worm call that does not run
    the automatic two-particle sampling ([measure_G2_iw_ph] is off or
    [cfg_qmc] has an entry) and whose configuration selects no sector
    (the sector index is not 2, [FourPnt] is not 8 and none of the
    three reduced estimators is 1) makes no sampling call at all.
    With [measure_G_tau], given or by default, it ends with the
    NameError (in Python an UnboundLocalError) of line 687, the local
    [gtau] being unbound, after the solver object is built. *)
Theorem worm_without_sector (self : Self V) (kw : kwargs V) (q : gmap string cfgval)
    (f p3 p2iw p2tau : cfgval) :
  kw_worm kw = Some true →
  default false (kw_measure_G2_iw_ph kw) = false ∨ default [] (kw_cfg_qmc kw) ≠ [] →
  head (constructions (trace X (run_solve X self kw).1)) = Some q →
  worm_get_sector_index X q ≠ 2%Z →
  q !! "FourPnt" = Some f → py_eq_int f 8 = false →
  q !! "WormMeasP3iwPH" = Some p3 → py_eq_int p3 1 = false →
  q !! "WormMeasP2iwPH" = Some p2iw → py_eq_int p2iw 1 = false →
  q !! "WormMeasP2tauPH" = Some p2tau → py_eq_int p2tau 1 = false →
  Forall (λ e, ¬ is_sampling e) (trace X (run_solve X self kw).1)
  ∧ (default true (kw_measure_G_tau kw) = true →
     (run_solve X self kw).2 = Raise (NameError "gtau")).
Proof.
  intros Hw Hauto Hq Hsec Hf Hf8 H3 H31 H2 H21 Ht2 Ht21.
  destruct (first_construction X self kw q Hq) as (s1' & l' & m & Ht' & _ & Hqf).
  destruct (solve_started X self kw)
    as [(Hpr & _)|(s1 & l & s2 & s3 & Ht & Hcw & Hc & Hpr & Htr3 & Hq3 & Hsol & Ho & Hrun)].
  { by rewrite (constructions_prints _ Hpr) in Hq. }
  rewrite Ht in Ht'. injection Ht' as <- <-.
  destruct (translate_Ok X self kw (init_state X self) _ _ eq_refl Ht)
    as (?&?&?&?&?&_&_&_&_&_&_&_&_&_&_&_&_&Hworm&Hcfg&Hg4&_).
  destruct (translate_store X _ _ _ _ _ Ht)
    as (?&_&_&_&_&_&_&_&_&_&_&HGl&HGtau&Hpert&_).
  rewrite <-Hg4, <-Hcfg in Hauto. rewrite Hw in Hworm. simpl in Hworm.
  rewrite Hworm, andb_true_r in Hcw.
  assert (is_Some (q !! "offdiag")) as [o Hoff].
  { rewrite Hqf. apply configured_is_Some. rewrite lookup_insert_eq. by eexists. }
  assert (q = cfg_QMC X s3) as Hq_eq.
  { destruct ((dispatch X self l (problem_of self l) (umatrix_of self l)
                 ≫= after_dispatch X l (problem_of self l) (umatrix_of self l)) s3)
      as [s5 o5] eqn:Hrest.
    destruct (rest_events X self l _ _ _ Hrest) as [[(t & Htr & Hev) _] _].
    rewrite Hrun in Hq. cbn [fst] in Hq.
    rewrite Htr, Htr3, !constructions_app, (constructions_prints _ Hpr) in Hq.
    simpl in Hq. injection Hq as <-. done. }
  clear Hqf. subst q.
  assert (dispatch X self l (problem_of self l) (umatrix_of self l) s3
          = (s3, Ok (None, None))) as Hd.
  { unfold dispatch. rewrite Hcw, Hworm. cbn [negb].
    destruct (measure_G_tau l || measure_G_l l || measure_pert_order l); [|done].
    rewrite bind_run. unfold gets. cbn iota beta.
    rewrite bool_decide_eq_false_2 by done.
    rewrite bind_run, (qmc_get_run X _ _ _ Hf). cbn iota beta. rewrite Hf8.
    by rewrite bind_run, (any_reduced_flag_off X _ _ _ _ H3 H31 H2 H21 Ht2 Ht21). }
  rewrite Hrun, rest_unfold, Hd by done. cbn iota beta. cbn [fst snd].
  split.
  - destruct (convert X l None None s3) as [s5 o5] eqn:Hcv.
    cbn [fst]. rewrite (convert_trace X _ _ _ _ _ _ Hcv), Htr3.
    apply Forall_app. split.
    + eapply Forall_impl; [exact Hpr|]. intros [] ?; simpl in *; tauto.
    + repeat constructor; simpl; tauto.
  - intros HGt. rewrite HGt in HGtau.
    unfold convert. rewrite HGtau.
    rewrite !bind_run, (qmc_get_run X _ _ _ Hoff). cbn iota beta.
    rewrite Hworm, andb_false_r. rewrite !bind_run, ret_run. cbn iota beta.
    rewrite bind_run. unfold lift_opt, raise. cbn iota beta. reflexivity.
Qed.

(** X18.  Lines 362-373 and 683-726: a call outside worm mode with
    [measure_G_tau] (the default) that returns, without the automatic
    two-particle sampling, has made one call of [solver.solve], with
    the configuration [q] of its solver object, and [r] is what the
    engine answered to it: the result of [solve] on the solver object
    built from [q] after [set_problem] (twice, lines 355 and 362) and
    the assignment of [umatrix].  [self.G_tau] is made from
    [r.other["gtau-full"]] when the solver object was built with
    [offdiag] other than 0, and from [bs_diagflat] of
    [r.other["gtau"]] when it was built with [offdiag = 0].
    [self.hist] and [self.G_l] are [r.other["hist"]] and
    [r.other["gleg-full"]] when asked for and stay unset otherwise.
    The call returns nothing when [q] has a two-particle estimator
    switched on ([FourPnt] is 8 or one of the three reduced estimators
    is 1, lines 712-715), and [r] when it has none. *)
Theorem standard_results (self : Self V) (kw : kwargs V) (v : retval V) :
  default false (kw_worm kw) = false → default true (kw_measure_G_tau kw) = true →
  default false (kw_measure_G2_iw_ph kw) = false ∨ default [] (kw_cfg_qmc kw) ≠ [] →
  (run_solve X self kw).2 = Ok v →
  ∃ s l q offdiag r g flag,
    translate X self kw (init_state X self) = (s, Ok l)
    ∧ head (constructions (trace X (run_solve X self kw).1)) = Some q
    ∧ q !! "offdiag" = Some offdiag
    ∧ solve_calls (trace X (run_solve X self kw).1)
      = [(q, if complex self then None else Some 1%Z)]
    ∧ (solver_solve X
         (set_umatrix X
            (set_problem X
               (set_problem X
                  (CtHybSolver X (<["beta" := VFloat (beta self)]> (get_cfg X (norb l)).1) q
                     (default 1 (kw_random_seed kw) + Z.of_nat (mpi_rank X))%Z)
                  (problem_of self l) None)
               (problem_of self l) None)
            (umatrix_of self l))
         q (if complex self then None else Some 1%Z)).2 = Some r
    ∧ self_G_tau X (run_solve X self kw).1 = Some (GtauArray g)
    ∧ (if py_eq_int offdiag 0
       then ∃ g0, dict_get "gtau" (other r) = Some g0 ∧ bs_diagflat g0 = inr g
       else dict_get "gtau-full" (other r) = Some g)
    ∧ self_hist X (run_solve X self kw).1
      = (if default false (kw_measure_pert_order kw) then dict_get "hist" (other r) else None)
    ∧ self_G_l X (run_solve X self kw).1
      = (if default false (kw_measure_G_l kw) then dict_get "gleg-full" (other r) else None)
    ∧ worm_flag q = Some flag
    ∧ v = (if flag then RetNone else RetResult r).
Proof.
  intros Hw HGt Hauto Hv.
  destruct (solve_built X self kw)
    as [(_ & Hno)|(s1 & l & s2 & s3 & Ht & Hcw & Hpr & Htr3 & Hq3 & Hsol & Ho & Hrun)].
  { by destruct (Hno v). }
  destruct (translate_Ok X self kw (init_state X self) _ _ eq_refl Ht)
    as (?&?&?&?&?&_&_&_&_&_&_&_&_&_&_&_&_&Hworm&Hcfg&Hg4&_).
  destruct (translate_store X _ _ _ _ _ Ht)
    as (?&_&_&_&_&_&_&_&_&Hseed&_&HGl&HGtau&Hpert&_).
  rewrite <-Hg4, <-Hcfg in Hauto. rewrite Hw in Hworm. rewrite HGt in HGtau.
  rewrite <-HGl, <-Hpert.
  rewrite Hrun, rest_unfold, dispatch_standard in * by done.
  rewrite HGtau in *. cbn [orb] in *.
  destruct (standard X (problem_of self l) (umatrix_of self l)
              (if complex self then None else Some 1%Z) s3) as [s4 [rg|e]] eqn:Hst; [|done].
  destruct (standard_run X _ _ _ _ _ _ ltac:(by rewrite Hsol) Hst) as (Htr4 & Hq4 & Ho4 & Hrg).
  destruct (standard_answer X _ _ _ _ _ _ _ Hsol Hst) as (r0 & Hr0 & Hans).
  destruct (Hrg rg eq_refl) as (r & g' & -> & Hfull).
  injection Hr0 as <-.
  destruct (convert X l (Some r, Some (GtauArray g')).1 (Some r, Some (GtauArray g')).2 s4)
    as [s5 o5] eqn:Hcv.
  cbn [fst snd] in *. subst o5.
  pose proof (convert_trace X _ _ _ _ _ _ Hcv) as Htr5.
  destruct (convert_returns X _ _ _ _ _ _ Hcv) as (flag & Hflag & Hret).
  apply convert_Ok in Hcv as (_ & Hg & Hh & Hl & _).
  rewrite HGtau, Hworm in Hg. destruct Hg as (offdiag & Hoff & Hg).
  rewrite andb_true_r in Hg.
  assert (∃ g, self_G_tau X s5 = Some (GtauArray g)
               ∧ if py_eq_int offdiag 0
                 then ∃ g0, dict_get "gtau" (other r) = Some g0 ∧ bs_diagflat g0 = inr g
                 else dict_get "gtau-full" (other r) = Some g) as (g & HG & Hsrc).
  { destruct (py_eq_int offdiag 0).
    - destruct Hg as (r' & g0 & g & [= <-] & ? & ? & ?). exists g. eauto.
    - destruct Hg as [_ ?]. by exists g'. }
  exists s1, l, (cfg_QMC X s4), offdiag, r, g, flag.
  split; [done|].
  split.
  { rewrite Htr5, Htr4, Htr3, !constructions_app, (constructions_prints _ Hpr).
    simpl. by rewrite Hq4, Hq3. }
  split; [done|].
  split.
  { rewrite Htr5, Htr4, Htr3, !solve_calls_app, (prints_solve_calls _ Hpr).
    simpl. by rewrite Hq4. }
  split.
  { rewrite Hq4, Hq3. unfold seed_of in Hans. rewrite Hseed, Hq3 in Hans. exact Hans. }
  split; [done|]. split; [done|].
  assert (converted X s4 = (None, None, None)) as Hconv.
  { exact (eq_trans (f_equal (λ o, o.1.1.1) Ho4) (f_equal (λ o, o.1.1.1) Ho)). }
  injection Hconv as _ Hh4 Hl4.
  split.
  { destruct (measure_pert_order l); [|congruence].
    by destruct Hh as (r' & [= <-] & _ & ?). }
  split.
  { destruct (measure_G_l l); [|congruence].
    by destruct Hl as (r' & [= <-] & _ & ?). }
  split; [done|].
  destruct flag; [done|]. rewrite HGtau in Hret. by destruct Hret as (r' & [= <-] & ->).
Qed.

(** X19.  Lines 151-167, one call after another on the same solver
    object with the hybridization interface: the first call has
    flipped the blocks of [self.Delta_tau] in place, and nothing sets
    them back, so the second call flips them once more and shows the
    engine the hybridization function as it was given before the first
    call, neither negated nor time-reversed. *)
Theorem second_call_unflipped (self : Self V) (kw kw' : kwargs V)
    (s : state X) (l : locals V) :
  (∀ x : V, np_neg (np_neg x) = x) →
  delta_interface self = true →
  Forall (λ b, wf b.2) (Delta_tau self) →
  translate X self kw (init_state X self) = (s, Ok l) →
  Forall (λ e, match e with
               | EvSetProblem p _ =>
                   ip_ftau p
                   = cast self (triqs_gf_to_w2dyn_ndarray_g_tosos_beta_ntau X (Delta_tau self))
               | _ => True
               end)
    (trace X (run_solve X (next_self X self (run_solve X self kw).1) kw').1).
Proof.
  intros Hneg Hd Hwf Ht.
  assert (hybridization self = Delta_tau self) as Hhyb.
  { unfold hybridization. by rewrite Hd. }
  destruct (translate_Ok X self kw (init_state X self) _ _ eq_refl Ht)
    as (?&?&?&?&blocks&_&_&_&_&_&_&_&Hflip&Hblocks&_).
  assert (self_Delta_tau X (run_solve X self kw).1 = blocks) as Hleft.
  { unfold run_solve. rewrite solve_unfold, bind_run, Ht.
    destruct (after_translate X self l s) as [s2 o] eqn:Ha.
    destruct (after_translate_keeps_Delta X self l _ _ _ Ha) as [Hk _].
    cbn [fst]. by rewrite Hk. }
  assert (flip_Delta blocks = Some (Delta_tau self)) as Hback.
  { rewrite <-Hhyb. apply flip_Delta_involutive; [done| |done]. by rewrite Hhyb. }
  apply (problems_shown X (next_self X self (run_solve X self kw).1) kw' (Delta_tau self)).
  unfold hybridization, next_self. cbn [delta_interface Solver.Delta_tau].
  by rewrite Hd, Hleft.
Qed.

End Calls.
(** *** The theorems on concrete calls *)

(** A call on one orbital with [n_cycles = 100]: the worm switch,
    [measure_pert_order], [measure_G2_iw_ph], [worm_components] and
    [cfg_qmc]. *)
Definition call (w pert g2 : option bool) (wc : option (list Z))
    (m : option (list (string * cfgval))) : kwargs float := {|
  kw_n_cycles := Some 100%Z; kw_n_warmup_cycles := None; kw_max_time := None;
  kw_worm := w; kw_PercentageWormInsert := None; kw_PercentageWormReplace := None;
  kw_worm_components := wc; kw_length_cycle := None; kw_h_int := Some U1; kw_h_0 := Some t1;
  kw_random_seed := None; kw_move_double := None; kw_measure_G_l := None;
  kw_measure_G_tau := None; kw_measure_pert_order := pert; kw_statesampling := None;
  kw_flavourchange_moves := None; kw_flavomove_global_prob := None;
  kw_measure_G2_iw_ph := g2; kw_measure_G2_n_fermionic := None;
  kw_measure_G2_n_bosonic := None; kw_cfg_qmc := m
|}.

(** An interaction tensor over three flavours. *)
Definition U3 : ndarray float := mk_ndarray [3; 3; 3; 3] (replicate 81 1%float).

(** A mapping that selects the four-operator worm sector and three
    components, one of them not positive. *)
Definition four_point : list (string * cfgval) :=
  [ ("WormMeasG4iw", VInt 1); ("FourPnt", VInt 8);
    ("WormComponents", VList (CompInt <$> [1; 0; 16]%Z)) ].

#[local] Abbreviation diagonal := (solver1 false (Delta1 1 2 3 4)).
#[local] Abbreviation plain := (call None None None None None).

(** The value a run returned, [None] for a run that raised. *)
Definition returned_value (r : state ext * outcome (retval float)) : retval float :=
  match r.2 with Ok v => v | _ => RetNone end.

(** The configuration of the first solver object of a trace. *)
Definition first_cfg (t : list (event float)) : gmap string cfgval :=
  default ∅ (head (constructions t)).

Lemma first_cfg_head (t : list (event float)) :
  bool_decide (is_Some (head (constructions t))) = true →
  head (constructions t) = Some (first_cfg t).
Proof.
  intros [q Hq]%bool_decide_eq_true. unfold first_cfg. rewrite Hq. reflexivity.
Qed.

Lemma lookup_default {A} (t : list A) (n : nat) (d : A) :
  bool_decide (is_Some (t !! n)) = true → t !! n = Some (default d (t !! n)).
Proof. intros [x Hx]%bool_decide_eq_true. rewrite Hx. reflexivity. Qed.

Lemma required_arguments_witness :
  (run_solve ext diagonal no_kwargs).2 = Raise (KeyError "n_cycles")
  ∧ trace ext (run_solve ext diagonal no_kwargs).1 = [].
Proof.
  apply (required_arguments ext diagonal no_kwargs "n_cycles").
  left. split; reflexivity.
Defined.

Lemma interaction_tensor_rejected_witness :
  (run_solve ext diagonal (kwargs1 100 U3 t1 false)).2 = Raise ValueError
  ∧ trace ext (run_solve ext diagonal (kwargs1 100 U3 t1 false)).1 = [].
Proof.
  apply (interaction_tensor_rejected ext diagonal (kwargs1 100 U3 t1 false) U3 3).
  - exists 100%Z. reflexivity.
  - reflexivity.
  - intros _. exists t1. reflexivity.
  - reflexivity.
  - reflexivity.
  - vm_compute. intros H. discriminate H.
Defined.

Lemma solver_built_first_witness :
  ∃ pre q post,
    trace ext (run_solve ext diagonal plain).1 = pre ++ EvCtHybSolver q 1 :: post
    ∧ Forall is_print pre.
Proof.
  assert (trace ext (run_solve ext diagonal plain).1 !! 7
          = Some (default (EvPrint "") (trace ext (run_solve ext diagonal plain).1 !! 7)))
    as Hlook by (apply lookup_default; vm_compute; reflexivity).
  apply take_drop_middle, eq_sym in Hlook.
  assert (Forall is_print (take 7 (trace ext (run_solve ext diagonal plain).1))) as Hpre
    by (vm_compute; repeat constructor).
  assert (is_engine_call
            (default (EvPrint "") (trace ext (run_solve ext diagonal plain).1 !! 7))) as He
    by (vm_compute; exact I).
  pose proof (solver_built_first ext diagonal plain _ _ _ Hlook Hpre He) as [q Hq].
  exists (take 7 (trace ext (run_solve ext diagonal plain).1)), q,
    (drop 8 (trace ext (run_solve ext diagonal plain).1)).
  split; [|exact Hpre].
  exact (eq_trans Hlook
           (f_equal (λ x, take 7 (trace ext (run_solve ext diagonal plain).1) ++ x
                          :: drop 8 (trace ext (run_solve ext diagonal plain).1)) Hq)).
Defined.

Lemma offdiag_flag_witness :
  first_cfg (trace ext (run_solve ext diagonal plain).1) !! "offdiag" = Some (VInt 0).
Proof.
  apply (offdiag_flag ext diagonal plain
           (first_cfg (trace ext (run_solve ext diagonal plain).1)) 1).
  - apply first_cfg_head. vm_compute. reflexivity.
  - reflexivity.
  - apply not_elem_of_nil.
Defined.

Lemma complex_needs_offdiagonal_witness :
  (run_solve ext (solver1 true (Delta1 1 2 3 4)) plain).2
  = Raise (AssertionError "Complex does not make sense for diagonal Delta_tau!")
  ∧ trace ext (run_solve ext (solver1 true (Delta1 1 2 3 4)) plain).1 = [].
Proof.
  destruct (translate ext (solver1 true (Delta1 1 2 3 4)) plain
              (init_state ext (solver1 true (Delta1 1 2 3 4)))) as [s [l|e]] eqn:Ht.
  - exact (complex_needs_offdiagonal ext (solver1 true (Delta1 1 2 3 4)) plain s l
             eq_refl eq_refl eq_refl Ht).
  - apply (f_equal (λ r, match r.2 with Ok _ => true | _ => false end)) in Ht.
    vm_compute in Ht. discriminate Ht.
Defined.

Lemma engine_grid_and_budget_witness :
  first_cfg (trace ext (run_solve ext diagonal plain).1) !! "Niw" = Some (VInt 1)
  ∧ first_cfg (trace ext (run_solve ext diagonal plain).1) !! "Ntau" = Some (VInt 2)
  ∧ first_cfg (trace ext (run_solve ext diagonal plain).1) !! "Nwarmups"
    = Some (VInt 250000)
  ∧ first_cfg (trace ext (run_solve ext diagonal plain).1) !! "Nmeas" = Some (VInt 100)
  ∧ first_cfg (trace ext (run_solve ext diagonal plain).1) !! "Ncorr" = Some (VInt 50)
  ∧ first_cfg (trace ext (run_solve ext diagonal plain).1) !! "measurement_time"
    = Some (VInt (-1)).
Proof.
  assert (head (constructions (trace ext (run_solve ext diagonal plain).1))
          = Some (first_cfg (trace ext (run_solve ext diagonal plain).1))) as Hq
    by (apply first_cfg_head; vm_compute; reflexivity).
  destruct (engine_grid_and_budget ext diagonal plain _ 100 Hq eq_refl)
    as (H1 & H2 & H3 & H4 & H5 & H6).
  split; [exact (H1 (not_elem_of_nil _))|]. split; [exact (H2 (not_elem_of_nil _))|].
  split; [exact (H3 (not_elem_of_nil _))|]. split; [exact (H4 (not_elem_of_nil _))|].
  split; [exact (H5 (not_elem_of_nil _))|exact (H6 (not_elem_of_nil _))].
Defined.

Lemma worm_measurement_flags_witness :
  first_cfg (trace ext (run_solve ext diagonal (call (Some true) None None None None)).1)
    !! "WormMeasGtau" = Some (VInt 1).
Proof.
  assert (head (constructions
                  (trace ext (run_solve ext diagonal (call (Some true) None None None None)).1))
          = Some (first_cfg
                    (trace ext (run_solve ext diagonal
                                  (call (Some true) None None None None)).1))) as Hq
    by (apply first_cfg_head; vm_compute; reflexivity).
  assert ("WormMeasGtau" ∈ ["WormMeasGiw"; "WormMeasGtau"; "WormSearchEta"]) as Hk
    by (right; left).
  destruct (worm_measurement_flags ext diagonal (call (Some true) None None None None)
              _ U1 2 "WormMeasGtau" eq_refl eq_refl eq_refl Hq Hk) as [Hnone _].
  exact (Hnone eq_refl).
Defined.

Lemma manual_entries_hold_witness :
  first_cfg (trace ext (run_solve ext diagonal
                          (call None None None None (Some [("Nmeas", VInt 7)]))).1)
    !! "Nmeas" = Some (VInt 7).
Proof.
  apply (manual_entries_hold ext diagonal
           (call None None None None (Some [("Nmeas", VInt 7)])) _ [] [] "Nmeas" (VInt 7)).
  - apply first_cfg_head. vm_compute. reflexivity.
  - reflexivity.
  - apply not_elem_of_nil.
Defined.

Lemma hopping_negated_permuted_witness :
  ∃ t',
    transform_t 1 (NdArray.map np_neg t1) = Some t'
    ∧ shape t' = [1; 2; 1; 2]
    ∧ (∀ o1 s1 o2 s2, o1 < 1 → s1 < 2 → o2 < 1 → s2 < 2 →
         get t' [o1; s1; o2; s2] = np_neg <$> get t1 [s1 * 1 + o1; s2 * 1 + o2])
    ∧ Forall (λ e, match e with
                   | EvSetProblem p _ => ip_muimp p = cast diagonal t'
                   | _ => True
                   end)
        (trace ext (run_solve ext diagonal plain).1).
Proof.
  apply (hopping_negated_permuted ext diagonal plain t1 1); reflexivity.
Defined.

Lemma hybridization_flipped_in_place_witness :
  ∃ blocks',
    flip_Delta (Delta1 1 2 3 4) = Some blocks'
    ∧ self_Delta_tau ext (run_solve ext diagonal plain).1 = blocks'
    ∧ flip_Delta blocks' = Some (Delta1 1 2 3 4).
Proof.
  destruct (translate ext diagonal plain (init_state ext diagonal)) as [s [l|e]] eqn:Ht.
  - apply (hybridization_flipped_in_place ext diagonal plain s l float_neg_involutive);
      [|exact Ht].
    repeat constructor.
  - apply (f_equal (λ r, match r.2 with Ok _ => true | _ => false end)) in Ht.
    vm_compute in Ht. discriminate Ht.
Defined.

Lemma standard_invocation_witness :
  constructions (trace ext (run_solve ext diagonal plain).1)
  = [first_cfg (trace ext (run_solve ext diagonal plain).1)]
  ∧ solve_calls (trace ext (run_solve ext diagonal plain).1)
    = [(first_cfg (trace ext (run_solve ext diagonal plain).1), Some 1%Z)]
  ∧ comp_stats_calls (trace ext (run_solve ext diagonal plain).1) = []
  ∧ solve_component_calls (trace ext (run_solve ext diagonal plain).1) = [].
Proof.
  apply (standard_invocation ext diagonal plain).
  - apply first_cfg_head. vm_compute. reflexivity.
  - reflexivity.
  - left. reflexivity.
Defined.

#[local] Abbreviation two_particle_call :=
  (call None None (Some true) (Some [3; 5]%Z) None).

Lemma automatic_g2_returns_witness :
  ∃ g4iw,
    returned_value (run_solve ext diagonal two_particle_call) = RetG4iw g4iw
    ∧ self_G2_iw_ph ext (run_solve ext diagonal two_particle_call).1 = Some g4iw
    ∧ Forall (λ kv, contains "g4iw-worm" kv.1 = true) g4iw
    ∧ self_G_tau ext (run_solve ext diagonal two_particle_call).1 = None
    ∧ self_hist ext (run_solve ext diagonal two_particle_call).1 = None
    ∧ self_G_l ext (run_solve ext diagonal two_particle_call).1 = None.
Proof.
  apply (automatic_g2_returns ext diagonal two_particle_call).
  - reflexivity.
  - reflexivity.
  - vm_compute. reflexivity.
Defined.

Lemma automatic_g2_sampling_witness :
  ∃ t1 q q' t2,
    trace ext (run_solve ext diagonal two_particle_call).1
    = t1 ++ EvCtHybSolver q' 1 :: t2
    ∧ constructions t1 = [q] ∧ constructions t2 = [] ∧ solve_calls t2 = []
    ∧ comp_stats_calls t2 = [(1, 4, 3); (1, 4, 5)]%Z
    ∧ q' !! "FourPnt" = Some (VInt 8)
    ∧ q' !! "N4iwf" = Some (VInt 30)
    ∧ q' !! "N4iwb" = Some (VInt 29)
    ∧ q' !! "PercentageWormInsert" = Some (VFloat 0x1.999999999999ap-3)
    ∧ q' !! "PercentageWormReplace" = Some (VFloat 0x1.999999999999ap-3)
    ∧ q' !! "WormMeasG4iw" = Some (VInt 1)
    ∧ q' !! "WormSearchEta" = Some (VInt 1)
    ∧ ∀ k, ¬ automatic_key k → default false None = false ∨ ¬ budget_key k →
           q' !! k = q !! k.
Proof.
  apply (automatic_g2_sampling ext diagonal two_particle_call
           (returned_value (run_solve ext diagonal two_particle_call)) U1 2).
  - reflexivity.
  - reflexivity.
  - reflexivity.
  - reflexivity.
  - vm_compute. reflexivity.
Defined.

(** The four-operator worm sector on one orbital: the locals of a
    worm call, and a store whose solver object exists and whose
    configuration asks for three components. *)
Definition sector4_locals : locals float := {|
  n_cycles := 100; n_warmup_cycles := 5000; max_time := -1; worm := true;
  percentageworminsert := 0x1.999999999999ap-3;
  percentagewormreplace := 0x1.999999999999ap-3;
  wormcomponents := None; length_cycle := 50; random_seed := 1; move_double := true;
  measure_G_l := false; measure_G_tau := true; measure_pert_order := false;
  statesampling := false; flavourchange_moves := false;
  move_global_prob := 0x1.47ae147ae147bp-8; measure_g4iw_ph := false;
  n4iwf := 30; n4iwb := 29; cfg_qmc := Some four_point; norb := 1;
  U_ijkl := U1; t_osos_tensor := mk_ndarray [1; 2; 1; 2] [-1; 0; 0; -1]%float;
  ftau := blocks_to_tosos (Delta1 1 2 3 4)
|}.

Definition sector4_state : state ext :=
  set_solver ext 0
    (set_cfg_QMC ext (λ _, apply_manual four_point (default_cfg 1).2) (init_state ext diagonal)).

#[local] Abbreviation sector4_run :=
  (worm_four_operator ext diagonal sector4_locals
     (problem_of diagonal sector4_locals) (umatrix_of diagonal sector4_locals) sector4_state).

Lemma four_operator_components_witness :
  ∃ t,
    trace ext sector4_run.1 = trace ext sector4_state ++ t
    ∧ comp_stats_calls t = [(0, 4, 1); (0, 4, 16)]%Z
    ∧ (self_G2_worm_components ext sector4_run.1).*1.*1 = [1; 16]%Z
    ∧ constructions t = []
    ∧ sector4_run.2
      = Ok (None, Some (GtauSample (zeros 0%float [1; 1; 2; 1; 2; 2]) 1)).
Proof.
  assert (sector4_run.2 = Ok (None, Some (GtauSample (zeros 0%float [1; 1; 2; 1; 2; 2]) 1)))
    as Hr by (vm_compute; reflexivity).
  destruct (four_operator_components ext diagonal sector4_locals
              (problem_of diagonal sector4_locals) (umatrix_of diagonal sector4_locals)
              sector4_state sector4_run.1
              (None, Some (GtauSample (zeros 0%float [1; 1; 2; 1; 2; 2]) 1))
              [1; 0; 16]%Z eq_refl (run_Ok ext _ _ _ Hr))
    as (t & Htr & Hcalls & Hcomp & Hcons & _).
  exists t. split; [exact Htr|]. split; [exact Hcalls|]. split; [exact Hcomp|].
  split; [exact Hcons|exact Hr].
Defined.

#[local] Abbreviation sector4_call :=
  (call (Some true) (Some true) None None (Some four_point)).

Lemma worm_result_unbound_witness :
  (run_solve ext diagonal sector4_call).2 ≠ Ok RetNone.
Proof.
  apply (worm_result_unbound ext diagonal sector4_call
           (first_cfg (trace ext (run_solve ext diagonal sector4_call).1)) RetNone).
  - reflexivity.
  - left. reflexivity.
  - right. intros H. discriminate H.
  - apply first_cfg_head. vm_compute. reflexivity.
  - vm_compute. intros H. discriminate H.
Defined.

#[local] Abbreviation sectorless_call := (call (Some true) None None None (Some [])).

Lemma worm_without_sector_witness :
  Forall (λ e, ¬ is_sampling e) (trace ext (run_solve ext diagonal sectorless_call).1)
  ∧ (run_solve ext diagonal sectorless_call).2 = Raise (NameError "gtau").
Proof.
  pose proof (worm_without_sector ext diagonal sectorless_call
                (first_cfg (trace ext (run_solve ext diagonal sectorless_call).1))
                (VInt 0) (VInt 0) (VInt 0) (VInt 0)) as H.
  destruct H as [Hnone Hgtau].
  - reflexivity.
  - left. reflexivity.
  - apply first_cfg_head. vm_compute. reflexivity.
  - vm_compute. intros H. discriminate H.
  - vm_compute. reflexivity.
  - reflexivity.
  - vm_compute. reflexivity.
  - reflexivity.
  - vm_compute. reflexivity.
  - reflexivity.
  - vm_compute. reflexivity.
  - reflexivity.
  - split; [exact Hnone|]. apply Hgtau. reflexivity.
Defined.

Lemma standard_results_witness :
  ∃ s l q offdiag r g flag,
    translate ext diagonal plain (init_state ext diagonal) = (s, Ok l)
    ∧ head (constructions (trace ext (run_solve ext diagonal plain).1)) = Some q
    ∧ q !! "offdiag" = Some offdiag
    ∧ solve_calls (trace ext (run_solve ext diagonal plain).1) = [(q, Some 1%Z)]
    ∧ (solver_solve ext
         (set_umatrix ext
            (set_problem ext
               (set_problem ext
                  (CtHybSolver ext (<["beta" := VFloat 10]> (get_cfg ext (norb l)).1) q 1%Z)
                  (problem_of diagonal l) None)
               (problem_of diagonal l) None)
            (umatrix_of diagonal l))
         q (Some 1%Z)).2 = Some r
    ∧ self_G_tau ext (run_solve ext diagonal plain).1 = Some (GtauArray g)
    ∧ (if py_eq_int offdiag 0
       then ∃ g0, dict_get "gtau" (other r) = Some g0 ∧ bs_diagflat g0 = inr g
       else dict_get "gtau-full" (other r) = Some g)
    ∧ self_hist ext (run_solve ext diagonal plain).1 = None
    ∧ self_G_l ext (run_solve ext diagonal plain).1 = None
    ∧ worm_flag q = Some flag
    ∧ returned_value (run_solve ext diagonal plain) = (if flag then RetNone else RetResult r).
Proof.
  apply (standard_results ext diagonal plain (returned_value (run_solve ext diagonal plain))).
  - reflexivity.
  - reflexivity.
  - left. reflexivity.
  - vm_compute. reflexivity.
Defined.

Lemma second_call_unflipped_witness :
  Forall (λ e, match e with
               | EvSetProblem p _ =>
                   ip_ftau p = cast diagonal (blocks_to_tosos (Delta1 1 2 3 4))
               | _ => True
               end)
    (trace ext (run_solve ext (next_self ext diagonal (run_solve ext diagonal plain).1)
                  plain).1).
Proof.
  destruct (translate ext diagonal plain (init_state ext diagonal)) as [s [l|e]] eqn:Ht.
  - apply (second_call_unflipped ext diagonal plain plain s l float_neg_involutive eq_refl);
      [|exact Ht].
    repeat constructor.
  - apply (f_equal (λ r, match r.2 with Ok _ => true | _ => false end)) in Ht.
    vm_compute in Ht. discriminate Ht.
Defined.

End Extras.
